(** * Hash tables with chaining, linear probing and double hashing

    A shallow embedding of [hash_table.py], [dynamic_hashtable.py] and
    [prime_generator.py], followed by the properties of the specification
    that concern them, and of [MuskLibrary] of [library.py] with the
    properties of its sorting and searching.

    Modelling conventions.
    - Python integers are [Z]; [%] is floor modulo, which is [Z.modulo],
      except that a zero divisor raises [ZeroDivisionError].
    - A key is a [string]; each character is taken as a code point below 256.
    - A stored element is a bare key or a (key, value) tuple; a value is a
      small universe of Python values, enough to tell truthy from falsy.
    - Exceptions are explicit.  A method that mutates [self] before it raises
      leaves the mutation visible, so the dynamic tables run in a state
      monad over the object and the global list of primes.
    - [while] loops run on a budget of iterations; running out is the
      distinct outcome [Exhausted], which the theorems show does not happen.
    - [count / size] is an exact rational.  Python rounds the quotient to a
      double; the comparison with 0.5 agrees with the exact one for every
      size below 2^53.
    - Words and titles are compared as Python compares [str]: character by
      character on code points, a proper prefix first. *)

From Stdlib Require Import ZArith List String Ascii Lia QArith Bool.
From stdpp Require Import base list.
Import ListNotations.
Open Scope Z_scope.

(** ** Outcomes of a call *)

Inductive exn : Type :=
| ZeroDivisionError
| IndexError
| AttributeError
| TypeError.

Inductive outcome (A : Type) : Type :=
| Ret (a : A)
| Raise (e : exn)
| Exhausted.

Arguments Ret {A} a.
Arguments Raise {A} e.
Arguments Exhausted {A}.

Definition bind {A B : Type} (m : outcome A) (k : A -> outcome B) : outcome B :=
  match m with
  | Ret a => k a
  | Raise e => Raise e
  | Exhausted => Exhausted
  end.

Notation "x <- m ;; k" := (bind m (fun x => k))
  (at level 100, m at next level, right associativity).

(** [a % b] on Python integers. *)
Definition pymod (a b : Z) : outcome Z :=
  if b =? 0 then Raise ZeroDivisionError else Ret (a mod b).

(** [l[idx]]: a negative index counts from the end. *)
Definition getitem {A : Type} (l : list A) (idx : Z) : outcome A :=
  let n := Z.of_nat (length l) in
  let i := if idx <? 0 then idx + n else idx in
  if (0 <=? i) && (i <? n) then
    match l !! Z.to_nat i with
    | Some a => Ret a
    | None => Raise IndexError
    end
  else Raise IndexError.

(** [l[idx] = a]. *)
Definition setitem {A : Type} (l : list A) (idx : Z) (a : A) : outcome (list A) :=
  let n := Z.of_nat (length l) in
  let i := if idx <? 0 then idx + n else idx in
  if (0 <=? i) && (i <? n) then Ret (<[ Z.to_nat i := a ]> l)
  else Raise IndexError.

(** ** Values, elements and the table object *)

Inductive value : Type :=
| VNone
| VBool (b : bool)
| VInt (n : Z)
| VStr (s : string)
| VObj (id : nat).   (* an instance of a class without __bool__ or __len__ *)

(** Python truth value. *)
Definition truthy (v : value) : bool :=
  match v with
  | VNone => false
  | VBool b => b
  | VInt n => negb (n =? 0)
  | VStr s => negb (s =? EmptyString)%string
  | VObj _ => true
  end.

(** What [insert] receives and a slot stores: [x] or [(x, v)]. *)
Inductive entry : Type :=
| Key (k : string)
| Pair (k : string) (v : value).

(** [x[0] if isinstance(x, tuple) else x] *)
Definition key_of (x : entry) : string :=
  match x with Key k => k | Pair k _ => k end.

Inductive strategy : Type := Chain | Linear | Double.

Inductive klass : Type := HashSet | HashMap | DynamicHashSet | DynamicHashMap.

(** [isinstance(self, HashMap)] *)
Definition isinstance_HashMap (c : klass) : bool :=
  match c with HashMap | DynamicHashMap => true | _ => false end.

Definition is_dynamic (c : klass) : bool :=
  match c with DynamicHashSet | DynamicHashMap => true | _ => false end.

(** [self.table]: a list of lists under "Chain", a list of optional
    elements otherwise. *)
Inductive storage : Type :=
| Buckets (b : list (list entry))
| Cells (c : list (option entry)).

(** The attributes of a table object.  [z2] and [c2] exist only on a
    "Double" table; elsewhere they are never read and are kept at 0. *)
Record HashTable : Type := mkTable {
  cls : klass;
  collision_type : strategy;
  z : Z;
  z2 : Z;
  c2 : Z;
  table_size : Z;
  total_elements : Z;
  table : storage
}.

Definition slots_len (s : storage) : nat :=
  match s with Buckets b => length b | Cells c => length c end.

(** ** KeyEncoder and SlotAddressing *)

Definition ord (c : ascii) : Z := Z.of_N (N_of_ascii c).

(** [char.islower()] on code points below 256: a..z, the ordinal
    indicators, the micro sign, and the lowercase Latin-1 letters. *)
Definition islower (c : ascii) : bool :=
  let n := ord c in
  ((97 <=? n) && (n <=? 122))
  || (n =? 170) || (n =? 181) || (n =? 186)
  || ((223 <=? n) && (n <=? 246))
  || ((248 <=? n) && (n <=? 255)).

(** The per-character [value] of both hash loops. *)
Definition char_value (char : ascii) : Z :=
  if islower char then ord char - ord "a" else ord char - ord "A" + 26.

(** [for i in range(len(key)-1, -1, -1)] of [get_slot]; [n] is [i + 1]. *)
Fixpoint get_slot_loop (zz size : Z) (key : string) (n : nat) (poly : Z)
  : outcome Z :=
  match n with
  | O => Ret poly
  | S i =>
      match String.get i key with
      | Some char =>
          poly' <- pymod (poly * zz + char_value char) size ;;
          get_slot_loop zz size key i poly'
      | None => Raise IndexError
      end
  end.

Definition get_slot (t : HashTable) (key : string) : outcome Z :=
  poly <- get_slot_loop (z t) (table_size t) key (String.length key) 0 ;;
  pymod poly (table_size t).

(** The accumulation of the secondary hash: no reduction inside the loop. *)
Fixpoint step_loop (zz : Z) (key : string) (n : nat) (step : Z) : outcome Z :=
  match n with
  | O => Ret step
  | S i =>
      match String.get i key with
      | Some char => step_loop zz key i (step * zz + char_value char)
      | None => Raise IndexError
      end
  end.

(** The secondary hash.  [insert] and [find] each carry a copy of these
    lines; the two copies are the same text. *)
Definition secondary_step (t : HashTable) (key : string) : outcome Z :=
  step <- step_loop (z2 t) key (String.length key) 0 ;;
  m <- pymod step (c2 t) ;;
  Ret (c2 t - m).

(** ** CollisionResolver: find *)

(** [None if isinstance(self, HashMap) else False] *)
Definition absent (t : HashTable) : value :=
  if isinstance_HashMap (cls t) then VNone else VBool false.

(** [(isinstance(item, tuple) and item[0] == key) or item == key];
    a tuple never equals a string. *)
Definition item_matches (item : entry) (key : string) : bool :=
  match item with
  | Pair k _ => (k =? key)%string || false
  | Key k => false || (k =? key)%string
  end.

(** [item[1] if isinstance(item, tuple) else True] *)
Definition item_result (item : entry) : value :=
  match item with
  | Pair _ v => v
  | Key _ => VBool true
  end.

(** Truth value of a probed slot: [None] and the empty string are falsy,
    a tuple of two elements is truthy. *)
Definition slot_truthy (s : option entry) : bool :=
  match s with
  | None => false
  | Some (Key k) => negb (k =? EmptyString)%string
  | Some (Pair _ _) => true
  end.

(** [for item in self.table[idx]] of the "Chain" branch. *)
Fixpoint scan_chain (items : list entry) (key : string) : option value :=
  match items with
  | [] => None
  | item :: rest =>
      if item_matches item key then Some (item_result item)
      else scan_chain rest key
  end.

(** The [while self.table[idx]:] loop of the probing branches, with the
    advance [step] (1 under "Linear"). *)
Fixpoint find_loop (fuel : nat) (t : HashTable) (c : list (option entry))
  (key : string) (step orig_idx idx : Z) : outcome value :=
  match fuel with
  | O => Exhausted
  | S fuel' =>
      s <- getitem c idx ;;
      if slot_truthy s then
        match s with
        | Some item =>
            if item_matches item key then Ret (item_result item)
            else
              idx' <- pymod (idx + step) (table_size t) ;;
              if orig_idx =? idx' then Ret (absent t)
              else find_loop fuel' t c key step orig_idx idx'
        | None => Ret (absent t)
        end
      else Ret (absent t)
  end.

(** [find] on a budget of loop iterations.  A table whose storage does not
    have the shape of its strategy is not built by [__init__]; the model
    answers such a table with [TypeError]. *)
Definition find_fuel (fuel : nat) (t : HashTable) (key : string)
  : outcome value :=
  idx <- get_slot t key ;;
  match collision_type t, table t with
  | Chain, Buckets b =>
      items <- getitem b idx ;;
      Ret (match scan_chain items key with
           | Some v => v
           | None => absent t
           end)
  | Linear, Cells c => find_loop fuel t c key 1 idx idx
  | Double, Cells c =>
      step <- secondary_step t key ;;
      find_loop fuel t c key step idx idx
  | _, _ => Raise TypeError
  end.

(** The budget a table of [size] slots gets: one iteration per slot, and
    at least the one in which the first slot is read. *)
Definition budget (t : HashTable) : nat := Z.to_nat (Z.max 1 (table_size t)).

Definition find (t : HashTable) (key : string) : outcome value :=
  find_fuel (budget t) t key.

(** ** CollisionResolver: insert *)

Definition is_None (s : option entry) : bool :=
  match s with None => true | Some _ => false end.

(** The [while self.table[idx] is not None:] loop.  [Some idx] is the
    vacant slot it stops at, [None] is the early [return] on a full cycle. *)
Fixpoint insert_loop (fuel : nat) (t : HashTable) (c : list (option entry))
  (step orig_idx idx : Z) : outcome (option Z) :=
  match fuel with
  | O => Exhausted
  | S fuel' =>
      s <- getitem c idx ;;
      if is_None s then Ret (Some idx)
      else
        idx' <- pymod (idx + step) (table_size t) ;;
        if idx' =? orig_idx then Ret None
        else insert_loop fuel' t c step orig_idx idx'
  end.

Definition with_table (t : HashTable) (s : storage) (n : Z) : HashTable :=
  mkTable (cls t) (collision_type t) (z t) (z2 t) (c2 t) (table_size t) n s.

(** [self.table[idx] = x] followed by [self.total_elements += 1]. *)
Definition store (t : HashTable) (c : list (option entry)) (idx : Z)
  (x : entry) : outcome HashTable :=
  c' <- setitem c idx (Some x) ;;
  Ret (with_table t (Cells c') (total_elements t + 1)).

Definition place (t : HashTable) (c : list (option entry)) (x : entry)
  (r : option Z) : outcome HashTable :=
  match r with
  | None => Ret t
  | Some idx => store t c idx x
  end.

(** [HashTable.insert].  Nothing is assigned before the last exception can
    be raised, so a raising call leaves the object as it was. *)
Definition insert_fuel (fuel : nat) (t : HashTable) (x : entry)
  : outcome HashTable :=
  let key := key_of x in
  found <- find_fuel fuel t key ;;
  if truthy found then Ret t
  else
    idx <- get_slot t key ;;
    match collision_type t, table t with
    | Chain, Buckets b =>
        items <- getitem b idx ;;
        b' <- setitem b idx (items ++ [x]) ;;
        Ret (with_table t (Buckets b') (total_elements t + 1))
    | Linear, Cells c =>
        r <- insert_loop fuel t c 1 idx idx ;;
        place t c x r
    | Double, Cells c =>
        step <- secondary_step t key ;;
        r <- insert_loop fuel t c step idx idx ;;
        place t c x r
    | _, _ => Raise TypeError
    end.

Definition base_insert (t : HashTable) (x : entry) : outcome HashTable :=
  insert_fuel (budget t) t x.

(** [get_load]: [total_elements / table_size]. *)
Definition load_of (t : HashTable) : outcome Q :=
  if table_size t =? 0 then Raise ZeroDivisionError
  else Ret (inject_Z (total_elements t) / inject_Z (table_size t))%Q.

(** ** The object and the global [prime_sizes] *)

Record world : Type := mkWorld {
  self : HashTable;
  prime_sizes : list Z
}.

Definition M (A : Type) : Type := world -> outcome A * world.

Definition mret {A : Type} (a : A) : M A := fun w => (Ret a, w).

Definition mbind {A B : Type} (m : M A) (k : A -> M B) : M B :=
  fun w =>
    match m w with
    | (Ret a, w') => k a w'
    | (Raise e, w') => (Raise e, w')
    | (Exhausted, w') => (Exhausted, w')
    end.

Notation "x <~ m ;; k" := (mbind m (fun x => k))
  (at level 100, m at next level, right associativity).

(** A computation that only reads the object. *)
Definition reading {A : Type} (f : HashTable -> outcome A) : M A :=
  fun w => (f (self w), w).

(** A method of the base class: it replaces the object when it returns and
    leaves it alone when it raises. *)
Definition updating (f : HashTable -> outcome HashTable) : M unit :=
  fun w =>
    match f (self w) with
    | Ret t' => (Ret tt, mkWorld t' (prime_sizes w))
    | Raise e => (Raise e, w)
    | Exhausted => (Exhausted, w)
    end.

Definition raise {A : Type} (e : exn) : M A := fun w => (Raise e, w).

Definition put_self (t : HashTable) : M unit :=
  fun w => (Ret tt, mkWorld t (prime_sizes w)).

(** [get_load] as a method: the object is handed back untouched. *)
Definition get_load : M Q := reading load_of.

(** [params[i]] *)
Definition param (params : list Z) (i : nat) : outcome Z :=
  match params !! i with
  | Some v => Ret v
  | None => Raise IndexError
  end.

(** [[[] for i in range(size)]] or [[None] * size]. *)
Definition fresh (ct : strategy) (size : Z) : storage :=
  match ct with
  | Chain => Buckets (replicate (Z.to_nat size) [])
  | _ => Cells (replicate (Z.to_nat size) None)
  end.

(** [HashTable.__init__] run on an existing object.  The two plain
    assignments come first; the tuple assignment evaluates all of
    [params[...]] before it binds anything. *)
Definition init (ct : strategy) (params : list Z) : M unit :=
  fun w =>
    let t := self w in
    let t1 := mkTable (cls t) ct (z t) (z2 t) (c2 t) (table_size t) 0 (table t) in
    let ps := prime_sizes w in
    match ct with
    | Double =>
        match (a <- param params 0 ;; b <- param params 1 ;;
               c <- param params 2 ;; d <- param params 3 ;;
               Ret (a, b, c, d)) with
        | Ret (a, b, c, d) =>
            (Ret tt, mkWorld (mkTable (cls t) ct a b c d 0 (fresh ct d)) ps)
        | Raise e => (Raise e, mkWorld t1 ps)
        | Exhausted => (Exhausted, mkWorld t1 ps)
        end
    | _ =>
        match (a <- param params 0 ;; d <- param params 1 ;; Ret (a, d)) with
        | Ret (a, d) =>
            (Ret tt, mkWorld (mkTable (cls t) ct a (z2 t) (c2 t) d 0 (fresh ct d)) ps)
        | Raise e => (Raise e, mkWorld t1 ps)
        | Exhausted => (Exhausted, mkWorld t1 ps)
        end
    end.

(** An object of class [c] before [__init__] has run on it. *)
Definition blank (c : klass) : HashTable :=
  mkTable c Chain 0 0 0 0 0 (Buckets []).

(** The constructor call [c(collision_type, params)]: no object comes out
    of a raising [__init__]. *)
Definition new (c : klass) (ct : strategy) (params : list Z)
  : outcome HashTable :=
  match init ct params (mkWorld (blank c) []) with
  | (Ret _, w) => Ret (self w)
  | (Raise e, _) => Raise e
  | (Exhausted, _) => Exhausted
  end.

(** [get_next_size]: [prime_sizes.pop()] takes the last element. *)
Definition get_next_size : M Z :=
  fun w =>
    match List.rev (prime_sizes w) with
    | [] => (Raise IndexError, w)
    | p :: r => (Ret p, mkWorld (self w) (List.rev r))
    end.

(** The slots of a probed array that are not [None], in array order. *)
Fixpoint occupants (c : list (option entry)) : list entry :=
  match c with
  | [] => []
  | Some e :: rest => e :: occupants rest
  | None :: rest => occupants rest
  end.

(** The collecting loop of [rehash]: under "Chain" the non-empty lists are
    concatenated, otherwise the slots that are not [None] are kept. *)
Definition current_elements (t : HashTable) : outcome (list entry) :=
  match collision_type t, table t with
  | Chain, Buckets b => Ret (concat b)
  | Linear, Cells c => Ret (occupants c)
  | Double, Cells c => Ret (occupants c)
  | _, _ => Raise TypeError
  end.

(** [for element in current_elements: self.insert(element)] *)
Fixpoint for_each (l : list entry) (body : entry -> M unit) : M unit :=
  match l with
  | [] => mret tt
  | element :: rest => _ <~ body element ;; for_each rest body
  end.

(** [DynamicHashSet.rehash]; [insert] is the method the object dispatches
    to, the dynamic one. *)
Definition rehash_set (insert : entry -> M unit) : M unit :=
  new_size <~ get_next_size ;;
  elements <~ reading current_elements ;;
  zz <~ reading (fun t => Ret (z t)) ;;
  ct <~ reading (fun t => Ret (collision_type t)) ;;
  _ <~ init ct [zz; new_size] ;;
  for_each elements insert.

(** [DynamicHashMap.rehash]: [self.params] is read, an attribute that no
    method of the class or of its bases assigns. *)
Definition rehash_map (insert : entry -> M unit) : M unit :=
  new_size <~ get_next_size ;;
  elements <~ reading current_elements ;;
  raise AttributeError.

(** [HashTable.rehash], which the two static classes inherit. *)
Definition rehash_base (insert : entry -> M unit) : M unit :=
  new_size <~ get_next_size ;;
  old_table <~ reading current_elements ;;
  t <~ reading (fun t => Ret t) ;;
  _ <~ put_self (mkTable (cls t) (collision_type t) (z t) (z2 t) (c2 t)
                   new_size 0 (fresh (collision_type t) new_size)) ;;
  for_each old_table insert.

(** [self.rehash()], dispatched on the class of the object. *)
Definition rehash (insert : entry -> M unit) : M unit :=
  fun w =>
    match cls (self w) with
    | DynamicHashSet => rehash_set insert w
    | DynamicHashMap => rehash_map insert w
    | _ => rehash_base insert w
    end.

(** [self.get_load() >= 0.5] *)
Definition overloaded (load : Q) : bool := Qle_bool (1 # 2) load.

(** [DynamicHashSet.insert] and [DynamicHashMap.insert]; [fuel] bounds the
    depth of rebuilds nested through the reinserting loop. *)
Fixpoint dynamic_insert (fuel : nat) (x : entry) : M unit :=
  match fuel with
  | O => fun w => (Exhausted, w)
  | S fuel' =>
      _ <~ updating (fun t => base_insert t x) ;;
      load <~ get_load ;;
      if overloaded load then rehash (dynamic_insert fuel')
      else mret tt
  end.

(** [obj.insert(x)], dispatched on the class of the object.  Every rebuild
    pops one prime, so one more level than there are primes is enough. *)
Definition insert (x : entry) : M unit :=
  fun w =>
    if is_dynamic (cls (self w))
    then dynamic_insert (S (length (prime_sizes w))) x w
    else updating (fun t => base_insert t x) w.

(** A run of [insert] calls; it goes on after a call that raised, as a
    caller that catches the exception would. *)
Fixpoint inserts (xs : list entry) (w : world) : world :=
  match xs with
  | [] => w
  | x :: rest => inserts rest (snd (insert x w))
  end.

(** The elements a table stores, in slot order. *)
Definition entries (t : HashTable) : list entry :=
  match table t with
  | Buckets b => concat b
  | Cells c => occupants c
  end.

Definition keys (t : HashTable) : list string := map key_of (entries t).

(** ** What the specification says of the two hash functions *)

(** Keys are composed exclusively of ASCII letters. *)
Definition is_ascii_letter (c : ascii) : bool :=
  let n := ord c in
  ((97 <=? n) && (n <=? 122)) || ((65 <=? n) && (n <=? 90)).

Definition chars (key : string) : list ascii := list_ascii_of_string key.

Definition ascii_letters (key : string) : bool :=
  forallb is_ascii_letter (chars key).

Definition alphabet : string :=
  "abcdefghijklmnopqrstuvwxyzABCDEFGHIJKLMNOPQRSTUVWXYZ".

Fixpoint position (c : ascii) (l : list ascii) : Z :=
  match l with
  | [] => 0
  | d :: rest => if Ascii.eqb c d then 0 else 1 + position c rest
  end.

(** Lowercase letters to 0..25, uppercase letters to 26..51: the rank of
    the letter in [alphabet]. *)
Definition letter_value (c : ascii) : Z := position c (chars alphabet).

(** The accumulation over the characters from last to first. *)
Definition accumulate (f : Z -> Z -> Z) (key : string) : Z :=
  fold_left (fun acc c => f acc (letter_value c)) (List.rev (chars key)) 0.

(** [poly = (poly * z + value) mod size], the result reduced again. *)
Definition spec_slot (zz size : Z) (key : string) : Z :=
  accumulate (fun poly v => (poly * zz + v) mod size) key mod size.

(** [step = c2 - (accumulator mod c2)], no reduction while accumulating. *)
Definition spec_step (zz cc : Z) (key : string) : Z :=
  cc - accumulate (fun acc v => acc * zz + v) key mod cc.

(** ** Well-formed tables *)

(** The storage has the shape of the strategy. *)
Definition shaped (t : HashTable) : bool :=
  match collision_type t, table t with
  | Chain, Buckets _ => true
  | Linear, Cells _ => true
  | Double, Cells _ => true
  | _, _ => false
  end.

(** The slots array has [table_size] slots. *)
Definition sized (t : HashTable) : bool :=
  (Z.of_nat (slots_len (table t)) =? table_size t).

Definition probing (t : HashTable) : bool :=
  match collision_type t with Chain => false | _ => true end.

(** The probed slots of a table. *)
Definition cells (t : HashTable) : list (option entry) :=
  match table t with Cells c => c | Buckets _ => [] end.


Definition has_vacant (t : HashTable) : bool :=
  existsb is_None (cells t).

(** A table as a constructor call with a positive size leaves it, and as
    every [insert] keeps it: storage of the right shape, [table_size]
    slots, and a non-zero [c2] under "Double". *)
Definition well_formed (t : HashTable) : bool :=
  shaped t && sized t && (1 <=? table_size t)
  && match collision_type t with
     | Double => negb (c2 t =? 0)
     | _ => true
     end.

(** What the constructor establishes and every call keeps, also on a
    table of size zero or less: the storage has the shape of the strategy
    and [table_size] slots (none when the size is negative), and
    [total_elements] does not exceed the number of stored elements. *)
Definition consistent (t : HashTable) : Prop :=
  shaped t = true /\
  slots_len (table t) = Z.to_nat (table_size t) /\
  0 <= total_elements t <= Z.of_nat (length (entries t)).

(** A computation keeps a property of the object when the object has it
    afterwards, however the computation ends. *)
Definition keeps (P : HashTable -> Prop) {A : Type} (m : M A) : Prop :=
  forall w, P (self w) -> P (self (snd (m w))).

(** The load bound of the growth variant: if [get_load] returns, its
    result is below the threshold. *)
Definition below_threshold (w : world) : Prop :=
  forall q, load_of (self w) = Ret q -> overloaded q = false.

(** A computation never adds to the global list of primes. *)
Definition shrinks {A : Type} (m : M A) : Prop :=
  forall w,
    (length (prime_sizes (snd (m w))) <= length (prime_sizes w))%nat.

(** What the reinserting loop of a rebuild relies on, [fuel] levels deep:
    a consistent object and fewer primes left than levels. *)
Definition ready (fuel : nat) (w : world) : Prop :=
  consistent (self w) /\ (length (prime_sizes w) < fuel)%nat.

(** No stored element has the key [key]. *)
Definition key_absent (t : HashTable) (key : string) : bool :=
  forallb (fun e => negb (item_matches e key)) (entries t).

(** Every stored element is truthy where it sits in a probed slot: no bare
    empty string among them. *)
Definition entries_truthy (t : HashTable) : bool :=
  forallb (fun e => slot_truthy (Some e)) (entries t).

(** A dynamic set under "Chain" or "Linear", with a positive size, fed by
    positive primes of which fewer than [fuel] are left. *)
Definition growing (fuel : nat) (w : world) : Prop :=
  cls (self w) = DynamicHashSet /\
  collision_type (self w) <> Double /\
  consistent (self w) /\
  1 <= table_size (self w) /\
  Forall (fun p => 1 <= p) (prime_sizes w) /\
  (length (prime_sizes w) < fuel)%nat.

(** How a call on such a set ends: it returns and the set is as before, or
    it raises [IndexError] out of an empty list of primes. *)
Definition served (fuel : nat) (r : outcome unit * world) : Prop :=
  (fst r = Ret tt /\ growing fuel (snd r)) \/
  (fst r = Raise IndexError /\ prime_sizes (snd r) = []).

(** ** Tables a program can build *)

(** A constructor call followed by [insert] calls, whatever the global
    list of primes holds at each call and whether or not a call raises. *)
Inductive reachable : HashTable -> Prop :=
| reach_new (c : klass) (ct : strategy) (params : list Z) (t : HashTable) :
    new c ct params = Ret t -> reachable t
| reach_insert (t : HashTable) (ps : list Z) (x : entry) :
    reachable t -> reachable (self (snd (insert x (mkWorld t ps)))).

(** The position of a probe after [k] advances by [step] from [orig_idx]. *)
Definition probe_at (t : HashTable) (step orig_idx : Z) (k : nat) : Z :=
  (orig_idx + Z.of_nat k * step) mod table_size t.

(** ** Tables used as examples *)

(** [HashSet("Chain", (31, 29))] *)
Definition chain_set_29 : HashTable :=
  mkTable HashSet Chain 31 0 0 29 0 (fresh Chain 29).

(** [HashMap("Double", (31, 37, 17, 29))] *)
Definition double_map_29 : HashTable :=
  mkTable HashMap Double 31 37 17 29 0 (fresh Double 29).

(** [HashSet("Linear", (31, 3))] *)
Definition linear_set_3 : HashTable :=
  mkTable HashSet Linear 31 0 0 3 0 (fresh Linear 3).

(** A "Linear" set of two slots holding "a" and "b": no vacant slot. *)
Definition full_linear_2 : HashTable :=
  mkTable HashSet Linear 31 0 0 2 2 (Cells [Some (Key "a"); Some (Key "b")]).

(** [HashSet("Chain", (31, 1))] after [insert("a")] and [insert("b")]. *)
Definition crowded_chain : HashTable :=
  self (inserts [Key "a"; Key "b"]
          (mkWorld (mkTable HashSet Chain 31 0 0 1 0 (fresh Chain 1)) [])).

(** [HashMap("Chain", (31, 29))] *)
Definition chain_map_29 : HashTable :=
  mkTable HashMap Chain 31 0 0 29 0 (fresh Chain 29).

(** [chain_map_29] after [insert(("a", 0))]. *)
Definition chain_map_a0 : HashTable :=
  self (inserts [Pair "a" (VInt 0)] (mkWorld chain_map_29 [])).

(** [linear_set_3] after the insertion of the empty string. *)
Definition linear_set_empty_key : HashTable :=
  self (inserts [Key EmptyString] (mkWorld linear_set_3 [])).

(** [DynamicHashMap("Chain", (31, 3))] after [insert(("a", 1))], with the
    primes 17 and 7 still to be handed out. *)
Definition dynamic_map_a : world :=
  inserts [Pair "a" (VInt 1)]
    (mkWorld (mkTable DynamicHashMap Chain 31 0 0 3 0 (fresh Chain 3)) [17; 7]).

(** [DynamicHashSet("Double", (31, 37, 2, 3))] after [insert("a")]. *)
Definition dynamic_double_a : world :=
  inserts [Key "a"]
    (mkWorld (mkTable DynamicHashSet Double 31 37 2 3 0 (fresh Double 3))
       [17; 7]).

(** [DynamicHashSet("Linear", (31, 3))] after [insert("a")]. *)
Definition dynamic_linear_a : world :=
  inserts [Key "a"]
    (mkWorld (mkTable DynamicHashSet Linear 31 0 0 3 0 (fresh Linear 3))
       [17; 7]).


(** Fifteen distinct keys for a dynamic set of 29 slots. *)
Definition fifteen_keys : list string :=
  ["a"; "b"; "c"; "d"; "e"; "f"; "g"; "h"; "i"; "j"; "k"; "l"; "m"; "n";
   "o"]%string.

(** [DynamicHashSet("Linear", (31, 29))] after the fifteen inserts, the
    next prime being 61. *)
Definition grown_set : world :=
  inserts (map Key fifteen_keys)
    (mkWorld (mkTable DynamicHashSet Linear 31 0 0 29 0 (fresh Linear 29))
       [61]).

(** ** The remaining methods *)

(** [obj.rehash()] called from outside: the reinserting loop goes through
    [obj.insert], whatever the class. *)
Definition rehash_method : M unit := rehash insert.

(** [set_primes(list_of_primes)]: the global list is replaced. *)
Definition set_primes (list_of_primes : list Z) : M unit :=
  fun w => (Ret tt, mkWorld (self w) list_of_primes).

(** [n] calls of [get_next_size] in a row, stopping at the first that
    raises; the sizes handed out are collected in call order. *)
Fixpoint next_sizes (n : nat) : M (list Z) :=
  match n with
  | O => mret []
  | S n' =>
      p <~ get_next_size ;;
      rest <~ next_sizes n' ;;
      mret (p :: rest)
  end.

(** Every stored element is among [allowed]. *)
Definition entries_within (allowed : list entry) (t : HashTable) : Prop :=
  forall e, In e (entries t) -> In e allowed.

(** ** [__str__] *)

(** [sep.join(parts)] *)
Fixpoint join (sep : string) (parts : list string) : string :=
  match parts with
  | [] => EmptyString
  | [a] => a
  | a :: rest => (a ++ sep ++ join sep rest)%string
  end.

Fixpoint drop_leading (strip : list ascii) (l : list ascii) : list ascii :=
  match l with
  | [] => []
  | c :: rest =>
      if existsb (Ascii.eqb c) strip then drop_leading strip rest else l
  end.

(** [s.rstrip(strip)]: the trailing characters that occur in [strip] go. *)
Definition rstrip (strip : string) (s : string) : string :=
  string_of_list_ascii
    (List.rev (drop_leading (chars strip) (List.rev (chars s)))).

Section Rendering.

(** [repr] of a Python value, which [str] of a tuple applies to its
    components; it belongs to the interpreter, not to the repository. *)
Variable repr : value -> string.

(** [str(x)] for a stored element: a string is its own text, a tuple is
    the [repr] of its two components in parentheses. *)
Definition str_entry (x : entry) : string :=
  match x with
  | Key k => k
  | Pair k v => ("(" ++ repr (VStr k) ++ ", " ++ repr v ++ ")")%string
  end.

(** The text [__str__] adds for one list of a "Chain" table. *)
Definition str_bucket (slot : list entry) : string :=
  match slot with
  | [] => "<EMPTY> | "%string
  | _ => (join " ; " (map str_entry slot) ++ " | ")%string
  end.

(** The text [__str__] adds for one slot of a probed table. *)
Definition str_cell (slot : option entry) : string :=
  if slot_truthy slot then
    match slot with
    | Some x => (str_entry x ++ " | ")%string
    | None => "<EMPTY> | "%string
    end
  else "<EMPTY> | "%string.

(** [HashTable.__str__] *)
Definition str_table (t : HashTable) : outcome string :=
  match collision_type t, table t with
  | Chain, Buckets b =>
      Ret (rstrip " | "
             (fold_left (fun result slot => (result ++ str_bucket slot)%string)
                b EmptyString))
  | Linear, Cells c =>
      Ret (rstrip " | "
             (fold_left (fun result slot => (result ++ str_cell slot)%string)
                c EmptyString))
  | Double, Cells c =>
      Ret (rstrip " | "
             (fold_left (fun result slot => (result ++ str_cell slot)%string)
                c EmptyString))
  | _, _ => Raise TypeError
  end.

(** The text of each slot on its own: the elements of a list joined by
    " ; ", the element of a probed slot, [<EMPTY>] for a falsy slot. *)
Definition fields (t : HashTable) : list string :=
  match table t with
  | Buckets b =>
      map (fun slot => match slot with
                       | [] => "<EMPTY>"%string
                       | _ => join " ; " (map str_entry slot)
                       end) b
  | Cells c =>
      map (fun slot => if slot_truthy slot then
                         match slot with
                         | Some x => str_entry x
                         | None => "<EMPTY>"%string
                         end
                       else "<EMPTY>"%string) c
  end.

End Rendering.

(** A bare key whose last character is neither a space nor a bar; a tuple
    always ends in a parenthesis. *)
Definition tidy (x : entry) : bool :=
  match x with
  | Pair _ _ => true
  | Key k =>
      match List.rev (chars k) with
      | [] => false
      | c :: _ => negb (existsb (Ascii.eqb c) (chars " | "))
      end
  end.

(** The last character of [s] exists and is neither a space nor a bar. *)
Definition ends_clean (s : string) : bool :=
  match List.rev (chars s) with
  | [] => false
  | c :: _ => negb (existsb (Ascii.eqb c) (chars " | "))
  end.

(** ** [library.py]: the library kept in sorted lists *)

(** How a method of the library ends.  Besides the exceptions of the
    tables there is [UnboundLocalError], raised when [mid] is read before
    a loop has assigned it. *)
Inductive answer (A : Type) : Type :=
| Done (a : A)
| Failed (e : exn)
| UnboundLocalError
| Unfinished.

Arguments Done {A} a.
Arguments Failed {A} e.
Arguments UnboundLocalError {A}.
Arguments Unfinished {A}.

Definition abind {A B : Type} (m : answer A) (k : A -> answer B) : answer B :=
  match m with
  | Done a => k a
  | Failed e => Failed e
  | UnboundLocalError => UnboundLocalError
  | Unfinished => Unfinished
  end.

Notation "x <-- m ;; k" := (abind m (fun x => k))
  (at level 100, m at next level, right associativity).

Definition lift {A : Type} (m : outcome A) : answer A :=
  match m with
  | Ret a => Done a
  | Raise e => Failed e
  | Exhausted => Unfinished
  end.

(** [not merged or merged[-1] != word] *)
Definition is_new (merged : list string) (word : string) : bool :=
  match List.rev merged with
  | [] => true
  | m :: _ => negb (m =? word)%string
  end.

(** The first loop of [merge].  The indices [i] and [j] only ever move
    forward by one, so the loop is carried by what is left to read,
    [left[i:]] and [right[j:]]; it hands back both and [merged]. *)
Fixpoint merge_both (left : list string)
  : list string -> list string -> list string * list string * list string :=
  fix go (right merged : list string) {struct right} :=
    match left, right with
    | a :: left', b :: right' =>
        if (a <=? b)%string then
          if is_new merged a then
            if (a =? b)%string
            then merge_both left' right' (merged ++ [a])
            else merge_both left' right (merged ++ [a])
          else merge_both left' right merged
        else
          if is_new merged b then go right' (merged ++ [b])
          else go right' merged
    | _, _ => (left, right, merged)
    end.

(** The two loops that handle the remaining elements of one side. *)
Fixpoint merge_rest (rest merged : list string) : list string :=
  match rest with
  | [] => merged
  | a :: rest' =>
      if is_new merged a then merge_rest rest' (merged ++ [a])
      else merge_rest rest' merged
  end.

(** [MuskLibrary.merge] *)
Definition merge (left right : list string) : list string :=
  let '(left', right', merged) := merge_both left right [] in
  merge_rest right' (merge_rest left' merged).

(** [MuskLibrary.mergesort_words], on a budget of recursion depth. *)
Fixpoint mergesort_fuel (fuel : nat) (lst : list string)
  : answer (list string) :=
  match fuel with
  | O => Unfinished
  | S fuel' =>
      if (length lst <=? 1)%nat then Done lst
      else
        let mid := (length lst / 2)%nat in
        lst1 <-- mergesort_fuel fuel' (firstn mid lst) ;;
        lst2 <-- mergesort_fuel fuel' (skipn mid lst) ;;
        Done (merge lst1 lst2)
  end.

Definition mergesort_words (lst : list string) : answer (list string) :=
  mergesort_fuel (S (length lst)) lst.

(** The binary search that [__init__], [distinct_words] and
    [search_keyword] each spell out.  It hands back whether the loop left
    through [break], and [mid] as the loop leaves it: [None] while no
    iteration has assigned it. *)
Fixpoint search_loop (fuel : nat) (words : list string) (key : string)
  (s e : Z) (mid : option Z) : answer (bool * option Z) :=
  match fuel with
  | O => Unfinished
  | S fuel' =>
      if s <=? e then
        let m := (s + e) / 2 in
        word <-- lift (getitem words m) ;;
        if (word =? key)%string then Done (true, Some m)
        else if (word <? key)%string
             then search_loop fuel' words key (m + 1) e (Some m)
             else search_loop fuel' words key s (m - 1) (Some m)
      else Done (false, mid)
  end.

(** [s, e = 0, len(words) - 1] and the loop. *)
Definition binary_search (words : list string) (key : string)
  (mid : option Z) : answer (bool * option Z) :=
  search_loop (S (length words)) words key 0 (Z.of_nat (length words) - 1) mid.

(** The attributes of a [MuskLibrary]. *)
Record MuskLibrary : Type := mkMusk {
  unsorted_books : list string;
  texts : list (option (list string));
  distincts : list (option (list string));
  book_titles : list string
}.

(** Reading [mid] after a loop. *)
Definition bound (mid : option Z) : answer Z :=
  match mid with
  | Some m => Done m
  | None => UnboundLocalError
  end.

(** The loop [for i in range(len(book_titles))] of [__init__]; [mid] is a
    local of the method and keeps its value from one round to the next. *)
Fixpoint init_loop (rounds : nat) (i : Z) (given : list (list string))
  (lib : MuskLibrary) (mid : option Z) : answer MuskLibrary :=
  match rounds with
  | O => Done lib
  | S rounds' =>
      text <-- lift (getitem given i) ;;
      orig_title <-- lift (getitem (unsorted_books lib) i) ;;
      r <-- binary_search (book_titles lib) orig_title mid ;;
      m <-- bound (snd r) ;;
      texts' <-- lift (setitem (texts lib) m (Some text)) ;;
      sorted_dist <-- mergesort_words text ;;
      distincts' <-- lift (setitem (distincts lib) m (Some sorted_dist)) ;;
      init_loop rounds' (i + 1) given
        (mkMusk (unsorted_books lib) texts' distincts' (book_titles lib))
        (Some m)
  end.

(** [MuskLibrary(book_titles, texts)] *)
Definition musk_library (titles : list string) (given : list (list string))
  : answer MuskLibrary :=
  sorted <-- mergesort_words titles ;;
  init_loop (length titles) 0 given
    (mkMusk titles
       (replicate (length titles) None)
       (replicate (length titles) None)
       sorted)
    None.

(** [MuskLibrary.distinct_words]: the outcome of the search is not looked
    at, only [mid]; the slot read may still hold [None]. *)
Definition distinct_words (lib : MuskLibrary) (book_title : string)
  : answer (option (list string)) :=
  r <-- binary_search (book_titles lib) book_title None ;;
  m <-- bound (snd r) ;;
  lift (getitem (distincts lib) m).

(** [len(x)] on what may be [None]. *)
Definition len (x : option (list string)) : answer Z :=
  match x with
  | Some words => Done (Z.of_nat (length words))
  | None => Failed TypeError
  end.

(** [MuskLibrary.count_distinct_words] *)
Definition count_distinct_words (lib : MuskLibrary) (book_title : string)
  : answer Z :=
  temp <-- distinct_words lib book_title ;;
  len temp.

(** The loop [for i in range(len(self.distincts))] of [search_keyword];
    [slots] is [self.distincts[i:]]. *)
Fixpoint search_books (slots : list (option (list string))) (i : Z)
  (titles : list string) (keyword : string) (ans : list string)
  (mid : option Z) : answer (list string) :=
  match slots with
  | [] => Done ans
  | Some words :: rest =>
      r <-- binary_search words keyword mid ;;
      if fst r then
        title <-- lift (getitem titles i) ;;
        search_books rest (i + 1) titles keyword (ans ++ [title]) (snd r)
      else search_books rest (i + 1) titles keyword ans (snd r)
  | None :: _ => Failed TypeError   (* [len(None)] *)
  end.

(** [MuskLibrary.search_keyword] *)
Definition search_keyword (lib : MuskLibrary) (keyword : string)
  : answer (list string) :=
  search_books (distincts lib) 0 (book_titles lib) keyword [] None.

(** Adjacent elements strictly ascending in the order of [<] on strings. *)
Fixpoint ascending (l : list string) : bool :=
  match l with
  | a :: (b :: _) as rest => (a <? b)%string && ascending rest
  | _ => true
  end.

(** Every element of [merged] is strictly below every element of [rest]. *)
Definition precedes (merged rest : list string) : Prop :=
  forall m x, In m merged -> In x rest -> (m <? x)%string = true.

(** The state of [__init__] after the first [k] rounds of its loop: the
    titles are in place, and at the position of each of the first [k]
    titles given sit its text and the sorted distinct words of that text. *)
Definition filled (titles : list string) (given : list (list string))
  (sorted : list string) (k : nat) (lib : MuskLibrary) : Prop :=
  unsorted_books lib = titles /\
  book_titles lib = sorted /\
  length (texts lib) = length titles /\
  length (distincts lib) = length titles /\
  forall pos j title,
    sorted !! pos = Some title -> titles !! j = Some title -> (j < k)%nat ->
    exists text sd,
      given !! j = Some text /\
      texts lib !! pos = Some (Some text) /\
      distincts lib !! pos = Some (Some sd) /\
      ascending sd = true /\
      forall w, In w sd <-> In w text.

(** A library as [__init__] leaves it for pairwise distinct titles: the
    titles ascending, and beside each title its text and the ascending
    distinct words of the text. *)
Definition built (titles : list string) (given : list (list string))
  (lib : MuskLibrary) : Prop :=
  ascending (book_titles lib) = true /\
  (forall w, In w (book_titles lib) <-> In w titles) /\
  length (book_titles lib) = length titles /\
  length (distincts lib) = length titles /\
  forall pos title,
    book_titles lib !! pos = Some title ->
    exists j text sd,
      titles !! j = Some title /\
      given !! j = Some text /\
      texts lib !! pos = Some (Some text) /\
      distincts lib !! pos = Some (Some sd) /\
      ascending sd = true /\
      forall w, In w sd <-> In w text.

(** What the first [k] rounds of [__init__] leave whether or not titles
    repeat: the slots past the sorted titles untouched, every slot written
    ascending, and a written slot at the position of each title seen. *)
Definition marked (titles sorted : list string) (k : nat)
  (lib : MuskLibrary) : Prop :=
  unsorted_books lib = titles /\
  book_titles lib = sorted /\
  length (texts lib) = length titles /\
  length (distincts lib) = length titles /\
  (forall pos, (length sorted <= pos < length titles)%nat ->
     distincts lib !! pos = Some None) /\
  (forall pos sd, distincts lib !! pos = Some (Some sd) ->
     ascending sd = true) /\
  (forall j title, (j < k)%nat -> titles !! j = Some title ->
     exists pos sd,
       sorted !! pos = Some title /\ distincts lib !! pos = Some (Some sd)).

(** The titles whose slot of distinct words holds [keyword], in order. *)
Fixpoint holders (titles : list string) (slots : list (option (list string)))
  (keyword : string) : list string :=
  match titles, slots with
  | title :: titles', Some words :: slots' =>
      if existsb (String.eqb keyword) words
      then title :: holders titles' slots' keyword
      else holders titles' slots' keyword
  | _, _ => []
  end.

(** Three books for the examples. *)
Definition shelf_titles : list string := ["Walden"; "Emma"; "Ulysses"]%string.

Definition shelf_texts : list (list string) :=
  [["the"; "pond"; "the"; "woods"];
   ["a"; "match"; "a"; "the"];
   ["yes"; "the"; "yes"]]%string.

(** * Properties *)

(** ** Basic facts about the outcome monad and list indexing *)

Lemma bind_Ret {A B : Type} (m : outcome A) (k : A -> outcome B) (b : B) :
  bind m k = Ret b -> exists a, m = Ret a /\ k a = Ret b.
Proof. destruct m; simpl; intros H; try discriminate. eauto. Qed.

Lemma pymod_Ret (a b : Z) : b <> 0 -> pymod a b = Ret (a mod b).
Proof. intros H. unfold pymod. destruct (Z.eqb_spec b 0); congruence. Qed.

Lemma getitem_in_range {A : Type} (l : list A) (idx : Z) :
  0 <= idx < Z.of_nat (length l) ->
  exists a, getitem l idx = Ret a /\ l !! Z.to_nat idx = Some a.
Proof.
  intros H. unfold getitem.
  destruct (Z.ltb_spec idx 0); [lia|].
  destruct (Z.leb_spec 0 idx); [|lia].
  destruct (Z.ltb_spec idx (Z.of_nat (length l))); [|lia]. simpl.
  destruct (l !! Z.to_nat idx) as [a|] eqn:E; [eauto|].
  apply lookup_ge_None in E. lia.
Qed.

Lemma getitem_Ret_lookup {A : Type} (l : list A) (idx : Z) (a : A) :
  getitem l idx = Ret a -> exists i, l !! i = Some a.
Proof.
  unfold getitem. destruct (_ && _); [|discriminate].
  destruct (l !! _) eqn:E; intros H; inversion H; subst. eauto.
Qed.

Lemma setitem_in_range {A : Type} (l : list A) (idx : Z) (a : A) :
  0 <= idx < Z.of_nat (length l) ->
  setitem l idx a = Ret (<[ Z.to_nat idx := a ]> l).
Proof.
  intros H. unfold setitem.
  destruct (Z.ltb_spec idx 0); [lia|].
  destruct (Z.leb_spec 0 idx); [|lia].
  destruct (Z.ltb_spec idx (Z.of_nat (length l))); [|lia]. reflexivity.
Qed.

(** ** Indexing a key *)

Lemma get_nth_error (key : string) (i : nat) :
  String.get i key = nth_error (chars key) i.
Proof.
  revert i. induction key as [|c key IH]; intros [|i]; simpl; auto.
Qed.

Lemma chars_length (key : string) : length (chars key) = String.length key.
Proof. induction key; simpl; auto. Qed.

Lemma firstn_snoc (l : list ascii) (i : nat) (c : ascii) :
  nth_error l i = Some c -> firstn (S i) l = firstn i l ++ [c].
Proof.
  revert i. induction l as [|d l IH]; intros [|i] H; simpl in *;
    try discriminate.
  - inversion H; reflexivity.
  - f_equal. apply IH, H.
Qed.

(** The loop over indices [n-1 .. 0] is a fold over the first [n]
    characters taken in reverse. *)
Lemma get_slot_loop_fold (zz size : Z) (key : string) (n : nat) (poly : Z) :
  size <> 0 -> (n <= String.length key)%nat ->
  get_slot_loop zz size key n poly =
  Ret (fold_left (fun acc c => (acc * zz + char_value c) mod size)
         (List.rev (firstn n (chars key))) poly).
Proof.
  intros Hs. revert poly. induction n as [|i IH]; intros poly Hn.
  - reflexivity.
  - simpl get_slot_loop. rewrite get_nth_error.
    destruct (nth_error (chars key) i) as [c|] eqn:E.
    + rewrite pymod_Ret by assumption. simpl bind.
      rewrite IH by lia. rewrite (firstn_snoc _ _ _ E).
      rewrite rev_app_distr. reflexivity.
    + apply nth_error_None in E. rewrite chars_length in E. lia.
Qed.

Lemma step_loop_fold (zz : Z) (key : string) (n : nat) (step : Z) :
  (n <= String.length key)%nat ->
  step_loop zz key n step =
  Ret (fold_left (fun acc c => acc * zz + char_value c)
         (List.rev (firstn n (chars key))) step).
Proof.
  revert step. induction n as [|i IH]; intros step Hn.
  - reflexivity.
  - simpl step_loop. rewrite get_nth_error.
    destruct (nth_error (chars key) i) as [c|] eqn:E.
    + rewrite IH by lia. rewrite (firstn_snoc _ _ _ E).
      rewrite rev_app_distr. reflexivity.
    + apply nth_error_None in E. rewrite chars_length in E. lia.
Qed.

(** On a letter the code's [value] is the rank in the alphabet. *)
Lemma char_value_letter (c : ascii) :
  is_ascii_letter c = true -> char_value c = letter_value c.
Proof.
  destruct c as [[] [] [] [] [] [] [] []]; vm_compute; congruence.
Qed.

Lemma letter_value_range (c : ascii) :
  is_ascii_letter c = true ->
  (islower c = true -> 0 <= letter_value c <= 25) /\
  (islower c = false -> 26 <= letter_value c <= 51).
Proof.
  destruct c as [[] [] [] [] [] [] [] []]; vm_compute;
    intros H; try discriminate H; split; intros H1;
    try discriminate H1; split; discriminate.
Qed.

Lemma fold_letters (f : Z -> Z -> Z) (l : list ascii) (acc : Z) :
  forallb is_ascii_letter l = true ->
  fold_left (fun a c => f a (char_value c)) l acc =
  fold_left (fun a c => f a (letter_value c)) l acc.
Proof.
  revert acc. induction l as [|c l IH]; intros acc H; simpl in *.
  - reflexivity.
  - apply andb_prop in H as [Hc Hl].
    rewrite (char_value_letter c Hc). apply IH, Hl.
Qed.

Lemma letters_rev (key : string) :
  ascii_letters key = true ->
  forallb is_ascii_letter (List.rev (chars key)) = true.
Proof.
  unfold ascii_letters. rewrite !forallb_forall. intros H c Hc.
  apply H. apply in_rev. exact Hc.
Qed.

Lemma get_slot_Ret (t : HashTable) (key : string) :
  table_size t <> 0 ->
  get_slot t key =
  Ret (fold_left (fun acc c => (acc * z t + char_value c) mod table_size t)
         (List.rev (chars key)) 0 mod table_size t).
Proof.
  intros Hs. unfold get_slot.
  rewrite get_slot_loop_fold by auto.
  simpl bind. rewrite pymod_Ret by assumption.
  rewrite <- chars_length, firstn_all. reflexivity.
Qed.

Lemma secondary_step_Ret (t : HashTable) (key : string) :
  c2 t <> 0 ->
  secondary_step t key =
  Ret (c2 t - fold_left (fun acc c => acc * z2 t + char_value c)
                 (List.rev (chars key)) 0 mod c2 t).
Proof.
  intros Hc. unfold secondary_step.
  rewrite step_loop_fold by auto.
  simpl bind. rewrite pymod_Ret by assumption.
  rewrite <- chars_length, firstn_all. reflexivity.
Qed.

Lemma secondary_step_zero (t : HashTable) (key : string) :
  c2 t = 0 -> secondary_step t key = Raise ZeroDivisionError.
Proof.
  intros Hc. unfold secondary_step.
  rewrite step_loop_fold by auto. simpl bind.
  unfold pymod. rewrite Hc. reflexivity.
Qed.

Lemma get_slot_range (t : HashTable) (key : string) :
  1 <= table_size t ->
  exists idx, get_slot t key = Ret idx /\ 0 <= idx < table_size t.
Proof.
  intros Hs. rewrite get_slot_Ret by lia.
  eexists; split; [reflexivity|]. apply Z.mod_pos_bound. lia.
Qed.

(** ** The primary hash *)

(** C6: on a key of ASCII letters [get_slot] returns the slot the
    specification describes: the characters are taken from last to first,
    the accumulator is updated as [poly = (poly * z + value) mod size] with
    lowercase letters valued 0..25 and uppercase letters 26..51, and the
    final accumulator is reduced again modulo the size. *)
Theorem get_slot_is_spec_slot (t : HashTable) (key : string) :
  ascii_letters key = true ->
  table_size t <> 0 ->
  get_slot t key = Ret (spec_slot (z t) (table_size t) key).
Proof.
  intros Hk Hs. rewrite get_slot_Ret by assumption.
  unfold spec_slot, accumulate. do 2 f_equal.
  apply (fold_letters (fun poly v => (poly * z t + v) mod table_size t)).
  apply letters_rev, Hk.
Qed.

Lemma get_slot_is_spec_slot_witness :
  get_slot chain_set_29 "cat" = Ret (spec_slot 31 29 "cat").
Proof.
  apply (get_slot_is_spec_slot chain_set_29 "cat").
  - reflexivity.
  - simpl. lia.
Defined.

(** ** The secondary step *)

Lemma spec_step_range (zz cc : Z) (key : string) :
  1 <= cc -> 1 <= spec_step zz cc key <= cc.
Proof.
  intros Hc. unfold spec_step.
  pose proof (Z.mod_pos_bound
    (accumulate (fun acc v => acc * zz + v) key) cc ltac:(lia)). lia.
Qed.

Lemma secondary_step_letters (t : HashTable) (key : string) :
  c2 t <> 0 -> ascii_letters key = true ->
  secondary_step t key = Ret (spec_step (z2 t) (c2 t) key).
Proof.
  intros Hc Hk. rewrite secondary_step_Ret by assumption.
  unfold spec_step, accumulate. do 3 f_equal.
  apply (fold_letters (fun acc v => acc * z2 t + v)).
  apply letters_rev, Hk.
Qed.

(** C7: on a "Double" table with [c2 >= 1] and a key of ASCII letters, the
    step computed by the secondary hash is [c2 - (A mod c2)], where [A]
    accumulates the character values from last to first with multiplier
    [z2] and no reduction; it lies in [1, c2]; and it is the step by which
    both the loop of [find] and the loop of [insert] advance. *)
Theorem secondary_step_is_spec_step (t : HashTable) (c : list (option entry))
  (x : entry) :
  collision_type t = Double ->
  table t = Cells c ->
  1 <= c2 t ->
  ascii_letters (key_of x) = true ->
  let key := key_of x in
  let step := spec_step (z2 t) (c2 t) key in
  secondary_step t key = Ret step /\
  1 <= step <= c2 t /\
  (forall fuel,
     find_fuel fuel t key =
     (idx <- get_slot t key ;; find_loop fuel t c key step idx idx)) /\
  (forall fuel,
     insert_fuel fuel t x =
     (found <- find_fuel fuel t key ;;
      if truthy found then Ret t
      else idx <- get_slot t key ;;
           r <- insert_loop fuel t c step idx idx ;;
           place t c x r)).
Proof.
  intros Hct Htb Hc Hk key step.
  assert (Hs : secondary_step t key = Ret step)
    by (apply secondary_step_letters; [lia | exact Hk]).
  split; [exact Hs|]. split; [apply spec_step_range; exact Hc|].
  split; intros fuel.
  - unfold find_fuel. rewrite Hct, Htb. fold key. rewrite Hs. reflexivity.
  - unfold insert_fuel. rewrite Hct, Htb. fold key. rewrite Hs. reflexivity.
Qed.

Lemma secondary_step_is_spec_step_witness :
  secondary_step double_map_29 "key" = Ret (spec_step 37 17 "key") /\
  1 <= spec_step 37 17 "key" <= 17.
Proof.
  pose proof (secondary_step_is_spec_step double_map_29
                (replicate 29 None) (Pair "key" (VStr "v"))
                eq_refl eq_refl ltac:(simpl; lia) eq_refl) as H.
  simpl in H. destruct H as (H1 & H2 & _). split; [exact H1 | exact H2].
Defined.

(** ** The probe sequence closes within [size] steps *)

Section Probe.

Variable t : HashTable.
Variable c : list (option entry).
Variables step orig_idx : Z.

Hypothesis size_pos : 1 <= table_size t.
Hypothesis c_len : Z.of_nat (length c) = table_size t.
Hypothesis orig_range : 0 <= orig_idx < table_size t.

Local Abbreviation probe := (probe_at t step orig_idx).

Lemma probe_range (k : nat) : 0 <= probe k < Z.of_nat (length c).
Proof. rewrite c_len. apply Z.mod_pos_bound. lia. Qed.

Lemma probe_next (k : nat) :
  pymod (probe k + step) (table_size t) = Ret (probe (S k)).
Proof.
  rewrite pymod_Ret by lia. unfold probe_at. f_equal.
  rewrite Z.add_mod_idemp_l by lia. f_equal. lia.
Qed.

(** After [size] advances the probe is back where it started. *)
Lemma probe_closes : probe (Z.to_nat (table_size t)) = orig_idx.
Proof.
  unfold probe_at. rewrite Z2Nat.id by lia.
  rewrite (Z.mul_comm (table_size t)), Z.mod_add by lia. apply Z.mod_small, orig_range.
Qed.

(** The loop of [find] returns within the budget of one iteration per
    slot. *)
Lemma find_loop_returns (key : string) (fuel k : nat) :
  (fuel + k = Z.to_nat (table_size t))%nat -> (1 <= fuel)%nat ->
  exists v, find_loop fuel t c key step orig_idx (probe k) = Ret v.
Proof.
  revert k. induction fuel as [|fuel IH]; intros k Hk Hf; [lia|].
  simpl find_loop.
  destruct (getitem_in_range c (probe k) (probe_range k)) as (s & Hs & _).
  rewrite Hs. simpl bind.
  destruct (slot_truthy s); [|eauto].
  destruct s as [item|]; [|eauto].
  destruct (item_matches item key); [eauto|].
  rewrite probe_next. simpl bind.
  destruct (Z.eqb_spec orig_idx (probe (S k))) as [|Hne]; [eauto|].
  apply IH; [lia|].
  destruct fuel; [|lia].
  exfalso. apply Hne. symmetry.
  replace (S k) with (Z.to_nat (table_size t)) by lia. apply probe_closes.
Qed.

(** The loop of [insert] returns within the same budget, and the slot
    it returns is in range and vacant. *)
Lemma insert_loop_returns (fuel k : nat) :
  (fuel + k = Z.to_nat (table_size t))%nat -> (1 <= fuel)%nat ->
  exists r, insert_loop fuel t c step orig_idx (probe k) = Ret r /\
    match r with
    | None => True
    | Some idx =>
        0 <= idx < table_size t /\ c !! Z.to_nat idx = Some None
    end.
Proof.
  revert k. induction fuel as [|fuel IH]; intros k Hk Hf; [lia|].
  simpl insert_loop.
  destruct (getitem_in_range c (probe k) (probe_range k)) as (s & Hs & Hl).
  rewrite Hs. simpl bind.
  destruct s as [item|]; simpl is_None.
  - rewrite probe_next. simpl bind.
    destruct (Z.eqb_spec (probe (S k)) orig_idx) as [|Hne];
      [exists None; auto|].
    apply IH; [lia|].
    destruct fuel; [|lia].
    exfalso. apply Hne.
    replace (S k) with (Z.to_nat (table_size t)) by lia. apply probe_closes.
  - exists (Some (probe k)). split; [reflexivity|].
    split; [|exact Hl]. rewrite <- c_len. apply probe_range.
Qed.

Lemma probe_start : probe 0 = orig_idx.
Proof. unfold probe_at. simpl. rewrite Z.add_0_r. apply Z.mod_small, orig_range. Qed.

Lemma find_loop_budget (key : string) :
  exists v, find_loop (budget t) t c key step orig_idx orig_idx = Ret v.
Proof.
  pose proof (find_loop_returns key (budget t) 0) as H.
  rewrite probe_start in H. apply H; unfold budget; lia.
Qed.

Lemma insert_loop_budget :
  exists r, insert_loop (budget t) t c step orig_idx orig_idx = Ret r /\
    match r with
    | None => True
    | Some idx =>
        0 <= idx < table_size t /\ c !! Z.to_nat idx = Some None
    end.
Proof.
  pose proof (insert_loop_returns (budget t) 0) as H.
  rewrite probe_start in H. apply H; unfold budget; lia.
Qed.


End Probe.

(** ** How a call of [find] or [insert] can end *)

Lemma sized_len (t : HashTable) :
  sized t = true -> Z.of_nat (slots_len (table t)) = table_size t.
Proof. unfold sized. intros H. apply Z.eqb_eq, H. Qed.

Lemma find_cases (t : HashTable) (key : string) :
  sized t = true -> 1 <= table_size t ->
  (exists v, find t key = Ret v) \/
  (shaped t = false /\ find t key = Raise TypeError) \/
  (collision_type t = Double /\ c2 t = 0 /\
   find t key = Raise ZeroDivisionError).
Proof.
  intros Hsz Hpos. apply sized_len in Hsz.
  unfold find, find_fuel, shaped.
  destruct (get_slot_range t key Hpos) as (idx & Hidx & Hr).
  rewrite Hidx. simpl bind.
  destruct (collision_type t) eqn:Hct, (table t) as [b|c] eqn:Htb;
    simpl in Hsz; auto.
  - destruct (getitem_in_range b idx ltac:(lia)) as (items & Hi & _).
    rewrite Hi. simpl. eauto.
  - left. apply find_loop_budget; auto.
  - destruct (Z.eq_dec (c2 t) 0) as [Hc|Hc].
    + rewrite secondary_step_zero by assumption. auto.
    + rewrite secondary_step_Ret by assumption. simpl bind.
      left. apply find_loop_budget; auto.
Qed.

Lemma place_returns (t : HashTable) (c : list (option entry)) (x : entry)
  (r : option Z) :
  Z.of_nat (length c) = table_size t ->
  match r with
  | None => True
  | Some idx => 0 <= idx < table_size t /\ c !! Z.to_nat idx = Some None
  end ->
  exists t', place t c x r = Ret t'.
Proof.
  intros Hlen Hr. destruct r as [idx|]; simpl; [|eauto].
  unfold store. rewrite setitem_in_range by lia. simpl. eauto.
Qed.

Lemma insert_cases (t : HashTable) (x : entry) :
  sized t = true -> 1 <= table_size t ->
  (exists t', base_insert t x = Ret t') \/
  (shaped t = false /\ base_insert t x = Raise TypeError) \/
  (collision_type t = Double /\ c2 t = 0 /\
   base_insert t x = Raise ZeroDivisionError).
Proof.
  intros Hsz Hpos. unfold base_insert, insert_fuel.
  fold (find t (key_of x)).
  destruct (find_cases t (key_of x) Hsz Hpos)
    as [[v Hv] | [[Hsh Hf] | (Hd & Hc & Hf)]];
    [| rewrite Hf; simpl; auto | rewrite Hf; simpl; auto].
  rewrite Hv. simpl bind. destruct (truthy v); [eauto|].
  apply sized_len in Hsz. unfold shaped.
  destruct (get_slot_range t (key_of x) Hpos) as (idx & Hidx & Hr).
  rewrite Hidx. simpl bind.
  destruct (collision_type t) eqn:Hct, (table t) as [b|c] eqn:Htb;
    simpl in Hsz; auto.
  - destruct (getitem_in_range b idx ltac:(lia)) as (items & Hi & _).
    rewrite Hi. simpl bind. rewrite setitem_in_range by lia. simpl. eauto.
  - destruct (insert_loop_budget t c 1 idx Hpos Hsz Hr) as (r & Hl & Hp).
    rewrite Hl. simpl bind. left. apply place_returns; auto.
  - destruct (Z.eq_dec (c2 t) 0) as [Hc|Hc].
    + rewrite secondary_step_zero by assumption. auto.
    + rewrite secondary_step_Ret by assumption. simpl bind.
      match goal with
      | |- context [insert_loop _ _ _ ?s _ _] =>
          destruct (insert_loop_budget t c s idx Hpos Hsz Hr) as (r & Hl & Hp)
      end.
      rewrite Hl. simpl bind. left. apply place_returns; auto.
Qed.

(** ** More budget changes nothing *)

Lemma find_loop_mono (t : HashTable) (c : list (option entry)) (key : string)
  (step orig_idx : Z) (fuel fuel' : nat) (idx : Z) :
  (fuel <= fuel')%nat ->
  find_loop fuel t c key step orig_idx idx <> Exhausted ->
  find_loop fuel' t c key step orig_idx idx =
  find_loop fuel t c key step orig_idx idx.
Proof.
  revert fuel' idx. induction fuel as [|fuel IH]; intros fuel' idx Hle H.
  - simpl in H. congruence.
  - destruct fuel' as [|fuel']; [lia|]. simpl in *.
    destruct (getitem c idx) as [s| |]; simpl in *; auto.
    destruct (slot_truthy s); auto. destruct s as [item|]; auto.
    destruct (item_matches item key); auto.
    destruct (pymod (idx + step) (table_size t)) as [idx'| |]; simpl in *; auto.
    destruct (orig_idx =? idx'); auto. apply IH; [lia | exact H].
Qed.

Lemma insert_loop_mono (t : HashTable) (c : list (option entry))
  (step orig_idx : Z) (fuel fuel' : nat) (idx : Z) :
  (fuel <= fuel')%nat ->
  insert_loop fuel t c step orig_idx idx <> Exhausted ->
  insert_loop fuel' t c step orig_idx idx =
  insert_loop fuel t c step orig_idx idx.
Proof.
  revert fuel' idx. induction fuel as [|fuel IH]; intros fuel' idx Hle H.
  - simpl in H. congruence.
  - destruct fuel' as [|fuel']; [lia|]. simpl in *.
    destruct (getitem c idx) as [s| |]; simpl in *; auto.
    destruct (is_None s); auto.
    destruct (pymod (idx + step) (table_size t)) as [idx'| |]; simpl in *; auto.
    destruct (idx' =? orig_idx); auto. apply IH; [lia | exact H].
Qed.

Lemma find_fuel_mono (t : HashTable) (key : string) (fuel fuel' : nat) :
  (fuel <= fuel')%nat ->
  find_fuel fuel t key <> Exhausted ->
  find_fuel fuel' t key = find_fuel fuel t key.
Proof.
  intros Hle. unfold find_fuel.
  destruct (get_slot t key) as [idx| |]; simpl; auto.
  destruct (collision_type t), (table t) as [b|c]; auto.
  - apply find_loop_mono, Hle.
  - destruct (secondary_step t key) as [s| |]; simpl; auto.
    apply find_loop_mono, Hle.
Qed.

Lemma insert_fuel_mono (t : HashTable) (x : entry) (fuel fuel' : nat) :
  (fuel <= fuel')%nat ->
  insert_fuel fuel t x <> Exhausted ->
  insert_fuel fuel' t x = insert_fuel fuel t x.
Proof.
  intros Hle. unfold insert_fuel. intros H.
  assert (Hf : find_fuel fuel t (key_of x) <> Exhausted)
    by (intros E; rewrite E in H; apply H; reflexivity).
  rewrite (find_fuel_mono _ _ _ _ Hle Hf).
  destruct (find_fuel fuel t (key_of x)) as [v| |]; simpl in *; auto.
  destruct (truthy v); auto.
  destruct (get_slot t (key_of x)) as [idx| |]; simpl in *; auto.
  destruct (collision_type t), (table t) as [b|c]; auto.
  - assert (Hl : insert_loop fuel t c 1 idx idx <> Exhausted)
      by (intros E; rewrite E in H; apply H; reflexivity).
    rewrite (insert_loop_mono _ _ _ _ _ _ _ Hle Hl). reflexivity.
  - destruct (secondary_step t (key_of x)) as [s| |]; simpl in *; auto.
    assert (Hl : insert_loop fuel t c s idx idx <> Exhausted)
      by (intros E; rewrite E in H; apply H; reflexivity).
    rewrite (insert_loop_mono _ _ _ _ _ _ _ Hle Hl). reflexivity.
Qed.

(** ** Insert on a full probing table *)

Lemma well_formed_parts (t : HashTable) :
  well_formed t = true ->
  shaped t = true /\ sized t = true /\ 1 <= table_size t /\
  (collision_type t = Double -> c2 t <> 0).
Proof.
  unfold well_formed. intros H.
  apply andb_prop in H as [H Hc]. apply andb_prop in H as [H Hp].
  apply andb_prop in H as [Hsh Hsz]. apply Z.leb_le in Hp.
  repeat split; auto.
  intros Hd. rewrite Hd in Hc. intros E. rewrite E in Hc. discriminate.
Qed.

Lemma find_returns (t : HashTable) (key : string) :
  well_formed t = true -> exists v, find t key = Ret v.
Proof.
  intros Hwf. apply well_formed_parts in Hwf as (Hsh & Hsz & Hpos & Hc).
  destruct (find_cases t key Hsz Hpos) as [H | [[E _] | (Hd & Hz & _)]].
  - exact H.
  - congruence.
  - exfalso. apply (Hc Hd Hz).
Qed.



(** ** Termination of the probe loops *)

Lemma budget_size (t : HashTable) :
  1 <= table_size t -> budget t = Z.to_nat (table_size t).
Proof. intros H. unfold budget. f_equal. lia. Qed.

Lemma vacant_size (t : HashTable) :
  sized t = true -> has_vacant t = true -> 1 <= table_size t.
Proof.
  intros Hsz Hv. apply sized_len in Hsz.
  unfold has_vacant, cells in Hv.
  destruct (table t) as [b|c]; simpl in *; [discriminate|].
  destruct c; simpl in *; [discriminate | lia].
Qed.

Lemma find_within_budget (t : HashTable) (key : string) :
  sized t = true -> 1 <= table_size t -> find t key <> Exhausted.
Proof.
  intros Hsz Hpos.
  destruct (find_cases t key Hsz Hpos) as [[v H] | [[_ H] | (_ & _ & H)]];
    rewrite H; discriminate.
Qed.

Lemma insert_within_budget (t : HashTable) (x : entry) :
  sized t = true -> 1 <= table_size t -> base_insert t x <> Exhausted.
Proof.
  intros Hsz Hpos.
  destruct (insert_cases t x Hsz Hpos) as [[v H] | [[_ H] | (_ & _ & H)]];
    rewrite H; discriminate.
Qed.

(** C9: on a "Linear" or "Double" table with a vacant slot, [find] and
    [insert] terminate, and each probe loop does so within [size]
    iterations: the budget of [size] iterations is never used up, and a
    larger budget gives the same outcome. *)
Theorem probing_terminates_within_size (t : HashTable) (key : string)
  (x : entry) :
  probing t = true ->
  sized t = true ->
  has_vacant t = true ->
  find_fuel (Z.to_nat (table_size t)) t key <> Exhausted /\
  insert_fuel (Z.to_nat (table_size t)) t x <> Exhausted /\
  forall fuel, (Z.to_nat (table_size t) <= fuel)%nat ->
    find_fuel fuel t key = find_fuel (Z.to_nat (table_size t)) t key /\
    insert_fuel fuel t x = insert_fuel (Z.to_nat (table_size t)) t x.
Proof.
  intros _ Hsz Hv. pose proof (vacant_size t Hsz Hv) as Hpos.
  pose proof (find_within_budget t key Hsz Hpos) as Hf.
  pose proof (insert_within_budget t x Hsz Hpos) as Hi.
  unfold find, base_insert in Hf, Hi.
  rewrite (budget_size t Hpos) in Hf, Hi.
  split; [exact Hf|]. split; [exact Hi|].
  intros fuel Hle. split.
  - apply find_fuel_mono; assumption.
  - apply insert_fuel_mono; assumption.
Qed.

Lemma probing_terminates_within_size_witness :
  find_fuel 3 linear_set_3 "dog" <> Exhausted /\
  insert_fuel 3 linear_set_3 (Key "dog") <> Exhausted.
Proof.
  destruct (probing_terminates_within_size linear_set_3 "dog" (Key "dog")
              eq_refl eq_refl eq_refl) as (H1 & H2 & _).
  split; [exact H1 | exact H2].
Defined.

(** ** Slot accesses stay in bounds *)

(** C10: with [size >= 1], [get_slot] returns an integer in [0, size) for
    any key; hence, on a table whose array has [size] slots, no access of
    [find] or of [insert] to the array raises [IndexError]. *)
Theorem get_slot_in_bounds (t : HashTable) (key : string) (x : entry) :
  1 <= table_size t ->
  (exists idx, get_slot t key = Ret idx /\ 0 <= idx < table_size t) /\
  (sized t = true ->
   find t key <> Raise IndexError /\ base_insert t x <> Raise IndexError).
Proof.
  intros Hpos. split; [apply get_slot_range, Hpos|].
  intros Hsz. split.
  - destruct (find_cases t key Hsz Hpos) as [[v H] | [[_ H] | (_ & _ & H)]];
      rewrite H; discriminate.
  - destruct (insert_cases t x Hsz Hpos) as [[v H] | [[_ H] | (_ & _ & H)]];
      rewrite H; discriminate.
Qed.

Lemma get_slot_in_bounds_witness :
  exists idx, get_slot chain_set_29 "Hello, world" = Ret idx /\ 0 <= idx < 29.
Proof.
  apply (get_slot_in_bounds chain_set_29 "Hello, world" (Key "x")).
  simpl. lia.
Defined.

(** ** What [insert] does to the object when it returns *)

Lemma getitem_setitem {A : Type} (l : list A) (idx : Z) (a b : A) :
  getitem l idx = Ret a ->
  exists i, l !! i = Some a /\ setitem l idx b = Ret (<[ i := b ]> l).
Proof.
  unfold getitem, setitem.
  destruct (_ && _); [|discriminate].
  destruct (l !! _) eqn:E; intros H; inversion H; subst. eauto.
Qed.

Lemma insert_loop_vacant (t : HashTable) (c : list (option entry))
  (step orig_idx : Z) (fuel : nat) (idx i : Z) :
  insert_loop fuel t c step orig_idx idx = Ret (Some i) ->
  getitem c i = Ret None.
Proof.
  revert idx. induction fuel as [|fuel IH]; intros idx H; simpl in H;
    [discriminate|].
  destruct (getitem c idx) as [s| |] eqn:E; simpl in H; try discriminate.
  destruct s as [item|]; simpl in H.
  - destruct (pymod (idx + step) (table_size t)) as [idx'| |];
      simpl in H; try discriminate.
    destruct (idx' =? orig_idx); [discriminate|]. eapply IH, H.
  - inversion H; subst. exact E.
Qed.

(** A returning [insert] leaves the object alone, or appends the element
    to one bucket, or writes it into one vacant cell; in the last two
    cases it adds one to [total_elements]. *)
Lemma insert_fuel_Ret (fuel : nat) (t t' : HashTable) (x : entry) :
  insert_fuel fuel t x = Ret t' ->
  t' = t \/
  (exists b i items,
     collision_type t = Chain /\ table t = Buckets b /\
     b !! i = Some items /\
     t' = with_table t (Buckets (<[ i := items ++ [x] ]> b))
            (total_elements t + 1)) \/
  (exists c i,
     probing t = true /\ table t = Cells c /\ c !! i = Some None /\
     t' = with_table t (Cells (<[ i := Some x ]> c)) (total_elements t + 1)).
Proof.
  unfold insert_fuel. intros H.
  apply bind_Ret in H as (found & _ & H).
  destruct (truthy found); [inversion H; auto|].
  apply bind_Ret in H as (idx & _ & H).
  assert (Hplace : forall c r, probing t = true -> table t = Cells c ->
            (forall i, r = Some i -> getitem c i = Ret None) ->
            place t c x r = Ret t' ->
            t' = t \/
            exists c0 i, probing t = true /\ table t = Cells c0 /\
              c0 !! i = Some None /\
              t' = with_table t (Cells (<[ i := Some x ]> c0))
                     (total_elements t + 1)).
  { intros c [i|] Hp Htb Hv Hpl; simpl in Hpl; [|inversion Hpl; auto].
    right. unfold store in Hpl.
    destruct (getitem_setitem c i None (Some x) (Hv i eq_refl))
      as (j & Hj & Hset).
    rewrite Hset in Hpl. simpl in Hpl. inversion Hpl; subst.
    exists c, j. auto. }
  destruct (collision_type t) eqn:Hct, (table t) as [b|c] eqn:Htb;
    try discriminate.
  - apply bind_Ret in H as (items & Hi & H).
    destruct (getitem_setitem b idx items (items ++ [x]) Hi) as (j & Hj & Hs).
    rewrite Hs in H. simpl in H. inversion H; subst.
    right; left. exists b, j, items. auto.
  - apply bind_Ret in H as (r & Hl & H).
    assert (Hp : probing t = true)
      by (unfold probing; rewrite Hct; reflexivity).
    assert (Hv : forall i, r = Some i -> getitem c i = Ret None)
      by (intros i ->; eapply insert_loop_vacant, Hl).
    destruct (Hplace c r Hp eq_refl Hv H) as [E | E]; auto.
  - apply bind_Ret in H as (s & _ & H).
    apply bind_Ret in H as (r & Hl & H).
    assert (Hp : probing t = true)
      by (unfold probing; rewrite Hct; reflexivity).
    assert (Hv : forall i, r = Some i -> getitem c i = Ret None)
      by (intros i ->; eapply insert_loop_vacant, Hl).
    destruct (Hplace c r Hp eq_refl Hv H) as [E | E]; auto.
Qed.

(** ** Consistency is kept *)

Lemma concat_append_length (b : list (list entry)) (i : nat)
  (items : list entry) (x : entry) :
  b !! i = Some items ->
  length (concat (<[ i := items ++ [x] ]> b)) = S (length (concat b)).
Proof.
  revert i. induction b as [|l b IH]; intros [|i] H; simpl in *;
    try discriminate.
  - inversion H; subst. rewrite !length_app. simpl. lia.
  - rewrite !length_app. rewrite (IH i H). lia.
Qed.

Lemma occupants_fill_length (c : list (option entry)) (i : nat) (x : entry) :
  c !! i = Some None ->
  length (occupants (<[ i := Some x ]> c)) = S (length (occupants c)).
Proof.
  revert i. induction c as [|s c IH]; intros [|i] H; simpl in *;
    try discriminate.
  - inversion H; subst. reflexivity.
  - destruct s; simpl; rewrite (IH i H); reflexivity.
Qed.

Lemma occupants_length_le (c : list (option entry)) :
  (length (occupants c) <= length c)%nat.
Proof. induction c as [|[e|] c IH]; simpl; lia. Qed.

Lemma fresh_entries (ct : strategy) (size : Z) :
  match fresh ct size with
  | Buckets b => concat b
  | Cells c => occupants c
  end = [].
Proof.
  unfold fresh. destruct ct; induction (Z.to_nat size); simpl; auto.
Qed.

Lemma fresh_len (ct : strategy) (size : Z) :
  slots_len (fresh ct size) = Z.to_nat size.
Proof. unfold fresh. destruct ct; simpl; apply length_replicate. Qed.

Lemma base_insert_consistent (fuel : nat) (t t' : HashTable) (x : entry) :
  insert_fuel fuel t x = Ret t' -> consistent t -> consistent t'.
Proof.
  intros H (Hsh & Hlen & Hc).
  apply insert_fuel_Ret in H
    as [-> | [(b & i & items & Hct & Htb & Hi & ->)
             | (c & i & Hp & Htb & Hi & ->)]].
  - repeat split; tauto.
  - unfold consistent, shaped, entries in *. simpl.
    rewrite Hct, Htb in *. simpl in *.
    rewrite length_insert, concat_append_length by exact Hi.
    repeat split; auto; lia.
  - unfold consistent, shaped, entries, probing in *. simpl.
    rewrite Htb in *. simpl in *.
    rewrite length_insert, occupants_fill_length by exact Hi.
    repeat split; auto; lia.
Qed.

Section Keeps.

Variable P : HashTable -> Prop.

Local Abbreviation keeps := (keeps P).

Lemma keeps_mret {A : Type} (a : A) : keeps (mret a).
Proof. intros w H. exact H. Qed.

Lemma keeps_raise {A : Type} (e : exn) : keeps (@raise A e).
Proof. intros w H. exact H. Qed.

Lemma keeps_reading {A : Type} (f : HashTable -> outcome A) :
  keeps (reading f).
Proof. intros w H. exact H. Qed.

Lemma keeps_mbind {A B : Type} (m : M A) (k : A -> M B) :
  keeps m -> (forall a, keeps (k a)) -> keeps (mbind m k).
Proof.
  intros Hm Hk w H. unfold mbind. specialize (Hm w H).
  destruct (m w) as [[a| |] w']; simpl in *; auto.
  apply Hk, Hm.
Qed.

Lemma keeps_updating (f : HashTable -> outcome HashTable) :
  (forall t t', f t = Ret t' -> P t -> P t') -> keeps (updating f).
Proof.
  intros Hf w H. unfold updating.
  destruct (f (self w)) as [t'| |] eqn:E; simpl; eauto.
Qed.

Lemma keeps_get_next_size : keeps get_next_size.
Proof.
  intros w H. unfold get_next_size.
  destruct (List.rev (prime_sizes w)); simpl; exact H.
Qed.

Lemma keeps_for_each (l : list entry) (body : entry -> M unit) :
  (forall x, keeps (body x)) -> keeps (for_each l body).
Proof.
  intros Hb. induction l as [|x l IH]; simpl.
  - apply keeps_mret.
  - apply keeps_mbind; auto.
Qed.

End Keeps.

Lemma init_consistent (ct : strategy) (params : list Z) (w : world) :
  (consistent (self w) /\ ct = collision_type (self w)) \/
  fst (init ct params w) = Ret tt ->
  consistent (self (snd (init ct params w))).
Proof.
  intros H. unfold init in *.
  assert (Hnew : forall a b c d,
            consistent (mkTable (cls (self w)) ct a b c d 0 (fresh ct d))).
  { intros a b c d. unfold consistent, shaped, entries. simpl.
    rewrite fresh_len, fresh_entries. simpl.
    repeat split; try lia. destruct ct; reflexivity. }
  assert (Hold : consistent (self w) /\ ct = collision_type (self w) ->
            consistent (mkTable (cls (self w)) ct (z (self w)) (z2 (self w))
                          (c2 (self w)) (table_size (self w)) 0
                          (table (self w)))).
  { intros ((Hsh & Hlen & Hc) & ->).
    unfold consistent, shaped, entries in *. simpl. repeat split; auto; lia. }
  destruct ct.
  - destruct (a <- param params 0;; d <- param params 1;; Ret (a, d))
      as [[a d]| |]; simpl in *; auto;
      destruct H as [H | H]; auto; discriminate.
  - destruct (a <- param params 0;; d <- param params 1;; Ret (a, d))
      as [[a d]| |]; simpl in *; auto;
      destruct H as [H | H]; auto; discriminate.
  - destruct (a <- param params 0;; b <- param params 1;;
              c <- param params 2;; d <- param params 3;; Ret (a, b, c, d))
      as [[[[a b] c] d]| |]; simpl in *; auto;
      destruct H as [H | H]; auto; discriminate.
Qed.

Lemma new_consistent (c : klass) (ct : strategy) (params : list Z)
  (t : HashTable) :
  new c ct params = Ret t -> consistent t.
Proof.
  unfold new. intros H.
  pose proof (init_consistent ct params (mkWorld (blank c) [])) as Hi.
  destruct (init ct params (mkWorld (blank c) [])) as [[[]| |] w];
    inversion H; subst.
  apply Hi. right. reflexivity.
Qed.

Lemma rehash_consistent (body : entry -> M unit) :
  (forall x, keeps consistent (body x)) -> keeps consistent (rehash body).
Proof.
  intros Hb w H. unfold rehash.
  assert (Hbase : consistent (self (snd (rehash_base body w)))).
  { revert w H. apply keeps_mbind; [apply keeps_get_next_size|]. intros p.
    apply keeps_mbind; [apply keeps_reading|]. intros l.
    apply keeps_mbind; [apply keeps_reading|]. intros t.
    apply keeps_mbind; [|intros _; apply keeps_for_each, Hb].
    intros w H. unfold put_self. simpl.
    unfold consistent, shaped, entries. simpl.
    rewrite fresh_len, fresh_entries. simpl.
    repeat split; try lia. destruct (collision_type t); reflexivity. }
  destruct (cls (self w)); auto.
  - unfold rehash_set, mbind, reading, get_next_size.
    destruct (List.rev (prime_sizes w)) as [|p r]; simpl; [exact H|].
    destruct (current_elements (self w)) as [l| |]; simpl; auto.
    pose proof (init_consistent (collision_type (self w)) [z (self w); p]
                  (mkWorld (self w) (List.rev r))
                  (or_introl (conj H eq_refl))) as Hi.
    destruct (init (collision_type (self w)) [z (self w); p]
                (mkWorld (self w) (List.rev r))) as [[[]| |] w2];
      simpl in *; auto.
    apply keeps_for_each; auto.
  - clear Hbase. revert w H.
    apply keeps_mbind; [apply keeps_get_next_size|]. intros p.
    apply keeps_mbind; [apply keeps_reading|]. intros l.
    apply keeps_raise.
Qed.

Lemma dynamic_insert_consistent (fuel : nat) (x : entry) :
  keeps consistent (dynamic_insert fuel x).
Proof.
  revert x. induction fuel as [|fuel IH]; intros x; simpl.
  - intros w H. exact H.
  - apply keeps_mbind.
    + apply keeps_updating. intros t t'. apply base_insert_consistent.
    + intros _. apply keeps_mbind; [apply keeps_reading|]. intros load.
      destruct (overloaded load).
      * apply rehash_consistent, IH.
      * apply keeps_mret.
Qed.

Lemma insert_consistent (x : entry) : keeps consistent (insert x).
Proof.
  intros w H. unfold insert. destruct (is_dynamic (cls (self w))).
  - apply dynamic_insert_consistent, H.
  - revert w H. apply keeps_updating. intros t t'.
    apply base_insert_consistent.
Qed.

Lemma reachable_consistent (t : HashTable) : reachable t -> consistent t.
Proof.
  induction 1 as [c ct params t H | t ps x _ IH].
  - eapply new_consistent, H.
  - apply (insert_consistent x (mkWorld t ps)), IH.
Qed.

Lemma reachable_inserts (xs : list entry) (t : HashTable) (ps : list Z) :
  reachable t -> reachable (self (inserts xs (mkWorld t ps))).
Proof.
  revert t ps. induction xs as [|x xs IH]; intros t ps H; simpl; [exact H|].
  pose proof (reach_insert t ps x H) as Hx.
  destruct (insert x (mkWorld t ps)) as [r [t' ps']]. simpl in *.
  apply IH, Hx.
Qed.

(** ** The load factor *)

Lemma ratio_nonneg (a b : Z) :
  0 <= a -> 0 < b \/ a = 0 -> (0 <= inject_Z a / inject_Z b)%Q.
Proof.
  intros Ha [Hb | H0].
  - apply Qle_shift_div_l.
    + change 0%Q with (inject_Z 0). rewrite <- Zlt_Qlt. exact Hb.
    + rewrite Qmult_0_l. change 0%Q with (inject_Z 0).
      rewrite <- Zle_Qle. exact Ha.
  - subst a. unfold Qdiv. rewrite Qmult_0_l. apply Qle_refl.
Qed.

Lemma ratio_le_1 (a b : Z) :
  a <= b /\ 0 < b \/ a = 0 -> (inject_Z a / inject_Z b <= 1)%Q.
Proof.
  intros [[Hab Hb] | H0].
  - apply Qle_shift_div_r.
    + change 0%Q with (inject_Z 0). rewrite <- Zlt_Qlt. exact Hb.
    + rewrite Qmult_1_l. rewrite <- Zle_Qle. exact Hab.
  - subst a. unfold Qdiv. rewrite Qmult_0_l. discriminate.
Qed.

Lemma consistent_count (t : HashTable) :
  consistent t ->
  0 <= total_elements t /\
  (0 < table_size t \/ total_elements t = 0) /\
  (probing t = true ->
   total_elements t <= table_size t /\ 0 < table_size t \/
   total_elements t = 0).
Proof.
  intros (Hsh & Hlen & Hc). unfold shaped, entries, probing in *.
  split; [lia|].
  assert (Hempty : table_size t <= 0 -> total_elements t = 0).
  { intros Hs. replace (Z.to_nat (table_size t)) with O in Hlen by lia.
    destruct (table t) as [b|c]; simpl in Hlen;
      apply length_zero_iff_nil in Hlen; subst; simpl in Hc; lia. }
  split; [lia|].
  intros Hp. destruct (Z.le_gt_cases (table_size t) 0) as [Hs|Hs]; [auto|].
  left. split; [|lia].
  destruct (collision_type t); try discriminate;
    destruct (table t) as [b|c]; try discriminate; simpl in *;
    pose proof (occupants_length_le c); lia.
Qed.

(** C8, as the code has it: on every reachable table [get_load] hands the
    object back untouched, returns exactly [count / size] whenever the size
    is not zero, and its result is at least 0; under "Linear" and "Double"
    it is at most 1.  A "Chain" table takes any number of elements per
    slot, so nothing bounds its load from above. *)
Theorem get_load_reachable (t : HashTable) (ps : list Z) :
  reachable t ->
  snd (get_load (mkWorld t ps)) = mkWorld t ps /\
  (table_size t <> 0 -> exists q, fst (get_load (mkWorld t ps)) = Ret q) /\
  forall q, fst (get_load (mkWorld t ps)) = Ret q ->
    q = (inject_Z (total_elements t) / inject_Z (table_size t))%Q /\
    (0 <= q)%Q /\
    (probing t = true -> (q <= 1)%Q).
Proof.
  intros Hr. apply reachable_consistent, consistent_count in Hr
    as (H0 & Hs & Hp).
  unfold get_load, reading, load_of. simpl.
  split; [reflexivity|]. split.
  - intros Hne. destruct (Z.eqb_spec (table_size t) 0); [contradiction|].
    eauto.
  - intros q Hq. destruct (Z.eqb_spec (table_size t) 0); [discriminate|].
    inversion Hq; subst q. split; [reflexivity|]. split.
    + apply ratio_nonneg; assumption.
    + intros Hpr. apply ratio_le_1. specialize (Hp Hpr). lia.
Qed.

Lemma get_load_reachable_witness :
  snd (get_load (mkWorld linear_set_3 [])) = mkWorld linear_set_3 [] /\
  forall q, fst (get_load (mkWorld linear_set_3 [])) = Ret q ->
    (0 <= q)%Q /\ (q <= 1)%Q.
Proof.
  destruct (get_load_reachable linear_set_3 []
              (reach_new HashSet Linear [31; 3] linear_set_3 eq_refl))
    as (H1 & _ & H3).
  split; [exact H1|]. intros q Hq.
  destruct (H3 q Hq) as (_ & Hlo & Hhi). split; [exact Hlo|].
  apply Hhi. reflexivity.
Defined.

(** C8 as stated fails: two keys in a "Chain" table of one slot give a
    load of 2. *)
Lemma get_load_above_one :
  reachable crowded_chain /\
  fst (get_load (mkWorld crowded_chain [])) = Ret (inject_Z 2 / inject_Z 1)%Q /\
  ~ (inject_Z 2 / inject_Z 1 <= 1)%Q.
Proof.
  split; [|split].
  - apply (reachable_inserts [Key "a"; Key "b"]).
    apply (reach_new HashSet Chain [31; 1]). reflexivity.
  - reflexivity.
  - intros H. vm_compute in H. apply H. reflexivity.
Qed.

(** ** The growth variant *)

Lemma init_count (ct : strategy) (params : list Z) (w : world) :
  total_elements (self (snd (init ct params w))) = 0.
Proof.
  unfold init. destruct ct.
  - destruct (a <- param params 0;; d <- param params 1;; Ret (a, d))
      as [[a d]| |]; reflexivity.
  - destruct (a <- param params 0;; d <- param params 1;; Ret (a, d))
      as [[a d]| |]; reflexivity.
  - destruct (a <- param params 0;; b <- param params 1;;
              c <- param params 2;; d <- param params 3;; Ret (a, b, c, d))
      as [[[[a b] c] d]| |]; reflexivity.
Qed.

Lemma empty_below_threshold (w : world) :
  total_elements (self w) = 0 -> below_threshold w.
Proof.
  intros H q. unfold load_of. rewrite H.
  destruct (table_size (self w) =? 0); [discriminate|].
  intros E. inversion E. destruct (table_size (self w)); reflexivity.
Qed.

Lemma for_each_below (l : list entry) (body : entry -> M unit) (w w' : world) :
  (forall x a b, body x a = (Ret tt, b) -> below_threshold b) ->
  for_each l body w = (Ret tt, w') ->
  below_threshold w -> below_threshold w'.
Proof.
  intros Hb. revert w. induction l as [|x l IH]; intros w H Hw; simpl in H.
  - inversion H; subst. exact Hw.
  - unfold mbind in H.
    destruct (body x w) as [[[]| |] w1] eqn:E; try discriminate.
    apply (IH w1 H). eapply Hb, E.
Qed.

Lemma rehash_below (body : entry -> M unit) (w w' : world) :
  (forall x a b, body x a = (Ret tt, b) -> below_threshold b) ->
  rehash body w = (Ret tt, w') -> below_threshold w'.
Proof.
  intros Hb. unfold rehash.
  assert (Hbase : rehash_base body w = (Ret tt, w') -> below_threshold w').
  { unfold rehash_base, mbind, reading, put_self, get_next_size.
    destruct (List.rev (prime_sizes w)) as [|p r]; [discriminate|]. simpl.
    destruct (current_elements (self w)) as [l| |]; try discriminate.
    intros H. eapply for_each_below; [exact Hb | exact H |].
    apply empty_below_threshold. reflexivity. }
  destruct (cls (self w)); auto.
  - unfold rehash_set, mbind, reading, get_next_size.
    destruct (List.rev (prime_sizes w)) as [|p r]; [discriminate|]. simpl.
    destruct (current_elements (self w)) as [l| |]; try discriminate.
    pose proof (init_count (collision_type (self w)) [z (self w); p]
                  (mkWorld (self w) (List.rev r))) as Hc.
    destruct (init (collision_type (self w)) [z (self w); p]
                (mkWorld (self w) (List.rev r))) as [[[]| |] w2];
      try discriminate.
    intros H. eapply for_each_below; [exact Hb | exact H |].
    apply empty_below_threshold. exact Hc.
  - unfold rehash_map, mbind, reading, get_next_size, raise.
    destruct (List.rev (prime_sizes w)) as [|p r]; [discriminate|]. simpl.
    destruct (current_elements (self w)); discriminate.
Qed.

(** Whenever a dynamic [insert] returns, the load is below one half. *)
Lemma dynamic_insert_below (fuel : nat) (x : entry) (w w' : world) :
  dynamic_insert fuel x w = (Ret tt, w') -> below_threshold w'.
Proof.
  revert x w w'. induction fuel as [|fuel IH]; intros x w w' H; simpl in H;
    [discriminate|].
  unfold mbind, get_load, reading in H.
  destruct (updating (fun t => base_insert t x) w) as [[[]| |] w1];
    try discriminate.
  destruct (load_of (self w1)) as [load| |] eqn:El; try discriminate.
  destruct (overloaded load) eqn:Eo.
  - eapply rehash_below; [|exact H]. intros y a b. apply IH.
  - inversion H; subst. intros q Hq. congruence.
Qed.

(** ** Where the code departs from the specification *)

(** C1 on the code: an [insert] that increments the count can be followed
    by a [find] that returns something else.  In a map, the pair
    [("a", 5)] is accepted after [("a", 0)], because the stored 0 is
    falsy, and [find("a")] returns 0.  In a "Linear" set, ["a"] is stored
    behind the empty key, at which the loop of [find] stops, so
    [find("a")] returns [False]. *)
Theorem find_after_insert_misses :
  (reachable chain_map_a0 /\
   exists t', base_insert chain_map_a0 (Pair "a" (VInt 5)) = Ret t' /\
     total_elements t' = total_elements chain_map_a0 + 1 /\
     find t' "a" = Ret (VInt 0)) /\
  (reachable linear_set_empty_key /\
   exists t', base_insert linear_set_empty_key (Key "a") = Ret t' /\
     total_elements t' = total_elements linear_set_empty_key + 1 /\
     find t' "a" = Ret (VBool false)).
Proof.
  split; split.
  - apply (reachable_inserts [Pair "a" (VInt 0)]).
    apply (reach_new HashMap Chain [31; 29]). reflexivity.
  - eexists. split; [reflexivity|]. split; reflexivity.
  - apply (reachable_inserts [Key EmptyString]).
    apply (reach_new HashSet Linear [31; 3]). reflexivity.
  - eexists. split; [reflexivity|]. split; reflexivity.
Qed.

(** C2 on the code: inserting [("a", 0)] into a map that already holds
    [("a", 0)] is not a no-op; the count goes from 1 to 2 and two stored
    pairs share the key.  The same happens to the empty string in a
    "Linear" set. *)
Theorem insert_existing_key_duplicates :
  (reachable chain_map_a0 /\
   total_elements chain_map_a0 = 1 /\
   keys chain_map_a0 = ["a"%string] /\
   exists t', base_insert chain_map_a0 (Pair "a" (VInt 0)) = Ret t' /\
     total_elements t' = 2 /\
     keys t' = ["a"%string; "a"%string]) /\
  (reachable linear_set_empty_key /\
   total_elements linear_set_empty_key = 1 /\
   keys linear_set_empty_key = [EmptyString] /\
   exists t', base_insert linear_set_empty_key (Key EmptyString) = Ret t' /\
     total_elements t' = 2 /\
     keys t' = [EmptyString; EmptyString]).
Proof.
  split; split.
  - apply (reachable_inserts [Pair "a" (VInt 0)]).
    apply (reach_new HashMap Chain [31; 29]). reflexivity.
  - split; [reflexivity|]. split; [reflexivity|].
    eexists. split; [reflexivity|]. split; reflexivity.
  - apply (reachable_inserts [Key EmptyString]).
    apply (reach_new HashSet Linear [31; 3]). reflexivity.
  - split; [reflexivity|]. split; [reflexivity|].
    eexists. split; [reflexivity|]. split; reflexivity.
Qed.

(** C3 on the code: the second [insert] into a dynamic map of three slots
    brings the load to 2/3; the rebuild takes the prime 7 and then raises
    [AttributeError]; the prime 17 is left, and so is a table above the
    threshold. *)
Theorem dynamic_map_stays_overloaded :
  fst (insert (Pair "b" (VInt 2)) dynamic_map_a) = Raise AttributeError /\
  prime_sizes (snd (insert (Pair "b" (VInt 2)) dynamic_map_a)) = [17] /\
  load_of (self (snd (insert (Pair "b" (VInt 2)) dynamic_map_a)))
    = Ret (inject_Z 2 / inject_Z 3)%Q /\
  overloaded (inject_Z 2 / inject_Z 3)%Q = true.
Proof. repeat split. Qed.

(** C4 on the code: the rebuild of a dynamic "Double" set raises
    [IndexError] inside [__init__], and the rebuild of a dynamic map raises
    [AttributeError] before it; either way the table keeps its three
    slots and is not rebuilt at size 7.  The rebuild of a "Linear" set
    goes through. *)
Theorem rebuild_raises :
  (fst (insert (Key "b") dynamic_double_a) = Raise IndexError /\
   table_size (self (snd (insert (Key "b") dynamic_double_a))) = 3 /\
   total_elements (self (snd (insert (Key "b") dynamic_double_a))) = 0 /\
   entries (self (snd (insert (Key "b") dynamic_double_a)))
     = [Key "a"; Key "b"]) /\
  (fst (insert (Pair "b" (VInt 2)) dynamic_map_a) = Raise AttributeError /\
   table_size (self (snd (insert (Pair "b" (VInt 2)) dynamic_map_a))) = 3) /\
  (fst (insert (Key "b") dynamic_linear_a) = Ret tt /\
   table_size (self (snd (insert (Key "b") dynamic_linear_a))) = 7 /\
   entries (self (snd (insert (Key "b") dynamic_linear_a)))
     = [Key "a"; Key "b"]).
Proof. repeat split. Qed.


(** ** Every call of [insert] ends *)

Lemma get_slot_loop_ends (zz size : Z) (key : string) (n : nat) (poly : Z) :
  get_slot_loop zz size key n poly <> Exhausted.
Proof.
  revert poly. induction n as [|i IH]; intros poly; simpl; [discriminate|].
  destruct (String.get i key); [|discriminate].
  unfold pymod. destruct (size =? 0); simpl; [discriminate | apply IH].
Qed.

Lemma step_loop_ends (zz : Z) (key : string) (n : nat) (step : Z) :
  step_loop zz key n step <> Exhausted.
Proof.
  revert step. induction n as [|i IH]; intros step; simpl; [discriminate|].
  destruct (String.get i key); [apply IH | discriminate].
Qed.

Lemma get_slot_ends (t : HashTable) (key : string) :
  get_slot t key <> Exhausted.
Proof.
  unfold get_slot.
  pose proof (get_slot_loop_ends (z t) (table_size t) key
                (String.length key) 0) as H.
  destruct (get_slot_loop _ _ _ _ _); simpl; try congruence.
  unfold pymod. destruct (_ =? 0); discriminate.
Qed.

Lemma secondary_step_ends (t : HashTable) (key : string) :
  secondary_step t key <> Exhausted.
Proof.
  unfold secondary_step.
  pose proof (step_loop_ends (z2 t) key (String.length key) 0) as H.
  destruct (step_loop _ _ _ _); simpl; try congruence.
  unfold pymod. destruct (_ =? 0); discriminate.
Qed.

Lemma getitem_nil {A : Type} (idx : Z) :
  getitem (@nil A) idx = Raise IndexError.
Proof.
  unfold getitem. simpl length. change (Z.of_nat 0) with 0.
  rewrite Z.add_0_r.
  assert (E : (if idx <? 0 then idx else idx) = idx)
    by (destruct (idx <? 0); reflexivity).
  rewrite E.
  destruct (Z.leb_spec 0 idx), (Z.ltb_spec idx 0); simpl; auto; lia.
Qed.

(** On a table without slots [find] raises. *)
Lemma find_no_slots (t : HashTable) (key : string) (fuel : nat) :
  slots_len (table t) = O ->
  exists e, find_fuel (S fuel) t key = Raise e.
Proof.
  intros Hlen. unfold find_fuel.
  pose proof (get_slot_ends t key) as Hg.
  destruct (get_slot t key) as [idx| |]; simpl; [|eauto|congruence].
  destruct (collision_type t), (table t) as [b|c]; simpl in Hlen;
    try apply length_zero_iff_nil in Hlen; subst; eauto.
  - rewrite getitem_nil. simpl. eauto.
  - rewrite getitem_nil. simpl. eauto.
  - pose proof (secondary_step_ends t key) as Hs.
    destruct (secondary_step t key) as [s| |]; simpl; [|eauto|congruence].
    rewrite getitem_nil. simpl. eauto.
Qed.

Lemma get_slot_zero (t : HashTable) (key : string) :
  table_size t = 0 -> get_slot t key = Raise ZeroDivisionError.
Proof.
  intros Hs. unfold get_slot. rewrite Hs.
  destruct (String.length key) as [|n] eqn:El; simpl; [reflexivity|].
  rewrite get_nth_error.
  destruct (nth_error (chars key) n) eqn:E; simpl; [reflexivity|].
  apply nth_error_None in E. rewrite chars_length in E. lia.
Qed.

Lemma base_insert_ends (t : HashTable) (x : entry) :
  consistent t -> base_insert t x <> Exhausted.
Proof.
  intros (Hsh & Hlen & Hc).
  destruct (Z.lt_trichotomy (table_size t) 0) as [Hs | [Hs | Hs]].
  - unfold base_insert, insert_fuel, budget.
    replace (Z.to_nat (Z.max 1 (table_size t))) with 1%nat by lia.
    destruct (find_no_slots t (key_of x) 0) as [e He]; [lia|].
    rewrite He. discriminate.
  - unfold base_insert, insert_fuel, find_fuel.
    rewrite get_slot_zero by assumption. discriminate.
  - apply insert_within_budget; [|lia]. unfold sized.
    apply Z.eqb_eq. lia.
Qed.

Lemma shrinks_mret {A : Type} (a : A) : shrinks (mret a).
Proof. intros w. simpl. lia. Qed.

Lemma shrinks_raise {A : Type} (e : exn) : shrinks (@raise A e).
Proof. intros w. simpl. lia. Qed.

Lemma shrinks_reading {A : Type} (f : HashTable -> outcome A) :
  shrinks (reading f).
Proof. intros w. simpl. lia. Qed.

Lemma shrinks_put_self (t : HashTable) : shrinks (put_self t).
Proof. intros w. simpl. lia. Qed.

Lemma shrinks_updating (f : HashTable -> outcome HashTable) :
  shrinks (updating f).
Proof.
  intros w. unfold updating. destruct (f (self w)); simpl; lia.
Qed.

Lemma shrinks_mbind {A B : Type} (m : M A) (k : A -> M B) :
  shrinks m -> (forall a, shrinks (k a)) -> shrinks (mbind m k).
Proof.
  intros Hm Hk w. unfold mbind. specialize (Hm w).
  destruct (m w) as [[a| |] w']; simpl in *; auto.
  specialize (Hk a w'). lia.
Qed.

Lemma shrinks_get_next_size : shrinks get_next_size.
Proof.
  intros w. unfold get_next_size.
  destruct (List.rev (prime_sizes w)) as [|p r] eqn:E; simpl; [lia|].
  rewrite List.length_rev, <- (List.length_rev (prime_sizes w)), E.
  simpl. lia.
Qed.

Lemma shrinks_init (ct : strategy) (params : list Z) :
  shrinks (init ct params).
Proof.
  intros w. unfold init. destruct ct.
  - destruct (a <- param params 0;; d <- param params 1;; Ret (a, d))
      as [[a d]| |]; simpl; lia.
  - destruct (a <- param params 0;; d <- param params 1;; Ret (a, d))
      as [[a d]| |]; simpl; lia.
  - destruct (a <- param params 0;; b <- param params 1;;
              c <- param params 2;; d <- param params 3;; Ret (a, b, c, d))
      as [[[[a b] c] d]| |]; simpl; lia.
Qed.

Lemma shrinks_for_each (l : list entry) (body : entry -> M unit) :
  (forall x, shrinks (body x)) -> shrinks (for_each l body).
Proof.
  intros Hb. induction l as [|x l IH]; simpl.
  - apply shrinks_mret.
  - apply shrinks_mbind; auto.
Qed.

Lemma shrinks_rehash (body : entry -> M unit) :
  (forall x, shrinks (body x)) -> shrinks (rehash body).
Proof.
  intros Hb w. unfold rehash. destruct (cls (self w)).
  - revert w. apply shrinks_mbind; [apply shrinks_get_next_size|]. intros p.
    apply shrinks_mbind; [apply shrinks_reading|]. intros l.
    apply shrinks_mbind; [apply shrinks_reading|]. intros t.
    apply shrinks_mbind; [apply shrinks_put_self|]. intros _.
    apply shrinks_for_each, Hb.
  - revert w. apply shrinks_mbind; [apply shrinks_get_next_size|]. intros p.
    apply shrinks_mbind; [apply shrinks_reading|]. intros l.
    apply shrinks_mbind; [apply shrinks_reading|]. intros t.
    apply shrinks_mbind; [apply shrinks_put_self|]. intros _.
    apply shrinks_for_each, Hb.
  - revert w. apply shrinks_mbind; [apply shrinks_get_next_size|]. intros p.
    apply shrinks_mbind; [apply shrinks_reading|]. intros l.
    apply shrinks_mbind; [apply shrinks_reading|]. intros zz.
    apply shrinks_mbind; [apply shrinks_reading|]. intros ct.
    apply shrinks_mbind; [apply shrinks_init|]. intros _.
    apply shrinks_for_each, Hb.
  - revert w. apply shrinks_mbind; [apply shrinks_get_next_size|]. intros p.
    apply shrinks_mbind; [apply shrinks_reading|]. intros l.
    apply shrinks_raise.
Qed.

Lemma shrinks_dynamic_insert (fuel : nat) (x : entry) :
  shrinks (dynamic_insert fuel x).
Proof.
  revert x. induction fuel as [|fuel IH]; intros x; simpl.
  - intros w. simpl. lia.
  - apply shrinks_mbind; [apply shrinks_updating|]. intros _.
    apply shrinks_mbind; [apply shrinks_reading|]. intros load.
    destruct (overloaded load).
    + apply shrinks_rehash, IH.
    + apply shrinks_mret.
Qed.


Lemma init_ends (ct : strategy) (params : list Z) (w : world) :
  fst (init ct params w) <> Exhausted.
Proof.
  unfold init, param.
  destruct ct; repeat (destruct (params !! _); simpl; try discriminate).
Qed.

Lemma updating_ends (x : entry) (w : world) :
  consistent (self w) ->
  fst (updating (fun t => base_insert t x) w) <> Exhausted.
Proof.
  intros H. unfold updating.
  pose proof (base_insert_ends (self w) x H) as Hb.
  destruct (base_insert (self w) x); simpl; congruence.
Qed.

Lemma for_each_ends (fuel : nat) (body : entry -> M unit) (l : list entry)
  (w : world) :
  (forall x w, ready fuel w -> fst (body x w) <> Exhausted) ->
  (forall x, keeps consistent (body x)) ->
  (forall x, shrinks (body x)) ->
  ready fuel w ->
  fst (for_each l body w) <> Exhausted.
Proof.
  intros Hend Hk Hs. revert w.
  induction l as [|x l IH]; intros w Hw; simpl; [discriminate|].
  unfold mbind. pose proof (Hend x w Hw) as He.
  pose proof (Hk x w (proj1 Hw)) as Hc. pose proof (Hs x w) as Hl.
  destruct (body x w) as [[[]| |] w1]; simpl in *; try congruence.
  apply IH. split; [exact Hc|]. destruct Hw. lia.
Qed.

Lemma rehash_ends (fuel : nat) (body : entry -> M unit) (w : world) :
  (forall x w, ready fuel w -> fst (body x w) <> Exhausted) ->
  (forall x, keeps consistent (body x)) ->
  (forall x, shrinks (body x)) ->
  ready (S fuel) w ->
  fst (rehash body w) <> Exhausted.
Proof.
  intros Hend Hk Hs [Hc Hl]. unfold rehash.
  assert (Hpop : forall p r, List.rev (prime_sizes w) = p :: r ->
            (length (List.rev r) < fuel)%nat).
  { intros p r E. rewrite List.length_rev.
    rewrite <- (List.length_rev (prime_sizes w)), E in Hl. simpl in Hl. lia. }
  assert (Hbase : fst (rehash_base body w) <> Exhausted).
  { unfold rehash_base, mbind, reading, put_self, get_next_size.
    destruct (List.rev (prime_sizes w)) as [|p r] eqn:E; [discriminate|].
    simpl. destruct (current_elements (self w)) as [l| |] eqn:El;
      simpl; try discriminate.
    - apply (for_each_ends fuel); auto. split; [|apply (Hpop p r eq_refl)].
      simpl. destruct Hc as (Hsh & Hlen & Hn).
      unfold consistent, shaped, entries. simpl.
      rewrite fresh_len, fresh_entries. simpl.
      repeat split; try lia. destruct (collision_type (self w)); reflexivity.
    - unfold current_elements in El.
      destruct (collision_type (self w)), (table (self w)); discriminate. }
  destruct (cls (self w)); auto.
  - unfold rehash_set, mbind, reading, get_next_size.
    destruct (List.rev (prime_sizes w)) as [|p r] eqn:E; [discriminate|].
    simpl. destruct (current_elements (self w)) as [l| |] eqn:El;
      simpl; try discriminate.
    + pose proof (init_consistent (collision_type (self w)) [z (self w); p]
                    (mkWorld (self w) (List.rev r))
                    (or_introl (conj Hc eq_refl))) as Hi.
      pose proof (shrinks_init (collision_type (self w)) [z (self w); p]
                    (mkWorld (self w) (List.rev r))) as Hsi.
      pose proof (init_ends (collision_type (self w)) [z (self w); p]
                    (mkWorld (self w) (List.rev r))) as Hie.
      destruct (init (collision_type (self w)) [z (self w); p]
                  (mkWorld (self w) (List.rev r))) as [[[]| |] w2];
        simpl in *; try congruence.
      apply (for_each_ends fuel); auto. split; [exact Hi|].
      specialize (Hpop p r eq_refl). lia.
    + unfold current_elements in El.
      destruct (collision_type (self w)), (table (self w)); discriminate.
  - unfold rehash_map, mbind, reading, get_next_size, raise.
    destruct (List.rev (prime_sizes w)) as [|p r]; [discriminate|]. simpl.
    destruct (current_elements (self w)) as [l| |] eqn:El;
      simpl; try discriminate.
    unfold current_elements in El.
    destruct (collision_type (self w)), (table (self w)); discriminate.
Qed.

Lemma dynamic_insert_ends (fuel : nat) (x : entry) (w : world) :
  ready fuel w -> fst (dynamic_insert fuel x w) <> Exhausted.
Proof.
  revert x w. induction fuel as [|fuel IH]; intros x w [Hc Hl]; [lia|].
  simpl. unfold mbind, get_load, reading.
  pose proof (updating_ends x w Hc) as Hu.
  pose proof (keeps_updating consistent (fun t => base_insert t x)
                (fun t t' => base_insert_consistent (budget t) t t' x) w Hc)
    as Hk.
  pose proof (shrinks_updating (fun t => base_insert t x) w) as Hs.
  destruct (updating (fun t => base_insert t x) w) as [[[]| |] w1];
    simpl in *; try congruence.
  unfold load_of. destruct (table_size (self w1) =? 0); [discriminate|].
  destruct (overloaded _); [|discriminate].
  apply (rehash_ends fuel).
  - intros y w' Hw'. apply IH, Hw'.
  - intros y. apply dynamic_insert_consistent.
  - intros y. apply shrinks_dynamic_insert.
  - split; [exact Hk | lia].
Qed.

(** Every call of [insert] on a reachable table ends: it returns or it
    raises, within the budgets of the model, whatever the list of primes. *)
Lemma insert_ends (t : HashTable) (ps : list Z) (x : entry) :
  reachable t -> fst (insert x (mkWorld t ps)) <> Exhausted.
Proof.
  intros Hr. apply reachable_consistent in Hr. unfold insert.
  cbn [self prime_sizes]. destruct (is_dynamic (cls t)).
  - apply dynamic_insert_ends. split; simpl; [exact Hr | lia].
  - apply updating_ends. exact Hr.
Qed.

Lemma reachable_well_formed (t : HashTable) :
  reachable t -> 1 <= table_size t ->
  (collision_type t = Double -> c2 t <> 0) ->
  well_formed t = true.
Proof.
  intros Hr Hpos Hc. apply reachable_consistent in Hr as (Hsh & Hlen & _).
  unfold well_formed, sized. rewrite Hsh. simpl.
  replace (Z.of_nat (slots_len (table t)) =? table_size t) with true
    by (symmetry; apply Z.eqb_eq; lia).
  replace (1 <=? table_size t) with true by (symmetry; apply Z.leb_le; lia).
  simpl. destruct (collision_type t); auto.
  destruct (Z.eqb_spec (c2 t) 0) as [E|E]; [|reflexivity].
  exfalso. apply Hc; auto.
Qed.

(** ** The scenarios of the specification *)

Example example_tables_built :
  new HashSet Chain [31; 29] = Ret chain_set_29 /\
  new HashMap Chain [31; 29] = Ret chain_map_29 /\
  new HashMap Double [31; 37; 17; 29] = Ret double_map_29 /\
  new HashSet Linear [31; 3] = Ret linear_set_3 /\
  updating (fun t => base_insert t (Key "b"))
    (snd (updating (fun t => base_insert t (Key "a"))
            (mkWorld (mkTable HashSet Linear 31 0 0 2 0 (fresh Linear 2)) [])))
  = (Ret tt, mkWorld full_linear_2 []).
Proof. repeat split. Qed.

Example scenario_A :
  let t := self (inserts [Key "cat"; Key "dog"; Key "bird"]
                   (mkWorld chain_set_29 [])) in
  find t "dog" = Ret (VBool true) /\ find t "fish" = Ret (VBool false).
Proof. split; reflexivity. Qed.

Example scenario_B :
  let t := self (inserts [Pair "key" (VStr "v1"); Pair "key" (VStr "v2")]
                   (mkWorld double_map_29 [])) in
  find t "key" = Ret (VStr "v1") /\ total_elements t = 1.
Proof. split; reflexivity. Qed.

Example scenario_C :
  table_size (self grown_set) = 61 /\
  total_elements (self grown_set) = 15 /\
  prime_sizes grown_set = [] /\
  forallb (fun k => match find (self grown_set) k with
                    | Ret (VBool true) => true
                    | _ => false
                    end) fifteen_keys = true.
Proof. repeat split. Qed.

(** ** What does hold of the round trip *)

Lemma getitem_same {A : Type} (l l' : list A) (idx : Z) (v : A) :
  setitem l idx v = Ret l' -> getitem l' idx = Ret v.
Proof.
  unfold setitem, getitem. intros H.
  destruct (_ && _) eqn:E; [|discriminate]. inversion H; subst.
  rewrite length_insert, E.
  rewrite list_lookup_insert_eq; [reflexivity|].
  apply andb_prop in E as [E1 E2]. apply Z.leb_le in E1.
  apply Z.ltb_lt in E2. lia.
Qed.

Lemma getitem_other {A : Type} (l l' : list A) (idx p : Z) (a b v : A) :
  getitem l idx = Ret a -> getitem l p = Ret b -> a <> b ->
  setitem l p v = Ret l' -> getitem l' idx = Ret a.
Proof.
  unfold setitem, getitem. intros Ha Hb Hne H.
  destruct ((0 <=? (if p <? 0 then p + Z.of_nat (length l) else p)) &&
            ((if p <? 0 then p + Z.of_nat (length l) else p)
               <? Z.of_nat (length l))); [|discriminate].
  inversion H; subst. rewrite length_insert.
  destruct (_ && _); [|discriminate].
  rewrite list_lookup_insert_ne; [exact Ha|].
  intros E. rewrite E in Hb.
  destruct (l !! _); congruence.
Qed.

Lemma item_matches_own (x : entry) : item_matches x (key_of x) = true.
Proof. destruct x; simpl; rewrite String.eqb_refl; reflexivity. Qed.

Lemma scan_chain_last (items : list entry) (x : entry) :
  forallb (fun e => negb (item_matches e (key_of x))) items = true ->
  scan_chain (items ++ [x]) (key_of x) = Some (item_result x).
Proof.
  induction items as [|e items IH]; simpl; intros H.
  - rewrite item_matches_own. reflexivity.
  - apply andb_prop in H as [He Hr].
    destruct (item_matches e (key_of x)); [discriminate|]. apply IH, Hr.
Qed.

Lemma forallb_bucket (f : entry -> bool) (b : list (list entry)) (i : nat)
  (items : list entry) :
  forallb f (concat b) = true -> b !! i = Some items ->
  forallb f items = true.
Proof.
  rewrite !forallb_forall. intros H Hi e He. apply H.
  apply in_concat. exists items. split; [|exact He].
  apply list_elem_of_In. eapply list_elem_of_lookup_2, Hi.
Qed.

Lemma forallb_cell (f : entry -> bool) (c : list (option entry)) (i : nat)
  (e : entry) :
  forallb f (occupants c) = true -> c !! i = Some (Some e) -> f e = true.
Proof.
  revert i. induction c as [|s c IH]; intros [|i] H Hi; simpl in *;
    try discriminate.
  - inversion Hi; subst. simpl in H. apply andb_prop in H. tauto.
  - destruct s; simpl in H; [apply andb_prop in H as [_ H]|]; eauto.
Qed.

(** Over the filled array, the loop of [find] walks the slots the loop of
    [insert] walked and stops at the one that was filled. *)
Lemma find_follows_insert (t t' : HashTable) (c c' : list (option entry))
  (x : entry) (step orig_idx p : Z) (fuel : nat) (idx : Z) :
  table_size t' = table_size t ->
  forallb (fun e => negb (item_matches e (key_of x))) (occupants c) = true ->
  forallb (fun e => slot_truthy (Some e)) (occupants c) = true ->
  slot_truthy (Some x) = true ->
  setitem c p (Some x) = Ret c' ->
  insert_loop fuel t c step orig_idx idx = Ret (Some p) ->
  find_loop fuel t' c' (key_of x) step orig_idx idx = Ret (item_result x).
Proof.
  intros Hsz Habs Htr Hx Hset. revert idx.
  induction fuel as [|fuel IH]; intros idx H; simpl in H; [discriminate|].
  simpl find_loop.
  destruct (getitem c idx) as [s| |] eqn:Eg; simpl in H; try discriminate.
  destruct s as [item|]; simpl in H.
  - destruct (pymod (idx + step) (table_size t)) as [idx'| |] eqn:Em;
      simpl in H; try discriminate.
    destruct (Z.eqb_spec idx' orig_idx) as [|Hne]; [discriminate|].
    pose proof (insert_loop_vacant _ _ _ _ _ _ _ H) as Hp.
    rewrite (getitem_other c c' idx p (Some item) None (Some x) Eg Hp
               ltac:(discriminate) Hset).
    cbn [bind].
    destruct (getitem_Ret_lookup c idx (Some item) Eg) as [i Hi].
    pose proof (forallb_cell _ c i item Htr Hi) as Ht.
    pose proof (forallb_cell _ c i item Habs Hi) as Hm.
    cbv beta in Ht, Hm.
    rewrite Ht. apply negb_true_iff in Hm. rewrite Hm.
    rewrite Hsz, Em. cbn [bind].
    destruct (Z.eqb_spec orig_idx idx') as [E|_]; [congruence|].
    apply IH, H.
  - inversion H; subst idx.
    rewrite (getitem_same c c' p (Some x) Hset). cbn [bind].
    rewrite Hx, item_matches_own. reflexivity.
Qed.

(** The round trip for a key that is new to the table: when no stored
    element has the key of [x], and, under probing, neither [x] nor a
    stored element is the empty string, an [insert] that increments the
    count is followed by a [find] that returns the value of [x] in a map
    and [True] in a set. *)
Lemma round_trip_new_key (fuel : nat) (t t' : HashTable) (x : entry) :
  insert_fuel fuel t x = Ret t' ->
  total_elements t' = total_elements t + 1 ->
  key_absent t (key_of x) = true ->
  (probing t = true ->
   entries_truthy t = true /\ slot_truthy (Some x) = true) ->
  find_fuel fuel t' (key_of x) = Ret (item_result x).
Proof.
  unfold insert_fuel, key_absent, entries_truthy, entries, probing.
  intros H Hcount Habs Htr.
  apply bind_Ret in H as (found & _ & H).
  destruct (truthy found); [inversion H; subst; lia|].
  apply bind_Ret in H as (idx & Hidx & H).
  assert (Hplace : forall c step r,
            table t = Cells c ->
            forallb (fun e => negb (item_matches e (key_of x)))
              (occupants c) = true ->
            forallb (fun e => slot_truthy (Some e)) (occupants c) = true ->
            slot_truthy (Some x) = true ->
            insert_loop fuel t c step idx idx = Ret r ->
            place t c x r = Ret t' ->
            exists c', t' = with_table t (Cells c') (total_elements t + 1) /\
              find_loop fuel t' c' (key_of x) step idx idx
              = Ret (item_result x)).
  { intros c step [p|] Htb Ha Ht Hx Hl Hp; simpl in Hp;
      [|inversion Hp; subst; lia].
    unfold store in Hp. apply bind_Ret in Hp as (c' & Hset & Hp).
    inversion Hp; subst t'. exists c'. split; [reflexivity|].
    apply (find_follows_insert t
             (with_table t (Cells c') (total_elements t + 1))
             c c' x step idx p fuel idx eq_refl Ha Ht Hx Hset Hl). }
  unfold find_fuel.
  destruct (collision_type t) eqn:Hct, (table t) as [b|c] eqn:Htb;
    try discriminate.
  - apply bind_Ret in H as (items & Hi & H).
    apply bind_Ret in H as (b' & Hset & H). inversion H; subst t'.
    change (get_slot (with_table t (Buckets b') (total_elements t + 1))
              (key_of x)) with (get_slot t (key_of x)).
    rewrite Hidx. simpl. rewrite Hct.
    rewrite (getitem_same b b' idx _ Hset). simpl.
    destruct (getitem_Ret_lookup b idx items Hi) as [i Hl].
    rewrite (scan_chain_last items x (forallb_bucket _ b i items Habs Hl)).
    reflexivity.
  - apply bind_Ret in H as (r & Hl & H).
    destruct (Htr eq_refl) as [Ht Hx].
    destruct (Hplace c 1 r eq_refl Habs Ht Hx Hl H) as (c' & -> & Hf).
    change (get_slot (with_table t (Cells c') (total_elements t + 1))
              (key_of x)) with (get_slot t (key_of x)).
    rewrite Hidx. simpl. rewrite Hct. exact Hf.
  - apply bind_Ret in H as (step & Hs & H).
    apply bind_Ret in H as (r & Hl & H).
    destruct (Htr eq_refl) as [Ht Hx].
    destruct (Hplace c step r eq_refl Habs Ht Hx Hl H) as (c' & -> & Hf).
    change (get_slot (with_table t (Cells c') (total_elements t + 1))
              (key_of x)) with (get_slot t (key_of x)).
    rewrite Hidx. simpl. rewrite Hct.
    change (secondary_step (with_table t (Cells c') (total_elements t + 1))
              (key_of x)) with (secondary_step t (key_of x)).
    rewrite Hs. exact Hf.
Qed.

(** The duplicate test as the code has it: an element whose key [find]
    reports with a truthy result is not inserted. *)
Lemma insert_found_is_noop (t : HashTable) (x : entry) (v : value) :
  find t (key_of x) = Ret v -> truthy v = true -> base_insert t x = Ret t.
Proof.
  intros Hf Hv. unfold base_insert, insert_fuel. fold (find t (key_of x)).
  rewrite Hf. simpl. rewrite Hv. reflexivity.
Qed.

Lemma base_insert_size (t t' : HashTable) (x : entry) :
  base_insert t x = Ret t' -> table_size t' = table_size t.
Proof.
  intros H. apply insert_fuel_Ret in H
    as [-> | [(b & i & items & _ & _ & _ & ->) | (c & i & _ & _ & _ & ->)]];
    reflexivity.
Qed.

(** The same on the methods themselves. *)
Lemma find_after_insert_new_key (t t' : HashTable) (x : entry) :
  base_insert t x = Ret t' ->
  total_elements t' = total_elements t + 1 ->
  key_absent t (key_of x) = true ->
  (probing t = true ->
   entries_truthy t = true /\ slot_truthy (Some x) = true) ->
  find t' (key_of x) = Ret (item_result x).
Proof.
  intros H Hc Ha Ht. unfold find, budget.
  rewrite (base_insert_size t t' x H).
  apply (round_trip_new_key (budget t) t t' x H Hc Ha Ht).
Qed.

(** ** The growth variant where it works: sets under "Chain" and "Linear" *)

Lemma base_insert_attributes (t t' : HashTable) (x : entry) :
  base_insert t x = Ret t' ->
  cls t' = cls t /\ collision_type t' = collision_type t /\
  table_size t' = table_size t.
Proof.
  intros H. apply insert_fuel_Ret in H
    as [-> | [(b & i & items & _ & _ & _ & ->) | (c & i & _ & _ & _ & ->)]];
    repeat split.
Qed.

Lemma growing_weaken (fuel fuel' : nat) (w : world) :
  (fuel <= fuel')%nat -> growing fuel w -> growing fuel' w.
Proof.
  intros Hle (H1 & H2 & H3 & H4 & H5 & H6).
  refine (conj H1 (conj H2 (conj H3 (conj H4 (conj H5 _))))). lia.
Qed.

Lemma served_weaken (fuel fuel' : nat) (r : outcome unit * world) :
  (fuel <= fuel')%nat -> served fuel r -> served fuel' r.
Proof.
  intros Hle [[Hr Hg] | H]; [left | right; exact H].
  split; [exact Hr|]. eapply growing_weaken; eauto.
Qed.

Lemma growing_base_insert (fuel : nat) (x : entry) (w : world) :
  growing fuel w ->
  exists t', updating (fun t => base_insert t x) w
             = (Ret tt, mkWorld t' (prime_sizes w)) /\
    growing fuel (mkWorld t' (prime_sizes w)).
Proof.
  intros (Hcls & Hct & Hc & Hpos & Hps & Hlen).
  assert (Hsz : sized (self w) = true).
  { destruct Hc as (_ & Hl & _). unfold sized. apply Z.eqb_eq. lia. }
  destruct (insert_cases (self w) x Hsz Hpos)
    as [[t' Ht] | [[Hsh _] | (Hd & _)]].
  - exists t'. unfold updating. rewrite Ht. split; [reflexivity|].
    destruct (base_insert_attributes _ _ _ Ht) as (E1 & E2 & E3).
    unfold growing. simpl. rewrite E1, E2, E3.
    pose proof (base_insert_consistent _ _ _ _ Ht Hc) as Hc'.
    exact (conj Hcls (conj Hct (conj Hc' (conj Hpos (conj Hps Hlen))))).
  - destruct Hc as (Hsh' & _). congruence.
  - contradiction.
Qed.

Lemma for_each_served (fuel : nat) (body : entry -> M unit)
  (l : list entry) (w : world) :
  (forall y w, growing fuel w -> served fuel (body y w)) ->
  growing fuel w -> served fuel (for_each l body w).
Proof.
  intros Hb. revert w. induction l as [|y l IH]; intros w Hw; simpl.
  - left. split; [reflexivity | exact Hw].
  - unfold mbind. specialize (Hb y w Hw).
    destruct (body y w) as [r w1]. unfold served in Hb. simpl in Hb.
    destruct Hb as [[-> Hg] | [-> Hp]].
    + apply IH, Hg.
    + right. split; [reflexivity | exact Hp].
Qed.

Lemma rehash_set_served (fuel : nat) (body : entry -> M unit) (w : world) :
  (forall y w, growing fuel w -> served fuel (body y w)) ->
  growing (S fuel) w -> served fuel (rehash body w).
Proof.
  intros Hb (Hcls & Hct & Hc & Hpos & Hps & Hlen).
  unfold rehash. rewrite Hcls.
  unfold rehash_set, mbind, reading, get_next_size.
  destruct (List.rev (prime_sizes w)) as [|p r] eqn:E.
  - right. simpl. split; [reflexivity|].
    apply (f_equal (@List.rev Z)) in E. rewrite List.rev_involutive in E.
    exact E.
  - assert (Hw : prime_sizes w = List.rev r ++ [p]).
    { apply (f_equal (@List.rev Z)) in E. rewrite List.rev_involutive in E.
      exact E. }
    rewrite Hw in Hps, Hlen. apply Forall_app in Hps as [Hr Hp].
    rewrite length_app in Hlen. simpl in Hlen.
    apply Forall_inv in Hp.
    cbn [self prime_sizes fst snd].
    assert (Hel : exists l, current_elements (self w) = Ret l).
    { destruct Hc as (Hsh & _). unfold current_elements, shaped in *.
      destruct (collision_type (self w)), (table (self w));
        try discriminate; eauto. }
    destruct Hel as [l Hel]. rewrite Hel. cbn [bind self prime_sizes].
    assert (Hi : init (collision_type (self w)) [z (self w); p]
                   (mkWorld (self w) (List.rev r))
                 = (Ret tt,
                    mkWorld (mkTable (cls (self w)) (collision_type (self w))
                               (z (self w)) (z2 (self w)) (c2 (self w)) p 0
                               (fresh (collision_type (self w)) p))
                      (List.rev r))).
    { unfold init. destruct (collision_type (self w)); try reflexivity.
      contradiction. }
    rewrite Hi. apply for_each_served; [exact Hb|].
    unfold growing. cbn [self prime_sizes cls collision_type table_size].
    rewrite List.length_rev in *.
    refine (conj Hcls (conj Hct (conj _ (conj Hp (conj Hr _))))); [|lia].
    unfold consistent, shaped, entries. simpl.
    rewrite fresh_len, fresh_entries. simpl.
    repeat split; try lia. destruct (collision_type (self w)); auto.
Qed.

Lemma dynamic_insert_served (fuel : nat) (x : entry) (w : world) :
  growing fuel w -> served fuel (dynamic_insert fuel x w).
Proof.
  revert x w. induction fuel as [|fuel IH]; intros x w Hw.
  - destruct Hw as (_ & _ & _ & _ & _ & Hl). lia.
  - simpl. unfold mbind at 1.
    destruct (growing_base_insert (S fuel) x w Hw) as (t' & Hu & Hg).
    rewrite Hu. unfold mbind, get_load, reading, load_of.
    cbn [self prime_sizes].
    destruct Hg as (Hcls & Hct & Hc & Hpos & Hps & Hlen).
    simpl in Hpos. destruct (Z.eqb_spec (table_size t') 0); [lia|].
    destruct (overloaded _).
    + apply (served_weaken fuel); [lia|].
      apply rehash_set_served; [exact IH|].
      exact (conj Hcls (conj Hct (conj Hc (conj Hpos (conj Hps Hlen))))).
    + left. split; [reflexivity|].
      exact (conj Hcls (conj Hct (conj Hc (conj Hpos (conj Hps Hlen))))).
Qed.

(** On a dynamic set under "Chain" or "Linear", fed by positive primes,
    [insert] returns with the load below one half and the set fit for the
    next call, unless the primes run out, in which case it raises
    [IndexError]. *)
Lemma dynamic_set_load_bound (x : entry) (w : world) :
  growing (S (length (prime_sizes w))) w ->
  (fst (insert x w) = Ret tt /\
   below_threshold (snd (insert x w)) /\
   growing (S (length (prime_sizes (snd (insert x w))))) (snd (insert x w))) \/
  (fst (insert x w) = Raise IndexError /\
   prime_sizes (snd (insert x w)) = []).
Proof.
  intros Hw. unfold insert.
  destruct Hw as (Hcls & Hrest). rewrite Hcls. simpl is_dynamic. cbv iota.
  pose proof (dynamic_insert_served _ x w (conj Hcls Hrest)) as Hs.
  pose proof (dynamic_insert_below (S (length (prime_sizes w))) x w) as Hb.
  destruct (dynamic_insert (S (length (prime_sizes w))) x w) as [r w'].
  unfold served in Hs. simpl in *. destruct Hs as [[-> Hg] | [-> Hp]]; [left | right; auto].
  split; [reflexivity|]. split; [apply Hb; reflexivity|].
  destruct Hg as (H1 & H2 & H3 & H4 & H5 & _).
  refine (conj H1 (conj H2 (conj H3 (conj H4 (conj H5 _))))). lia.
Qed.

(** The rebuild of a set under "Chain" or "Linear", step by step: the last
    prime is taken, the object is reinitialised with its strategy, its [z]
    and the new size, and the elements it held are passed to [insert] one
    by one in slot order. *)
Lemma rehash_set_steps (body : entry -> M unit) (t : HashTable)
  (ps : list Z) (p : Z) :
  cls t = DynamicHashSet ->
  collision_type t <> Double ->
  shaped t = true ->
  rehash body (mkWorld t (ps ++ [p])) =
  for_each (entries t) body
    (mkWorld (mkTable (cls t) (collision_type t) (z t) (z2 t) (c2 t) p 0
                (fresh (collision_type t) p)) ps).
Proof.
  intros Hcls Hct Hsh. unfold rehash. cbn [self]. rewrite Hcls.
  unfold rehash_set, mbind, reading, get_next_size. cbn [self prime_sizes].
  rewrite List.rev_app_distr. cbn [List.rev app]. rewrite List.rev_involutive.
  cbn [self prime_sizes fst snd].
  assert (Hel : current_elements t = Ret (entries t)).
  { unfold current_elements, entries, shaped in *.
    destruct (collision_type t), (table t); try discriminate; reflexivity. }
  rewrite Hel. cbn [bind self].
  unfold init. cbn [self prime_sizes].
  destruct (collision_type t) eqn:E; simpl; rewrite ?Hcls;
    try reflexivity. congruence.
Qed.

(** * Further properties of the tables *)

(** ** What [find] can return *)

Lemma scan_chain_sound (items : list entry) (key : string) (v : value) :
  scan_chain items key = Some v ->
  exists e, In e items /\ item_matches e key = true /\ v = item_result e.
Proof.
  induction items as [|e items IH]; simpl; [discriminate|].
  destruct (item_matches e key) eqn:E.
  - intros H. inversion H; subst. exists e. auto.
  - intros H. destruct (IH H) as (e' & Hin & Hm & Hv). exists e'. auto.
Qed.

Lemma scan_chain_none (items : list entry) (key : string) :
  scan_chain items key = None <->
  forallb (fun e => negb (item_matches e key)) items = true.
Proof.
  induction items as [|e items IH]; simpl; [tauto|].
  destruct (item_matches e key); simpl; [split; discriminate | exact IH].
Qed.

Lemma occupants_In (c : list (option entry)) (e : entry) :
  In e (occupants c) <-> In (Some e) c.
Proof.
  induction c as [|[e'|] c IH]; simpl; [tauto| |].
  - rewrite IH. split; intros [H|H]; auto; left; congruence.
  - rewrite IH. split; [auto | intros [H|H]; [discriminate | exact H]].
Qed.

Lemma lookup_In {A : Type} (l : list A) (i : nat) (a : A) :
  l !! i = Some a -> In a l.
Proof. intros H. apply list_elem_of_In. eapply list_elem_of_lookup_2, H. Qed.

Lemma find_loop_sound (t : HashTable) (c : list (option entry)) (key : string)
  (step orig_idx : Z) (fuel : nat) (idx : Z) (v : value) :
  find_loop fuel t c key step orig_idx idx = Ret v ->
  v = absent t \/
  exists e, In e (occupants c) /\ item_matches e key = true /\
            v = item_result e.
Proof.
  revert idx. induction fuel as [|fuel IH]; intros idx H; simpl in H;
    [discriminate|].
  destruct (getitem c idx) as [s| |] eqn:Eg; simpl in H; try discriminate.
  destruct (slot_truthy s); [|inversion H; auto].
  destruct s as [item|]; [|inversion H; auto].
  destruct (item_matches item key) eqn:Em.
  - inversion H; subst. right. exists item. split; [|auto].
    apply occupants_In. destruct (getitem_Ret_lookup c idx _ Eg) as [i Hi].
    eapply lookup_In, Hi.
  - destruct (pymod (idx + step) (table_size t)) as [idx'| |];
      simpl in H; try discriminate.
    destruct (orig_idx =? idx'); [inversion H; auto|]. eapply IH, H.
Qed.

Lemma find_fuel_sound (fuel : nat) (t : HashTable) (key : string) (v : value) :
  find_fuel fuel t key = Ret v ->
  v = absent t \/
  exists e, In e (entries t) /\ item_matches e key = true /\
            v = item_result e.
Proof.
  unfold find_fuel, entries. intros H.
  apply bind_Ret in H as (idx & _ & H).
  destruct (collision_type t), (table t) as [b|c]; try discriminate.
  - apply bind_Ret in H as (items & Hi & H). inversion H; subst.
    destruct (scan_chain items key) as [v|] eqn:Es; [|auto].
    right. destruct (scan_chain_sound _ _ _ Es) as (e & Hin & Hm & Hv).
    exists e. split; [|auto]. apply in_concat. exists items. split; [|auto].
    destruct (getitem_Ret_lookup b idx _ Hi) as [i Hl]. eapply lookup_In, Hl.
  - eapply find_loop_sound, H.
  - apply bind_Ret in H as (s & _ & H). eapply find_loop_sound, H.
Qed.

Lemma absent_falsy (t : HashTable) : truthy (absent t) = false.
Proof. unfold absent. destruct (isinstance_HashMap (cls t)); reflexivity. Qed.

(** [find] never makes a result up: what it returns is the absence value
    of the class, or the result of a stored element with the key asked
    for; in particular a truthy result always comes from such an element. *)
Theorem find_returns_stored (t : HashTable) (key : string) (v : value) :
  find t key = Ret v ->
  (v = absent t \/
   exists e, In e (entries t) /\ key_of e = key /\ v = item_result e) /\
  (truthy v = true ->
   exists e, In e (entries t) /\ key_of e = key /\ v = item_result e).
Proof.
  intros H.
  assert (Hs : v = absent t \/
               exists e, In e (entries t) /\ key_of e = key /\
                         v = item_result e).
  { destruct (find_fuel_sound _ _ _ _ H) as [E | (e & Hin & Hm & Hv)];
      [auto|]. right. exists e. split; [exact Hin|]. split; [|exact Hv].
    destruct e; simpl in *; rewrite ?orb_false_r in Hm;
      apply String.eqb_eq in Hm; exact Hm. }
  split; [exact Hs|]. intros Ht. destruct Hs as [E | Hs]; [|exact Hs].
  subst v. rewrite absent_falsy in Ht. discriminate.
Qed.

Lemma find_returns_stored_witness :
  exists e, In e (entries chain_map_a0) /\ key_of e = "a"%string /\
            VInt 0 = item_result e.
Proof.
  destruct (find_returns_stored chain_map_a0 "a" (VInt 0) eq_refl)
    as [[E | H] _]; [discriminate E | exact H].
Defined.

Lemma find_absent_key (t : HashTable) (key : string) :
  well_formed t = true ->
  key_absent t key = true ->
  find t key = Ret (absent t).
Proof.
  intros Hwf Ha. destruct (find_returns t key Hwf) as [v Hv].
  rewrite Hv. f_equal.
  destruct (find_fuel_sound _ _ _ _ Hv) as [E | (e & Hin & Hm & _)]; [exact E|].
  unfold key_absent in Ha. rewrite forallb_forall in Ha.
  specialize (Ha e Hin). rewrite Hm in Ha. discriminate.
Qed.

(** On a well-formed table, [find] of a key that no stored element has
    returns the absence value: [None] from a map, [False] from a set. *)
Theorem find_missing_key (t : HashTable) (key : string) :
  well_formed t = true ->
  key_absent t key = true ->
  find t key = Ret (absent t).
Proof. apply find_absent_key. Qed.

Lemma find_missing_key_witness :
  find chain_map_a0 "fish" = Ret VNone.
Proof.
  apply (find_missing_key chain_map_a0 "fish"); reflexivity.
Defined.

(** ** What [insert] does to the stored elements *)

Lemma concat_append_perm (b : list (list entry)) (i : nat)
  (items : list entry) (x : entry) :
  b !! i = Some items ->
  Permutation (concat (<[ i := items ++ [x] ]> b)) (x :: concat b).
Proof.
  revert i. induction b as [|l b IH]; intros [|i] H; simpl in *;
    try discriminate.
  - inversion H; subst. rewrite <- app_assoc. simpl.
    symmetry. apply Permutation_middle.
  - rewrite (IH i H). symmetry. apply Permutation_middle.
Qed.

Lemma occupants_fill_perm (c : list (option entry)) (i : nat) (x : entry) :
  c !! i = Some None ->
  Permutation (occupants (<[ i := Some x ]> c)) (x :: occupants c).
Proof.
  revert i. induction c as [|s c IH]; intros [|i] H; simpl in *;
    try discriminate.
  - inversion H; subst. reflexivity.
  - destruct s as [e|]; simpl; rewrite (IH i H); [apply perm_swap|reflexivity].
Qed.

(** A returning [insert] either leaves the table as it was, or stores
    exactly the new element: the count goes up by one, and the stored
    elements are the old ones, untouched, and the new one. *)
Theorem insert_stores_exactly (t t' : HashTable) (x : entry) :
  base_insert t x = Ret t' ->
  t' = t \/
  (total_elements t' = total_elements t + 1 /\
   Permutation (entries t') (x :: entries t) /\
   cls t' = cls t /\ collision_type t' = collision_type t /\
   z t' = z t /\ z2 t' = z2 t /\ c2 t' = c2 t /\
   table_size t' = table_size t).
Proof.
  intros H. apply insert_fuel_Ret in H
    as [-> | [(b & i & items & _ & Htb & Hi & ->)
             | (c & i & _ & Htb & Hi & ->)]]; [auto| |]; right.
  - unfold entries. simpl. rewrite Htb.
    repeat split. apply concat_append_perm, Hi.
  - unfold entries. simpl. rewrite Htb.
    repeat split. apply occupants_fill_perm, Hi.
Qed.

Lemma insert_stores_exactly_witness :
  exists t', base_insert chain_set_29 (Key "cat") = Ret t' /\
    (t' = chain_set_29 \/
     total_elements t' = 1 /\ Permutation (entries t') [Key "cat"]).
Proof.
  eexists. split; [reflexivity|].
  destruct (insert_stores_exactly chain_set_29 _ (Key "cat") eq_refl)
    as [E | (Hc & Hp & _)]; [left; exact E | right].
  split; [exact Hc | exact Hp].
Defined.

(** ** What is found stays found *)

Lemma getitem_insert_cases {A : Type} (l : list A) (idx : Z) (i : nat)
  (a b v : A) :
  getitem l idx = Ret a -> l !! i = Some b ->
  getitem (<[ i := v ]> l) idx = Ret a \/
  (a = b /\ getitem (<[ i := v ]> l) idx = Ret v).
Proof.
  unfold getitem. rewrite length_insert. intros Ha Hb.
  destruct (_ && _); [|discriminate].
  set (j := Z.to_nat (if idx <? 0 then idx + Z.of_nat (length l) else idx))
    in *.
  destruct (l !! j) as [a'|] eqn:Ej; inversion Ha; subst a'.
  destruct (Nat.eq_dec i j) as [->|Hne].
  - right. split; [congruence|].
    rewrite list_lookup_insert_eq; [reflexivity|].
    apply lookup_lt_is_Some. eauto.
  - left. rewrite list_lookup_insert_ne by exact Hne. rewrite Ej. reflexivity.
Qed.

Lemma find_loop_stable (t t' : HashTable) (c : list (option entry))
  (i : nat) (x : entry) (key : string) (step orig_idx : Z) (fuel : nat)
  (idx : Z) (v : value) :
  table_size t' = table_size t ->
  c !! i = Some None ->
  truthy v = true ->
  find_loop fuel t c key step orig_idx idx = Ret v ->
  find_loop fuel t' (<[ i := Some x ]> c) key step orig_idx idx = Ret v.
Proof.
  intros Hsz Hi Hv. revert idx.
  induction fuel as [|fuel IH]; intros idx H; simpl in *; [discriminate|].
  destruct (getitem c idx) as [s| |] eqn:Eg; simpl in H; try discriminate.
  assert (Hfalsy : Ret (absent t) = Ret v -> False).
  { intros E. inversion E; subst. rewrite absent_falsy in Hv. discriminate. }
  destruct (slot_truthy s) eqn:Et; [|destruct (Hfalsy H)].
  destruct s as [item|]; [|destruct (Hfalsy H)].
  destruct (getitem_insert_cases c idx i (Some item) None (Some x) Eg Hi)
    as [E | [E _]]; [|discriminate].
  rewrite E. cbn [bind]. rewrite Et.
  destruct (item_matches item key); [exact H|].
  rewrite Hsz.
  destruct (pymod (idx + step) (table_size t)) as [idx'| |];
    simpl in *; try discriminate.
  destruct (orig_idx =? idx'); [destruct (Hfalsy H)|]. apply IH, H.
Qed.

Lemma scan_chain_app (items : list entry) (x : entry) (key : string)
  (v : value) :
  scan_chain items key = Some v -> scan_chain (items ++ [x]) key = Some v.
Proof.
  induction items as [|e items IH]; simpl; [discriminate|].
  destruct (item_matches e key); auto.
Qed.

Lemma find_kept_by_insert (t t' : HashTable) (x : entry) (key : string)
  (v : value) :
  base_insert t x = Ret t' ->
  find t key = Ret v -> truthy v = true ->
  find t' key = Ret v.
Proof.
  intros Hins Hf Hv.
  unfold find, budget in *.
  rewrite (base_insert_size _ _ _ Hins).
  apply insert_fuel_Ret in Hins
    as [-> | [(b & i & items & Hct & Htb & Hi & ->)
             | (c & i & Hp & Htb & Hi & ->)]]; [exact Hf| |].
  - unfold find_fuel in *.
    change (get_slot (with_table t _ _) key) with (get_slot t key).
    destruct (get_slot t key) as [idx| |]; simpl in *; try discriminate.
    rewrite Hct, Htb in *.
    apply bind_Ret in Hf as (items0 & Hg & Hf).
    destruct (scan_chain items0 key) as [v0|] eqn:Es.
    + destruct (getitem_insert_cases b idx i items0 items (items ++ [x]) Hg Hi)
        as [E | [E1 E2]].
      * rewrite E. simpl. rewrite Es. exact Hf.
      * rewrite E2. simpl. subst items0.
        rewrite (scan_chain_app _ _ _ _ Es). exact Hf.
    + inversion Hf; subst. rewrite absent_falsy in Hv. discriminate.
  - unfold find_fuel in *.
    change (get_slot (with_table t _ _) key) with (get_slot t key).
    destruct (get_slot t key) as [idx| |]; simpl in *; try discriminate.
    unfold probing in Hp. rewrite Htb in *.
    destruct (collision_type t); try discriminate.
    + apply (find_loop_stable t); auto.
    + change (secondary_step (with_table t _ _) key)
        with (secondary_step t key).
      destruct (secondary_step t key) as [s| |]; simpl in *; try discriminate.
      apply (find_loop_stable t); auto.
Qed.

Lemma static_inserts_kept (xs : list entry) (w : world) (key : string)
  (v : value) :
  is_dynamic (cls (self w)) = false ->
  find (self w) key = Ret v -> truthy v = true ->
  find (self (inserts xs w)) key = Ret v.
Proof.
  revert w. induction xs as [|x xs IH]; intros w Hst Hf Hv; simpl;
    [exact Hf|].
  unfold insert at 1. rewrite Hst. unfold updating.
  destruct (base_insert (self w) x) as [t'| |] eqn:E; simpl.
  - apply IH; simpl.
    + destruct (base_insert_attributes _ _ _ E) as (-> & _). exact Hst.
    + eapply find_kept_by_insert; eauto.
    + exact Hv.
  - apply IH; auto.
  - apply IH; auto.
Qed.

(** On a static table, what [find] reports with a truthy result it reports
    with the same result after any further [insert] calls: no element is
    displaced, hidden or overwritten. *)
Theorem found_stays_found (xs : list entry) (t : HashTable) (ps : list Z)
  (key : string) (v : value) :
  is_dynamic (cls t) = false ->
  find t key = Ret v ->
  truthy v = true ->
  find (self (inserts xs (mkWorld t ps))) key = Ret v.
Proof.
  intros Hst Hf Hv. apply static_inserts_kept; assumption.
Qed.

Lemma found_stays_found_witness :
  find (self (inserts [Key "dog"; Key "bird"; Key "cat"]
                (mkWorld (self (inserts [Key "cat"]
                                  (mkWorld linear_set_3 []))) [])))
       "cat" = Ret (VBool true).
Proof.
  apply (found_stays_found [Key "dog"; Key "bird"; Key "cat"]); reflexivity.
Defined.

(** ** The shape of a rebuild *)

Lemma init_attributes (ct : strategy) (params : list Z) (w : world) :
  cls (self (snd (init ct params w))) = cls (self w) /\
  prime_sizes (snd (init ct params w)) = prime_sizes w /\
  (fst (init ct params w) = Ret tt ->
   entries (self (snd (init ct params w))) = []) /\
  (fst (init ct params w) <> Ret tt ->
   entries (self (snd (init ct params w))) = entries (self w)).
Proof.
  unfold init, entries. destruct ct.
  - destruct (a <- param params 0;; d <- param params 1;; Ret (a, d))
      as [[a d]| |]; simpl; repeat split; try congruence;
      intros _; apply (fresh_entries Chain).
  - destruct (a <- param params 0;; d <- param params 1;; Ret (a, d))
      as [[a d]| |]; simpl; repeat split; try congruence;
      intros _; apply (fresh_entries Linear).
  - destruct (a <- param params 0;; b <- param params 1;;
              c <- param params 2;; d <- param params 3;; Ret (a, b, c, d))
      as [[[[a b] c] d]| |]; simpl; repeat split; try congruence;
      intros _; apply (fresh_entries Double).
Qed.

Lemma current_elements_entries (t : HashTable) (l : list entry) :
  current_elements t = Ret l -> l = entries t.
Proof.
  unfold current_elements, entries.
  destruct (collision_type t), (table t); intros H; inversion H; reflexivity.
Qed.

(** However the class, a rebuild either raises before it reinserts
    anything, the stored elements and the class being what they were, or
    it empties the object and hands the elements it held to the loop. *)
Lemma rehash_cases (body : entry -> M unit) (w : world) :
  (exists e w', rehash body w = (Raise e, w') /\
     cls (self w') = cls (self w) /\
     entries (self w') = entries (self w) /\
     (length (prime_sizes w') <= length (prime_sizes w))%nat) \/
  (exists w2, rehash body w = for_each (entries (self w)) body w2 /\
     cls (self w2) = cls (self w) /\
     entries (self w2) = [] /\
     (length (prime_sizes w2) < length (prime_sizes w))%nat).
Proof.
  assert (Hpop : forall p r, List.rev (prime_sizes w) = p :: r ->
            (length (List.rev r) < length (prime_sizes w))%nat).
  { intros p r E. rewrite List.length_rev.
    rewrite <- (List.length_rev (prime_sizes w)), E. simpl. lia. }
  unfold rehash.
  assert (Hbase :
    (exists e w', rehash_base body w = (Raise e, w') /\
       cls (self w') = cls (self w) /\
       entries (self w') = entries (self w) /\
       (length (prime_sizes w') <= length (prime_sizes w))%nat) \/
    (exists w2, rehash_base body w = for_each (entries (self w)) body w2 /\
       cls (self w2) = cls (self w) /\
       entries (self w2) = [] /\
       (length (prime_sizes w2) < length (prime_sizes w))%nat)).
  { unfold rehash_base, mbind, reading, put_self, get_next_size.
    destruct (List.rev (prime_sizes w)) as [|p r] eqn:E.
    - left. exists IndexError, w. auto.
    - cbn [self prime_sizes].
      destruct (current_elements (self w)) as [l| |] eqn:El.
      + right. apply current_elements_entries in El. subst l.
        eexists. split; [reflexivity|]. cbn [self prime_sizes cls].
        split; [reflexivity|]. split; [|apply (Hpop p r eq_refl)].
        unfold entries. simpl. apply fresh_entries.
      + left. eexists _, _. split; [reflexivity|]. simpl.
        specialize (Hpop p r eq_refl). repeat split; lia.
      + unfold current_elements in El.
        destruct (collision_type (self w)), (table (self w)); discriminate. }
  destruct (cls (self w)) eqn:Hcls; auto.
  - unfold rehash_set, mbind, reading, get_next_size.
    destruct (List.rev (prime_sizes w)) as [|p r] eqn:E.
    + left. exists IndexError, w. rewrite Hcls. auto.
    + cbn [self prime_sizes].
      destruct (current_elements (self w)) as [l| |] eqn:El.
      * apply current_elements_entries in El. subst l. cbn [bind self].
        destruct (init_attributes (collision_type (self w)) [z (self w); p]
                    (mkWorld (self w) (List.rev r))) as (Hc & Hp & H1 & H2).
        destruct (init (collision_type (self w)) [z (self w); p]
                    (mkWorld (self w) (List.rev r))) as [[[]| |] w2] eqn:Ei;
          simpl in *.
        -- right. exists w2. split; [reflexivity|].
           rewrite Hc, Hp, Hcls. split; [reflexivity|].
           split; [apply H1; reflexivity | apply (Hpop p r eq_refl)].
        -- left. exists e, w2. split; [reflexivity|].
           rewrite Hc, Hp, Hcls. split; [reflexivity|].
           split; [apply H2; discriminate|].
           specialize (Hpop p r eq_refl). lia.
        -- exfalso.
           apply (init_ends (collision_type (self w)) [z (self w); p]
                    (mkWorld (self w) (List.rev r))).
           rewrite Ei. reflexivity.
      * left. eexists _, _. split; [reflexivity|]. simpl.
        specialize (Hpop p r eq_refl). rewrite Hcls. repeat split; lia.
      * unfold current_elements in El.
        destruct (collision_type (self w)), (table (self w)); discriminate.
  - unfold rehash_map, mbind, reading, get_next_size, raise.
    destruct (List.rev (prime_sizes w)) as [|p r] eqn:E.
    + left. exists IndexError, w. rewrite Hcls. auto.
    + cbn [self prime_sizes].
      destruct (current_elements (self w)) as [l| |] eqn:El.
      * left. eexists _, _. split; [reflexivity|]. simpl.
        specialize (Hpop p r eq_refl). rewrite Hcls. repeat split; lia.
      * left. eexists _, _. split; [reflexivity|]. simpl.
        specialize (Hpop p r eq_refl). rewrite Hcls. repeat split; lia.
      * unfold current_elements in El.
        destruct (collision_type (self w)), (table (self w)); discriminate.
Qed.

(** ** Nothing is made up, and the class stays *)

Lemma for_each_keeps_if (P : HashTable -> Prop) (l : list entry)
  (body : entry -> M unit) :
  (forall y, In y l -> keeps P (body y)) -> keeps P (for_each l body).
Proof.
  induction l as [|y l IH]; intros Hb; simpl.
  - apply keeps_mret.
  - apply keeps_mbind.
    + apply Hb. left. reflexivity.
    + intros _. apply IH. intros y' Hy'. apply Hb. right. exact Hy'.
Qed.

Lemma base_insert_within (allowed : list entry) (t t' : HashTable)
  (x : entry) :
  In x allowed -> base_insert t x = Ret t' ->
  entries_within allowed t -> entries_within allowed t'.
Proof.
  intros Hx H Hw.
  apply insert_fuel_Ret in H
    as [-> | [(b & i & items & _ & Htb & Hi & ->)
             | (c & i & _ & Htb & Hi & ->)]]; [exact Hw| |];
    intros e He; unfold entries_within, entries in *; simpl in *;
    rewrite Htb in *.
  - apply (Permutation_in _ (concat_append_perm b i items x Hi)) in He.
    destruct He as [<- | He]; auto.
  - apply (Permutation_in _ (occupants_fill_perm c i x Hi)) in He.
    destruct He as [<- | He]; auto.
Qed.

Lemma rehash_within (allowed : list entry) (body : entry -> M unit) :
  (forall y, In y allowed -> keeps (entries_within allowed) (body y)) ->
  keeps (entries_within allowed) (rehash body).
Proof.
  intros Hb w Hw.
  destruct (rehash_cases body w)
    as [(e & w' & -> & _ & He & _) | (w2 & -> & _ & He & _)].
  - simpl. unfold entries_within. rewrite He. exact Hw.
  - apply for_each_keeps_if.
    + intros y Hy. apply Hb, Hw, Hy.
    + unfold entries_within. rewrite He. intros e [].
Qed.

Lemma dynamic_insert_within (allowed : list entry) (fuel : nat) (x : entry) :
  In x allowed -> keeps (entries_within allowed) (dynamic_insert fuel x).
Proof.
  revert x. induction fuel as [|fuel IH]; intros x Hx; simpl.
  - intros w H. exact H.
  - apply keeps_mbind.
    + apply keeps_updating. intros t t'. apply base_insert_within, Hx.
    + intros _. apply keeps_mbind; [apply keeps_reading|]. intros load.
      destruct (overloaded load).
      * apply rehash_within. intros y Hy. apply IH, Hy.
      * apply keeps_mret.
Qed.

(** Whatever the class and however the call ends, after [insert(x)] every
    stored element is [x] or was stored before: neither an insertion nor a
    rebuild makes an element up or alters one. *)
Theorem insert_invents_nothing (x : entry) (w : world) (e : entry) :
  In e (entries (self (snd (insert x w)))) ->
  e = x \/ In e (entries (self w)).
Proof.
  intros He.
  assert (Hk : keeps (entries_within (x :: entries (self w))) (insert x)).
  { intros w0 H0. unfold insert. destruct (is_dynamic (cls (self w0))).
    - apply dynamic_insert_within; [left; reflexivity | exact H0].
    - revert w0 H0. apply keeps_updating. intros t t'.
      apply base_insert_within. left. reflexivity. }
  assert (H0 : entries_within (x :: entries (self w)) (self w))
    by (intros e' He'; right; exact He').
  destruct (Hk w H0 e He) as [E | E]; auto.
Qed.

Lemma insert_invents_nothing_witness :
  Key "a" = Key "b" \/ In (Key "a") (entries (self dynamic_linear_a)).
Proof.
  apply (insert_invents_nothing (Key "b") dynamic_linear_a (Key "a")).
  simpl. left. reflexivity.
Defined.

Lemma rehash_cls (body : entry -> M unit) (c : klass) :
  (forall y, keeps (fun t => cls t = c) (body y)) ->
  keeps (fun t => cls t = c) (rehash body).
Proof.
  intros Hb w Hw.
  destruct (rehash_cases body w)
    as [(e & w' & -> & Hc & _) | (w2 & -> & Hc & _)].
  - simpl. congruence.
  - apply keeps_for_each; [exact Hb | congruence].
Qed.

Lemma dynamic_insert_cls (c : klass) (fuel : nat) (x : entry) :
  keeps (fun t => cls t = c) (dynamic_insert fuel x).
Proof.
  revert x. induction fuel as [|fuel IH]; intros x; simpl.
  - intros w H. exact H.
  - apply keeps_mbind.
    + apply keeps_updating. intros t t' H <-.
      apply (base_insert_attributes _ _ _ H).
    + intros _. apply keeps_mbind; [apply keeps_reading|]. intros load.
      destruct (overloaded load).
      * apply rehash_cls, IH.
      * apply keeps_mret.
Qed.

Lemma insert_cls (x : entry) (w : world) :
  cls (self (snd (insert x w))) = cls (self w).
Proof.
  unfold insert. destruct (is_dynamic (cls (self w))).
  - apply (dynamic_insert_cls (cls (self w))). reflexivity.
  - apply (keeps_updating (fun t => cls t = cls (self w))); [|reflexivity].
    intros t t' H <-. apply (base_insert_attributes _ _ _ H).
Qed.

(** ** The count of a static table *)

Lemma new_empty (c : klass) (ct : strategy) (params : list Z) (t : HashTable) :
  new c ct params = Ret t ->
  cls t = c /\ collision_type t = ct /\ total_elements t = 0 /\
  entries t = [] /\ param params 0 = Ret (z t) /\
  table_size t = match ct with
                 | Double => match params !! 3%nat with Some d => d | None => 0 end
                 | _ => match params !! 1%nat with Some d => d | None => 0 end
                 end.
Proof.
  unfold new, init, param, entries. destruct ct; simpl;
    repeat (destruct (params !! _); simpl; try discriminate);
    intros H; inversion H; subst; simpl; repeat split;
    first [apply (fresh_entries Chain) | apply (fresh_entries Linear)
          | apply (fresh_entries Double)].
Qed.

(** On a table of a static class, [total_elements] is exactly the number
    of stored elements, after any run of [insert] calls. *)
Theorem static_count_exact (t : HashTable) :
  reachable t ->
  is_dynamic (cls t) = false ->
  total_elements t = Z.of_nat (length (entries t)).
Proof.
  induction 1 as [c ct params t H | t ps x _ IH]; intros Hst.
  - destruct (new_empty _ _ _ _ H) as (_ & _ & -> & -> & _). reflexivity.
  - rewrite insert_cls in Hst. simpl in Hst. specialize (IH Hst).
    unfold insert. simpl. rewrite Hst. unfold updating.
    cbn [self prime_sizes].
    destruct (base_insert t x) as [t'| |] eqn:E; simpl; auto.
    apply insert_fuel_Ret in E
      as [-> | [(b & i & items & _ & Htb & Hi & ->)
               | (c & i & _ & Htb & Hi & ->)]]; [exact IH| |];
      unfold entries in *; simpl; rewrite Htb in IH.
    + rewrite concat_append_length by exact Hi. lia.
    + rewrite occupants_fill_length by exact Hi. lia.
Qed.

Lemma static_count_exact_witness :
  total_elements crowded_chain = Z.of_nat (length (entries crowded_chain)).
Proof.
  apply (static_count_exact crowded_chain).
  - apply (reachable_inserts [Key "a"; Key "b"]).
    apply (reach_new HashSet Chain [31; 1]). reflexivity.
  - reflexivity.
Defined.

(** ** When [insert] accepts an element *)

Lemma linear_probe_covers (t : HashTable) (c : list (option entry))
  (orig_idx : Z) (fuel k : nat) :
  1 <= table_size t ->
  Z.of_nat (length c) = table_size t ->
  0 <= orig_idx < table_size t ->
  (fuel + k = Z.to_nat (table_size t))%nat ->
  insert_loop fuel t c 1 orig_idx (probe_at t 1 orig_idx k) = Ret None ->
  forall j, (k <= j < Z.to_nat (table_size t))%nat ->
    exists e, c !! Z.to_nat (probe_at t 1 orig_idx j) = Some (Some e).
Proof.
  intros Hpos Hlen Horig. revert k.
  induction fuel as [|fuel IH]; intros k Hk H j Hj; [lia|].
  simpl in H.
  destruct (getitem_in_range c (probe_at t 1 orig_idx k)
              (probe_range t c 1 orig_idx Hpos Hlen k)) as (s & Hs & Hl).
  rewrite Hs in H. simpl in H.
  destruct s as [item|]; simpl in H; [|discriminate].
  rewrite (probe_next t c 1 orig_idx Hpos k) in H. simpl in H.
  destruct (Z.eqb_spec (probe_at t 1 orig_idx (S k)) orig_idx) as [E|_].
  - assert (Hlast : S k = Z.to_nat (table_size t)).
    { unfold probe_at in E.
      pose proof (Z.div_mod (orig_idx + Z.of_nat (S k) * 1) (table_size t)
                    ltac:(lia)) as Hd.
      rewrite E in Hd.
      assert (Hq : (orig_idx + Z.of_nat (S k) * 1) / table_size t = 1) by nia.
      rewrite Hq in Hd. lia. }
    replace j with k by lia. eauto.
  - destruct (Nat.eq_dec j k) as [->|Hne]; [eauto|].
    apply (IH (S k)); [lia | exact H | lia].
Qed.

Lemma linear_finds_vacant (t : HashTable) (c : list (option entry))
  (orig_idx : Z) :
  1 <= table_size t ->
  Z.of_nat (length c) = table_size t ->
  0 <= orig_idx < table_size t ->
  existsb is_None c = true ->
  exists p, insert_loop (budget t) t c 1 orig_idx orig_idx = Ret (Some p) /\
            0 <= p < table_size t.
Proof.
  intros Hpos Hlen Horig Hv.
  destruct (insert_loop_budget t c 1 orig_idx Hpos Hlen Horig)
    as ([p|] & Hr & Hp); [exists p; tauto|].
  exfalso. apply existsb_exists in Hv as (s & Hin & Hs).
  destruct s; [discriminate|].
  apply list_elem_of_In, list_elem_of_lookup_1 in Hin as [i Hi].
  pose proof (lookup_lt_Some _ _ _ Hi) as Hlt.
  rewrite <- (probe_start t 1 orig_idx Horig) in Hr at 2.
  set (j := Z.to_nat ((Z.of_nat i - orig_idx) mod table_size t)).
  pose proof (Z.mod_pos_bound (Z.of_nat i - orig_idx) (table_size t)
                ltac:(lia)) as Hb.
  destruct (linear_probe_covers t c orig_idx (budget t) 0 Hpos Hlen Horig
              ltac:(unfold budget; lia) Hr j ltac:(unfold j; lia))
    as [e He].
  assert (Hj : Z.to_nat (probe_at t 1 orig_idx j) = i).
  { unfold probe_at, j. rewrite Z2Nat.id by lia. rewrite Z.mul_1_r.
    rewrite Z.add_mod_idemp_r by lia.
    replace (orig_idx + (Z.of_nat i - orig_idx)) with (Z.of_nat i) by lia.
    rewrite Z.mod_small by lia. apply Nat2Z.id. }
  rewrite Hj in He. congruence.
Qed.

Lemma well_formed_cells (t : HashTable) (c : list (option entry)) :
  well_formed t = true -> table t = Cells c ->
  Z.of_nat (length c) = table_size t.
Proof.
  intros Hwf Htb. apply well_formed_parts in Hwf as (_ & Hsz & _).
  apply sized_len in Hsz. rewrite Htb in Hsz. exact Hsz.
Qed.

Lemma insert_with_room (t : HashTable) (x : entry) (v : value) :
  well_formed t = true ->
  collision_type t = Chain \/
  (collision_type t = Linear /\ has_vacant t = true) ->
  find t (key_of x) = Ret v -> truthy v = false ->
  exists t', base_insert t x = Ret t' /\
             total_elements t' = total_elements t + 1.
Proof.
  intros Hwf Hroom Hf Hv.
  pose proof (well_formed_parts t Hwf) as (Hsh & Hsz & Hpos & _).
  unfold base_insert, insert_fuel. fold (find t (key_of x)).
  rewrite Hf. simpl bind. rewrite Hv.
  destruct (get_slot_range t (key_of x) Hpos) as (idx & Hidx & Hr).
  rewrite Hidx. simpl bind. unfold shaped in Hsh.
  destruct Hroom as [Hct | [Hct Hvac]]; rewrite Hct in *.
  - destruct (table t) as [b|c] eqn:Htb; [|discriminate].
    apply sized_len in Hsz. rewrite Htb in Hsz. simpl in Hsz.
    destruct (getitem_in_range b idx ltac:(lia)) as (items & Hi & _).
    rewrite Hi. simpl bind. rewrite setitem_in_range by lia.
    eexists. split; reflexivity.
  - destruct (table t) as [b|c] eqn:Htb; [discriminate|].
    pose proof (well_formed_cells t c Hwf Htb) as Hlen.
    unfold has_vacant, cells in Hvac. rewrite Htb in Hvac.
    destruct (linear_finds_vacant t c idx Hpos Hlen Hr Hvac)
      as (p & Hl & Hp).
    rewrite Hl. simpl. unfold store.
    rewrite setitem_in_range by lia. eexists. split; reflexivity.
Qed.

(** Under "Chain", and under "Linear" as long as a slot is vacant, an
    element whose key [find] does not report is always stored: the table
    then holds the element beside the old ones, which are untouched, and
    the count goes up by one.  The silent refusal of a probing [insert]
    happens to a "Linear" table only when it is full. *)
Theorem insert_accepts_with_room (t : HashTable) (x : entry) (v : value) :
  well_formed t = true ->
  collision_type t = Chain \/
  (collision_type t = Linear /\ has_vacant t = true) ->
  find t (key_of x) = Ret v ->
  truthy v = false ->
  exists t', base_insert t x = Ret t' /\
             total_elements t' = total_elements t + 1 /\
             In x (entries t') /\
             Permutation (entries t') (x :: entries t).
Proof.
  intros Hwf Hroom Hf Hv.
  destruct (insert_with_room t x v Hwf Hroom Hf Hv) as (t' & E & Hc).
  assert (Hp : Permutation (entries t') (x :: entries t)).
  { pose proof E as H. apply insert_fuel_Ret in H
      as [-> | [(b & i & items & _ & Htb & Hi & ->)
               | (c & i & _ & Htb & Hi & ->)]].
    - lia.
    - unfold entries. simpl. rewrite Htb. apply concat_append_perm, Hi.
    - unfold entries. simpl. rewrite Htb. apply occupants_fill_perm, Hi. }
  exists t'. split; [exact E|]. split; [exact Hc|]. split; [|exact Hp].
  apply (Permutation_in _ (Permutation_sym Hp)). left. reflexivity.
Qed.

Lemma insert_accepts_with_room_witness :
  exists t', base_insert linear_set_empty_key (Key "b") = Ret t' /\
             total_elements t' = 2 /\
             In (Key "b") (entries t') /\
             Permutation (entries t') (Key "b" :: entries linear_set_empty_key).
Proof.
  apply (insert_accepts_with_room linear_set_empty_key (Key "b")
           (VBool false)).
  - reflexivity.
  - right. split; reflexivity.
  - reflexivity.
  - reflexivity.
Defined.

(** ** The supplier of sizes *)

Lemma get_next_size_snoc (t : HashTable) (l : list Z) (p : Z) :
  get_next_size (mkWorld t (l ++ [p])) = (Ret p, mkWorld t l).
Proof.
  unfold get_next_size. cbn [prime_sizes self].
  rewrite List.rev_app_distr. cbn [List.rev app].
  rewrite List.rev_involutive. reflexivity.
Qed.

Lemma next_sizes_prefix (t : HashTable) (l r : list Z) :
  next_sizes (length r) (mkWorld t (l ++ r)) = (Ret (List.rev r), mkWorld t l).
Proof.
  induction r as [|p r IH] using rev_ind.
  - rewrite app_nil_r. reflexivity.
  - rewrite length_app, Nat.add_1_r. cbn [next_sizes]. unfold mbind at 1.
    rewrite app_assoc, get_next_size_snoc. unfold mbind at 1.
    rewrite IH. cbn [mret]. rewrite List.rev_app_distr. reflexivity.
Qed.

(** The supplier hands the sizes out from the end of the list given to
    [set_primes]: [n] calls return the last [n] sizes, last first, and
    leave the rest; once the list is empty the next call raises
    [IndexError] and changes nothing. *)
Theorem supplier_pops_from_the_end (w : world) (l r : list Z) :
  (_ <~ set_primes (l ++ r) ;; next_sizes (length r)) w
    = (Ret (List.rev r), mkWorld (self w) l) /\
  (_ <~ set_primes r ;; _ <~ next_sizes (length r) ;; get_next_size) w
    = (Raise IndexError, mkWorld (self w) []).
Proof.
  split.
  - unfold mbind at 1, set_primes. apply next_sizes_prefix.
  - unfold mbind at 1, set_primes. unfold mbind at 1.
    pose proof (next_sizes_prefix (self w) [] r) as H. simpl in H.
    rewrite H. reflexivity.
Qed.

(** ** Wrapping up the invariants *)

(** Whatever the class and however the calls end, a table keeps the
    storage shape of its strategy, an array of exactly [table_size] slots
    (none for a size below zero), and a count between 0 and the number of
    stored elements. *)
Theorem reachable_table_invariant (t : HashTable) :
  reachable t ->
  shaped t = true /\
  slots_len (table t) = Z.to_nat (table_size t) /\
  0 <= total_elements t <= Z.of_nat (length (entries t)).
Proof. apply reachable_consistent. Qed.

Lemma reachable_table_invariant_witness :
  shaped (self (snd (insert (Key "b") dynamic_double_a))) = true /\
  slots_len (table (self (snd (insert (Key "b") dynamic_double_a)))) = 3%nat.
Proof.
  destruct (reachable_table_invariant
              (self (snd (insert (Key "b") dynamic_double_a)))) as (H1 & H2 & _).
  - apply (reach_insert (self dynamic_double_a) [17; 7] (Key "b")).
    apply (reachable_inserts [Key "a"]).
    apply (reach_new DynamicHashSet Double [31; 37; 2; 3]). reflexivity.
  - split; [exact H1 | exact H2].
Defined.

(** Every [insert] on a reachable table ends, by returning or by raising:
    each probe loop closes, and rebuilds nest no deeper than there are
    primes left, whatever the list of primes. *)
Theorem every_insert_ends (t : HashTable) (ps : list Z) (x : entry) :
  reachable t ->
  exists w', insert x (mkWorld t ps) = (Ret tt, w') \/
             exists e, insert x (mkWorld t ps) = (Raise e, w').
Proof.
  intros Hr. pose proof (insert_ends t ps x Hr) as H.
  destruct (insert x (mkWorld t ps)) as [[[]| |] w']; simpl in H.
  - exists w'. left. reflexivity.
  - exists w'. right. exists e. reflexivity.
  - congruence.
Qed.

Lemma every_insert_ends_witness :
  exists w', insert (Key "b") dynamic_double_a = (Ret tt, w') \/
             exists e, insert (Key "b") dynamic_double_a = (Raise e, w').
Proof.
  apply (every_insert_ends (self dynamic_double_a) [17; 7] (Key "b")).
  apply (reachable_inserts [Key "a"]).
  apply (reach_new DynamicHashSet Double [31; 37; 2; 3]). reflexivity.
Defined.

(** Whenever [insert] returns on a table of a dynamic class, the load it
    leaves is below one half. *)
Theorem dynamic_insert_returns_below_half (x : entry) (w w' : world) (q : Q) :
  is_dynamic (cls (self w)) = true ->
  insert x w = (Ret tt, w') ->
  fst (get_load w') = Ret q ->
  (q < 1 # 2)%Q.
Proof.
  unfold insert. intros Hd H Hq. rewrite Hd in H.
  pose proof (dynamic_insert_below _ x w w' H q Hq) as Ho.
  unfold overloaded in Ho. apply Qnot_le_lt. intros Hle.
  apply Qle_bool_iff in Hle. congruence.
Qed.

Lemma dynamic_insert_returns_below_half_witness :
  (inject_Z 2 / inject_Z 7 < 1 # 2)%Q.
Proof.
  apply (dynamic_insert_returns_below_half (Key "b") dynamic_linear_a
           (snd (insert (Key "b") dynamic_linear_a))); reflexivity.
Defined.

(** On a dynamic set under "Chain" or "Linear", with a positive size and
    positive primes, [insert] returns with the load below one half and the
    set fit for the next call; the only way out by an exception is
    [IndexError] from an empty list of primes. *)
Theorem dynamic_set_keeps_load_bound (x : entry) (w : world) :
  cls (self w) = DynamicHashSet ->
  collision_type (self w) <> Double ->
  reachable (self w) ->
  1 <= table_size (self w) ->
  Forall (fun p => 1 <= p) (prime_sizes w) ->
  (fst (insert x w) = Ret tt /\
   (forall q, fst (get_load (snd (insert x w))) = Ret q -> (q < 1 # 2)%Q) /\
   cls (self (snd (insert x w))) = DynamicHashSet /\
   collision_type (self (snd (insert x w))) <> Double /\
   1 <= table_size (self (snd (insert x w))) /\
   Forall (fun p => 1 <= p) (prime_sizes (snd (insert x w)))) \/
  (fst (insert x w) = Raise IndexError /\
   prime_sizes (snd (insert x w)) = []).
Proof.
  intros Hcls Hct Hr Hpos Hps.
  apply reachable_consistent in Hr.
  destruct (dynamic_set_load_bound x w) as [(H1 & H2 & H3) | H].
  - refine (conj Hcls (conj Hct (conj Hr (conj Hpos (conj Hps _))))). lia.
  - left. split; [exact H1|]. split.
    + intros q Hq. apply Qnot_le_lt. intros Hle.
      apply Qle_bool_iff in Hle. specialize (H2 q Hq).
      unfold overloaded in H2. congruence.
    + destruct H3 as (G1 & G2 & _ & G4 & G5 & _). auto.
  - right. exact H.
Qed.

Lemma dynamic_set_keeps_load_bound_witness :
  fst (insert (Key "b") dynamic_linear_a) = Ret tt \/
  fst (insert (Key "b") dynamic_linear_a) = Raise IndexError.
Proof.
  destruct (dynamic_set_keeps_load_bound (Key "b") dynamic_linear_a)
    as [(H & _) | (H & _)].
  - reflexivity.
  - discriminate.
  - apply (reachable_inserts [Key "a"]).
    apply (reach_new DynamicHashSet Linear [31; 3]). reflexivity.
  - simpl. lia.
  - repeat constructor; lia.
  - left. exact H.
  - right. exact H.
Defined.

(** ** [HashTable.rehash] on a static table *)

Lemma item_matches_key (e : entry) (key : string) :
  item_matches e key = true <-> key_of e = key.
Proof.
  destruct e; simpl; rewrite ?orb_false_r; apply String.eqb_eq.
Qed.

Lemma key_absent_iff (t : HashTable) (key : string) :
  key_absent t key = true <-> ~ In key (keys t).
Proof.
  unfold key_absent, keys. rewrite forallb_forall. split.
  - intros H Hin. apply in_map_iff in Hin as (e & He & Hin).
    specialize (H e Hin). apply negb_true_iff in H.
    apply item_matches_key in He. congruence.
  - intros H e Hin. apply negb_true_iff.
    destruct (item_matches e key) eqn:E; [|reflexivity].
    exfalso. apply H. apply in_map_iff. exists e.
    split; [apply item_matches_key, E | exact Hin].
Qed.

Lemma base_insert_well_formed (t t' : HashTable) (x : entry) :
  base_insert t x = Ret t' -> well_formed t = true -> well_formed t' = true.
Proof.
  intros H Hwf. apply insert_fuel_Ret in H
    as [-> | [(b & i & items & Hct & Htb & Hi & ->)
             | (c & i & Hp & Htb & Hi & ->)]]; [exact Hwf| |];
    unfold well_formed, shaped, sized, probing in *; simpl;
    rewrite Htb in *; simpl in *; rewrite length_insert; exact Hwf.
Qed.

Lemma vacancy_by_count (c : list (option entry)) :
  (length (occupants c) < length c)%nat -> existsb is_None c = true.
Proof.
  induction c as [|[e|] c IH]; simpl; intros H; [lia | apply IH; lia | auto].
Qed.

(** The reinserting loop on a static table under "Chain", or under
    "Linear" with room for all: every element of a list with pairwise
    distinct keys, none of them stored yet, is stored. *)
Lemma static_reinsert_all (l : list entry) (t : HashTable) (ps : list Z) :
  is_dynamic (cls t) = false ->
  well_formed t = true ->
  collision_type t = Chain \/
  (collision_type t = Linear /\
   Z.of_nat (length l + length (entries t)) <= table_size t) ->
  List.NoDup (map key_of l) ->
  (forall e, In e l -> ~ In (key_of e) (keys t)) ->
  exists t', for_each l insert (mkWorld t ps) = (Ret tt, mkWorld t' ps) /\
    well_formed t' = true /\
    cls t' = cls t /\ collision_type t' = collision_type t /\
    z t' = z t /\ z2 t' = z2 t /\ c2 t' = c2 t /\
    table_size t' = table_size t /\
    total_elements t' = total_elements t + Z.of_nat (length l) /\
    Permutation (entries t') (l ++ entries t).
Proof.
  revert t. induction l as [|x l IH]; intros t Hst Hwf Hroom Hnd Hnew.
  - exists t. simpl. repeat split; auto. lia.
  - inversion Hnd as [|? ? Hx Hnd']; subst.
    assert (Hf : find t (key_of x) = Ret (absent t)).
    { apply find_absent_key; [exact Hwf|]. apply key_absent_iff.
      apply Hnew. left. reflexivity. }
    destruct (insert_with_room t x (absent t) Hwf) as (t1 & Hi & Hc);
      [|exact Hf | apply absent_falsy|].
    { destruct Hroom as [Hct | [Hct Hsz]]; [left; exact Hct | right].
      split; [exact Hct|]. unfold has_vacant, cells.
      pose proof (well_formed_parts t Hwf) as (Hsh & _).
      unfold shaped in Hsh. rewrite Hct in Hsh.
      destruct (table t) as [b|c] eqn:Htb; [discriminate|].
      pose proof (well_formed_cells t c Hwf Htb) as Hlen.
      apply vacancy_by_count. unfold entries in Hsz. rewrite Htb in Hsz.
      simpl in Hsz. lia. }
    pose proof (base_insert_well_formed _ _ _ Hi Hwf) as Hwf1.
    assert (Hparts : Permutation (entries t1) (x :: entries t) /\
              cls t1 = cls t /\ collision_type t1 = collision_type t /\
              z t1 = z t /\ z2 t1 = z2 t /\ c2 t1 = c2 t /\
              table_size t1 = table_size t).
    { pose proof Hi as Hi'. apply insert_fuel_Ret in Hi'
        as [-> | [(b & i & items & _ & Htb & Hl & ->)
                 | (c & i & _ & Htb & Hl & ->)]]; [lia| |];
        unfold entries; simpl; rewrite Htb; repeat split.
      - apply concat_append_perm, Hl.
      - apply occupants_fill_perm, Hl. }
    destruct Hparts as (Hperm & E1 & E2 & E3 & E4 & E5 & E6).
    destruct (IH t1) as (t' & Hfe & Hwf' & F1 & F2 & F3 & F4 & F5 & F6 & F7 & F8).
    + congruence.
    + exact Hwf1.
    + rewrite E2, E6. destruct Hroom as [Hct | [Hct Hsz]]; [left; exact Hct|].
      right. split; [exact Hct|].
      rewrite (Permutation_length Hperm). simpl in *. lia.
    + exact Hnd'.
    + intros e He Hin. unfold keys in Hin.
      rewrite (Permutation_map key_of Hperm) in Hin. simpl in Hin.
      destruct Hin as [Hk | Hin].
      * apply Hx. rewrite Hk. apply in_map, He.
      * apply (Hnew e); [right; exact He | exact Hin].
    + exists t'. simpl for_each. unfold mbind.
      unfold insert at 1. cbn [self prime_sizes]. rewrite Hst.
      unfold updating. cbn [self prime_sizes]. rewrite Hi.
      split; [exact Hfe|]. split; [exact Hwf'|].
      repeat split; try congruence.
      * rewrite F7, Hc. simpl length. lia.
      * rewrite F8, Hperm. symmetry. apply Permutation_middle.
Qed.

(** [rehash()] on a static table with pairwise distinct keys, under
    "Chain", or under "Linear" when the new size has room for every
    element: the last prime becomes the size, the hash parameters stay,
    and the table holds exactly the elements it held, counted right. *)
Theorem static_rehash_keeps_elements (t : HashTable) (ps : list Z) (p : Z) :
  is_dynamic (cls t) = false ->
  shaped t = true ->
  collision_type t = Chain \/
  (collision_type t = Linear /\ Z.of_nat (length (entries t)) <= p) ->
  List.NoDup (keys t) ->
  1 <= p ->
  exists t', rehash_method (mkWorld t (ps ++ [p])) = (Ret tt, mkWorld t' ps) /\
    table_size t' = p /\
    cls t' = cls t /\ collision_type t' = collision_type t /\
    z t' = z t /\
    total_elements t' = Z.of_nat (length (entries t)) /\
    Permutation (entries t') (entries t).
Proof.
  intros Hst Hsh Hroom Hnd Hp.
  set (t0 := mkTable (cls t) (collision_type t) (z t) (z2 t) (c2 t) p 0
               (fresh (collision_type t) p)).
  assert (Hown : entries t0 = [])
    by (unfold entries, t0; simpl; apply fresh_entries).
  assert (Hwf0 : well_formed t0 = true).
  { unfold well_formed, shaped, sized, t0. simpl. rewrite fresh_len.
    rewrite Z2Nat.id by lia. rewrite Z.eqb_refl.
    replace (1 <=? p) with true by (symmetry; apply Z.leb_le; exact Hp).
    destruct Hroom as [-> | [-> _]]; reflexivity. }
  destruct (static_reinsert_all (entries t) t0 ps) as (t' & Hfe & _ & F).
  - exact Hst.
  - exact Hwf0.
  - rewrite Hown. simpl. rewrite Nat.add_0_r.
    destruct Hroom as [Hct | [Hct Hsz]]; [left; exact Hct | right].
    split; [exact Hct | exact Hsz].
  - exact Hnd.
  - intros e _. unfold keys. rewrite Hown. intros [].
  - exists t'. destruct F as (F1 & F2 & F3 & _ & _ & F6 & F7 & F8).
    rewrite Hown, app_nil_r in F8. simpl in F6, F7, F1, F2, F3.
    split; [|repeat split; auto].
    unfold rehash_method, rehash.
    destruct (cls t) eqn:Hcls; try discriminate;
      unfold rehash_base, mbind, reading, put_self;
      rewrite get_next_size_snoc; cbn [self prime_sizes bind];
      assert (Hel : current_elements t = Ret (entries t))
        by (unfold current_elements, entries, shaped in *;
            destruct (collision_type t), (table t);
            try discriminate; reflexivity);
      rewrite Hel; cbn [bind self prime_sizes]; rewrite Hcls; exact Hfe.
Qed.

Lemma static_rehash_keeps_elements_witness :
  exists t', rehash_method (mkWorld crowded_chain ([11] ++ [5]))
             = (Ret tt, mkWorld t' [11]) /\
    table_size t' = 5 /\
    Permutation (entries t') (entries crowded_chain).
Proof.
  destruct (static_rehash_keeps_elements crowded_chain [11] 5)
    as (t' & H1 & H2 & _ & _ & _ & _ & H7).
  - reflexivity.
  - reflexivity.
  - left. reflexivity.
  - repeat constructor; simpl; intuition discriminate.
  - lia.
  - exists t'. split; [exact H1|]. split; [exact H2 | exact H7].
Defined.

(** ** The text of a table *)

Lemma chars_app (a b : string) : chars (a ++ b) = chars a ++ chars b.
Proof. induction a as [|c a IH]; simpl; [reflexivity | f_equal; exact IH]. Qed.

Lemma append_assoc (a b c : string) :
  ((a ++ b) ++ c)%string = (a ++ (b ++ c))%string.
Proof. induction a as [|d a IH]; simpl; [reflexivity | f_equal; exact IH]. Qed.

Lemma append_empty (a : string) : (a ++ EmptyString)%string = a.
Proof. induction a as [|d a IH]; simpl; [reflexivity | f_equal; exact IH]. Qed.

Lemma ends_clean_app (a b : string) :
  ends_clean b = true -> ends_clean (a ++ b) = true.
Proof.
  unfold ends_clean. rewrite chars_app, rev_app_distr.
  destruct (List.rev (chars b)); [discriminate | auto].
Qed.

Lemma rstrip_separator (s : string) :
  ends_clean s = true -> rstrip " | " (s ++ " | ") = s.
Proof.
  unfold ends_clean, rstrip. intros H.
  rewrite chars_app, rev_app_distr. cbn [chars list_ascii_of_string List.rev app].
  cbn [drop_leading existsb chars list_ascii_of_string Ascii.eqb Bool.eqb orb].
  destruct (List.rev (chars s)) as [|c l] eqn:E; [discriminate|].
  cbn [drop_leading]. apply negb_true_iff in H.
  cbn [chars list_ascii_of_string] in H. rewrite H.
  rewrite <- E, List.rev_involutive. apply string_of_list_ascii_of_string.
Qed.

Lemma join_ends_clean (sep : string) (parts : list string) :
  parts <> [] -> forallb ends_clean parts = true ->
  ends_clean (join sep parts) = true.
Proof.
  induction parts as [|a rest IH]; intros Hne H; [congruence|].
  simpl in H. apply andb_prop in H as [Ha Hr].
  destruct rest as [|b rest]; [exact Ha|].
  change (join sep (a :: b :: rest))
    with (a ++ sep ++ join sep (b :: rest))%string.
  apply ends_clean_app, ends_clean_app, IH; [discriminate | exact Hr].
Qed.

(** Adding [text ++ sep] slot after slot gives the texts joined by [sep],
    with one more [sep] at the end. *)
Lemma fold_is_join {A : Type} (text : A -> string) (sep : string)
  (slots : list A) (result : string) :
  slots <> [] ->
  fold_left (fun r slot => (r ++ (text slot ++ sep))%string) slots result
  = (result ++ join sep (map text slots) ++ sep)%string.
Proof.
  revert result. induction slots as [|a rest IH]; intros result Hne;
    [congruence|].
  destruct rest as [|b rest].
  - reflexivity.
  - change (fold_left _ (a :: b :: rest) result)
      with (fold_left (fun r slot => (r ++ (text slot ++ sep))%string)
              (b :: rest) (result ++ (text a ++ sep))%string).
    rewrite IH by discriminate.
    change (join sep (map text (a :: b :: rest)))
      with (text a ++ sep ++ join sep (map text (b :: rest)))%string.
    rewrite !append_assoc. reflexivity.
Qed.

Lemma str_entry_clean (repr : value -> string) (x : entry) :
  tidy x = true -> ends_clean (str_entry repr x) = true.
Proof.
  destruct x as [k|k v]; [auto|]. intros _. unfold str_entry.
  do 4 apply ends_clean_app. reflexivity.
Qed.

Lemma rendering (A : Type) (text : A -> string) (slots : list A) :
  forallb (fun slot => ends_clean (text slot)) slots = true ->
  rstrip " | "
    (fold_left (fun r slot => (r ++ (text slot ++ " | "))%string) slots
       EmptyString)
  = join " | " (map text slots).
Proof.
  intros H. destruct slots as [|a rest]; [reflexivity|].
  rewrite fold_is_join by discriminate. cbn [append].
  apply rstrip_separator, join_ends_clean.
  - discriminate.
  - rewrite forallb_forall in *. intros s Hs.
    apply in_map_iff in Hs as (slot & <- & Hin). apply H, Hin.
Qed.

Lemma fold_ext {A : Type} (f g : string -> A -> string) (l : list A)
  (acc : string) :
  (forall r a, f r a = g r a) -> fold_left f l acc = fold_left g l acc.
Proof.
  intros H. revert acc. induction l as [|a l IH]; intros acc; simpl;
    [reflexivity|]. rewrite H. apply IH.
Qed.

(** [__str__] gives the texts of the slots in order, joined by " | ", with
    no separator at the end: the elements of a list joined by " ; ", the
    element of a probed slot, [<EMPTY>] for an empty list or a vacant
    slot.  This holds as long as no stored bare key is empty or ends in a
    space or a bar, which [rstrip] would take away with the separator. *)
Theorem str_joins_the_slots (repr : value -> string) (t : HashTable) :
  shaped t = true ->
  forallb tidy (entries t) = true ->
  str_table repr t = Ret (join " | " (fields repr t)).
Proof.
  intros Hsh Ht. unfold str_table, fields, shaped, entries in *.
  assert (Hb : forall b, forallb tidy (concat b) = true ->
            rstrip " | "
              (fold_left (fun r slot => (r ++ str_bucket repr slot)%string)
                 b EmptyString)
            = join " | "
                (map (fun slot => match slot with
                                  | [] => "<EMPTY>"%string
                                  | _ => join " ; " (map (str_entry repr) slot)
                                  end) b)).
  { intros b Hc. rewrite <- rendering.
    - f_equal. apply fold_ext. intros r [|e l]; reflexivity.
    - rewrite forallb_forall in *. intros [|e l] Hin; [reflexivity|].
      apply join_ends_clean; [discriminate|].
      rewrite forallb_forall. intros s Hs.
      apply in_map_iff in Hs as (x & <- & Hx).
      apply str_entry_clean, Hc, in_concat. eauto. }
  assert (Hc : forall c, forallb tidy (occupants c) = true ->
            rstrip " | "
              (fold_left (fun r slot => (r ++ str_cell repr slot)%string)
                 c EmptyString)
            = join " | "
                (map (fun slot => if slot_truthy slot then
                                    match slot with
                                    | Some x => str_entry repr x
                                    | None => "<EMPTY>"%string
                                    end
                                  else "<EMPTY>"%string) c)).
  { intros c Ho. rewrite <- rendering.
    - f_equal. apply fold_ext. intros r [x|]; unfold str_cell;
        [destruct (slot_truthy (Some x))|]; reflexivity.
    - rewrite forallb_forall in *. intros [x|] Hin; [|reflexivity].
      destruct (slot_truthy (Some x)); [|reflexivity].
      apply str_entry_clean, Ho, occupants_In, Hin. }
  destruct (collision_type t), (table t) as [b|c]; try discriminate;
    f_equal; auto.
Qed.

Lemma str_joins_the_slots_witness :
  str_table (fun _ => "0"%string)
    (self (inserts [Key "cat"; Key "dog"] (mkWorld linear_set_3 [])))
  = Ret "cat | <EMPTY> | dog"%string.
Proof.
  apply (str_joins_the_slots (fun _ => "0"%string)
           (self (inserts [Key "cat"; Key "dog"] (mkWorld linear_set_3 []))));
    reflexivity.
Defined.

Lemma find_after_insert_new_key_witness :
  find (self (inserts [Key "dog"] (mkWorld linear_set_3 []))) "dog"
  = Ret (VBool true).
Proof.
  apply (find_after_insert_new_key linear_set_3 _ (Key "dog"));
    [reflexivity | reflexivity | reflexivity |].
  intros _. split; reflexivity.
Defined.

(** * The library on sorted lists *)

(** ** The order of [<] on strings *)

Lemma ascii_compare_N (a b : ascii) :
  Ascii.compare a b = (N_of_ascii a ?= N_of_ascii b)%N.
Proof. reflexivity. Qed.

Lemma compare_refl (a : string) : String.compare a a = Eq.
Proof.
  induction a as [|c a IH]; simpl; [reflexivity|].
  rewrite ascii_compare_N, N.compare_refl. exact IH.
Qed.

Lemma compare_lt_trans (a b c : string) :
  String.compare a b = Lt -> String.compare b c = Lt ->
  String.compare a c = Lt.
Proof.
  revert b c. induction a as [|x a IH]; intros [|y b] [|z c]; simpl;
    try discriminate; auto.
  rewrite !ascii_compare_N.
  destruct (N.compare_spec (N_of_ascii x) (N_of_ascii y)) as [E1|L1|G1];
    try discriminate;
    destruct (N.compare_spec (N_of_ascii y) (N_of_ascii z)) as [E2|L2|G2];
    try discriminate;
    destruct (N.compare_spec (N_of_ascii x) (N_of_ascii z)) as [E3|L3|G3];
    try lia; auto.
  apply IH.
Qed.

Lemma ltb_lt (a b : string) : (a <? b)%string = true <-> String.compare a b = Lt.
Proof.
  unfold String.ltb. destruct (String.compare a b); split; congruence.
Qed.

Lemma ltb_trans (a b c : string) :
  (a <? b)%string = true -> (b <? c)%string = true -> (a <? c)%string = true.
Proof. rewrite !ltb_lt. apply compare_lt_trans. Qed.

Lemma ltb_irrefl (a : string) : (a <? a)%string = false.
Proof. unfold String.ltb. rewrite compare_refl. reflexivity. Qed.

Lemma ltb_neq (a b : string) : (a <? b)%string = true -> (a =? b)%string = false.
Proof.
  intros H. apply String.eqb_neq. intros ->. rewrite ltb_irrefl in H.
  discriminate.
Qed.

Lemma ltb_asym (a b : string) :
  (a <? b)%string = true -> (b <? a)%string = false.
Proof.
  intros H. apply ltb_lt in H. unfold String.ltb.
  rewrite (String.compare_antisym b a), H. reflexivity.
Qed.

(** [a <= b] and [a != b] leave [a < b]; not [a <= b] leaves [b < a]. *)
Lemma leb_cases (a b : string) :
  ((a <=? b)%string = true ->
   (a =? b)%string = true \/ (a <? b)%string = true) /\
  ((a <=? b)%string = false -> (b <? a)%string = true).
Proof.
  unfold String.leb, String.ltb.
  rewrite (String.compare_antisym b a).
  destruct (String.compare a b) eqn:E; simpl; split; try discriminate; auto.
  intros _. left. apply String.eqb_eq, String.compare_eq_iff, E.
Qed.

(** Of two different strings one is below the other. *)
Lemma ltb_total (a b : string) :
  (a =? b)%string = false -> (a <? b)%string = false ->
  (b <? a)%string = true.
Proof.
  unfold String.ltb. rewrite (String.compare_antisym b a).
  destruct (String.compare a b) eqn:E; simpl; try discriminate; auto.
  apply String.compare_eq_iff in E. subst. rewrite String.eqb_refl.
  discriminate.
Qed.

(** ** Ascending lists *)

Lemma ascending_cons (a : string) (l : list string) :
  ascending (a :: l) = true <->
  (forall x, In x l -> (a <? x)%string = true) /\ ascending l = true.
Proof.
  revert a. induction l as [|b l IH]; intros a.
  - simpl. split; [intros _; split; [intros x []|reflexivity] | reflexivity].
  - change (ascending (a :: b :: l))
      with ((a <? b)%string && ascending (b :: l)).
    rewrite andb_true_iff. split.
    + intros [Hab Hl]. split; [|exact Hl].
      intros x [<-|Hx]; [exact Hab|].
      apply (ltb_trans a b x Hab). apply IH in Hl. apply Hl, Hx.
    + intros [Hall Hl]. split; [apply Hall; left; reflexivity | exact Hl].
Qed.

Lemma ascending_snoc (l : list string) (a : string) :
  ascending l = true -> (forall m, In m l -> (m <? a)%string = true) ->
  ascending (l ++ [a]) = true.
Proof.
  induction l as [|b l IH]; intros Hl Ha; [reflexivity|].
  simpl app. apply ascending_cons. apply ascending_cons in Hl as [Hb Hl].
  split.
  - intros x Hx. apply in_app_or in Hx as [Hx|[<-|[]]].
    + apply Hb, Hx.
    + apply Ha. left. reflexivity.
  - apply IH; [exact Hl|]. intros m Hm. apply Ha. right. exact Hm.
Qed.

Lemma ascending_short (l : list string) :
  (length l <= 1)%nat -> ascending l = true.
Proof. destruct l as [|a [|b l]]; simpl; intros H; auto. lia. Qed.

(** ** [merge] *)

Lemma is_new_precedes (merged rest : list string) (a : string) :
  precedes merged (a :: rest) -> is_new merged a = true.
Proof.
  intros H. unfold is_new. destruct (List.rev merged) as [|m l] eqn:E;
    [reflexivity|].
  apply negb_true_iff, ltb_neq, H; [|left; reflexivity].
  apply in_rev. rewrite E. left. reflexivity.
Qed.

Lemma precedes_snoc (merged rest : list string) (a : string) :
  precedes merged rest ->
  (forall x, In x rest -> (a <? x)%string = true) ->
  precedes (merged ++ [a]) rest.
Proof.
  intros H Ha m x Hm Hx. apply in_app_or in Hm as [Hm|[<-|[]]]; auto.
Qed.

Lemma precedes_tail (merged rest : list string) (a : string) :
  precedes merged (a :: rest) -> precedes merged rest.
Proof. intros H m x Hm Hx. apply H; [exact Hm | right; exact Hx]. Qed.

Lemma precedes_head (merged rest : list string) (a : string) :
  precedes merged (a :: rest) -> forall m, In m merged -> (m <? a)%string = true.
Proof. intros H m Hm. apply H; [exact Hm | left; reflexivity]. Qed.

Lemma merge_rest_sound (rest merged : list string) :
  ascending rest = true -> ascending merged = true ->
  precedes merged rest ->
  ascending (merge_rest rest merged) = true /\
  forall w, In w (merge_rest rest merged) <-> In w merged \/ In w rest.
Proof.
  revert merged. induction rest as [|a rest IH]; intros merged Hr Hm Hp.
  - simpl. split; [exact Hm | intros w; tauto].
  - simpl. rewrite (is_new_precedes merged rest a Hp).
    apply ascending_cons in Hr as [Ha Hr].
    destruct (IH (merged ++ [a]) Hr) as [H1 H2].
    + apply ascending_snoc; [exact Hm | apply (precedes_head _ _ _ Hp)].
    + apply precedes_snoc; [apply (precedes_tail _ _ _ Hp) | exact Ha].
    + split; [exact H1|]. intros w. rewrite H2, in_app_iff. simpl. tauto.
Qed.

Lemma merge_both_sound (left right merged : list string) :
  ascending left = true -> ascending right = true ->
  ascending merged = true ->
  precedes merged left -> precedes merged right ->
  let '(left', right', merged') := merge_both left right merged in
  ascending left' = true /\ ascending right' = true /\
  ascending merged' = true /\
  precedes merged' left' /\ precedes merged' right' /\
  forall w, In w merged' \/ In w left' \/ In w right' <->
            In w merged \/ In w left \/ In w right.
Proof.
  revert right merged. induction left as [|a left IHl]; intros right.
  - intros merged Hl Hr Hm Hpl Hpr. destruct right; simpl; tauto.
  - induction right as [|b right IHr]; intros merged Hl Hr Hm Hpl Hpr.
    + simpl. tauto.
    + cbn [merge_both].
      pose proof (proj1 (ascending_cons a left) Hl) as [Ha Hl'].
      pose proof (proj1 (ascending_cons b right) Hr) as [Hb Hr'].
      destruct (a <=? b)%string eqn:Eab.
      * rewrite (is_new_precedes merged left a Hpl).
        assert (Hm' : ascending (merged ++ [a]) = true)
          by (apply ascending_snoc;
              [exact Hm | apply (precedes_head _ _ _ Hpl)]).
        assert (Hpl' : precedes (merged ++ [a]) left)
          by (apply precedes_snoc;
              [apply (precedes_tail _ _ _ Hpl) | exact Ha]).
        destruct (a =? b)%string eqn:E.
        -- apply String.eqb_eq in E. subst b.
           specialize (IHl right (merged ++ [a]) Hl' Hr' Hm' Hpl').
           destruct (merge_both left right (merged ++ [a])) as [[l' r'] m'].
           destruct IHl as (H1 & H2 & H3 & H4 & H5 & H6).
           { apply precedes_snoc;
               [apply (precedes_tail _ _ _ Hpr) | exact Hb]. }
           repeat split; auto; intros Hw.
           ++ apply H6 in Hw. rewrite in_app_iff in Hw. simpl in *. tauto.
           ++ apply H6. rewrite in_app_iff. simpl in *. tauto.
        -- assert (Hlt : (a <? b)%string = true).
           { destruct (proj1 (leb_cases a b) Eab) as [E'|E']; congruence. }
           specialize (IHl (b :: right) (merged ++ [a]) Hl' Hr Hm' Hpl').
           destruct (merge_both left (b :: right) (merged ++ [a]))
             as [[l' r'] m'].
           destruct IHl as (H1 & H2 & H3 & H4 & H5 & H6).
           { apply precedes_snoc; [exact Hpr|].
             intros x [<-|Hx]; [exact Hlt|].
             apply (ltb_trans a b x Hlt), Hb, Hx. }
           repeat split; auto; intros Hw.
           ++ apply H6 in Hw. rewrite in_app_iff in Hw. simpl in *. tauto.
           ++ apply H6. rewrite in_app_iff. simpl in *. tauto.
      * rewrite (is_new_precedes merged right b Hpr).
        assert (Hlt : (b <? a)%string = true)
          by (apply (proj2 (leb_cases a b)), Eab).
        specialize (IHr (merged ++ [b]) Hl Hr').
        change ((fix go (right0 merged0 : list string) {struct right0} :
                   list string * list string * list string :=
                   match right0 with
                   | [] => (a :: left, right0, merged0)
                   | b0 :: right' =>
                       if (a <=? b0)%string
                       then
                         if is_new merged0 a
                         then
                           if (a =? b0)%string
                           then merge_both left right' (merged0 ++ [a])
                           else merge_both left right0 (merged0 ++ [a])
                         else merge_both left right0 merged0
                       else
                         if is_new merged0 b0
                         then go right' (merged0 ++ [b0])
                         else go right' merged0
                   end) right (merged ++ [b]))
          with (merge_both (a :: left) right (merged ++ [b])).
        destruct (merge_both (a :: left) right (merged ++ [b]))
          as [[l' r'] m'].
        destruct IHr as (H1 & H2 & H3 & H4 & H5 & H6).
        { apply ascending_snoc;
            [exact Hm | apply (precedes_head _ _ _ Hpr)]. }
        { apply precedes_snoc; [exact Hpl|].
          intros x [<-|Hx]; [exact Hlt|].
          apply (ltb_trans b a x Hlt), Ha, Hx. }
        { apply precedes_snoc;
            [apply (precedes_tail _ _ _ Hpr) | exact Hb]. }
        repeat split; auto; intros Hw.
        -- apply H6 in Hw. rewrite in_app_iff in Hw. simpl in *. tauto.
        -- apply H6. rewrite in_app_iff. simpl in *. tauto.
Qed.

Lemma precedes_nil (rest : list string) : precedes [] rest.
Proof. intros m x []. Qed.

(** The first loop runs until one side is used up. *)
Lemma merge_both_uses_up (left right merged : list string) :
  let '(left', right', _) := merge_both left right merged in
  left' = [] \/ right' = [].
Proof.
  revert right merged. induction left as [|a left IHl]; intros right.
  - intros merged. destruct right; simpl; auto.
  - induction right as [|b right IHr]; intros merged; [simpl; auto|].
    cbn [merge_both].
    destruct (a <=? b)%string.
    + destruct (is_new merged a); [destruct (a =? b)%string|]; apply IHl.
    + destruct (is_new merged b); [exact (IHr (merged ++ [b])) | exact (IHr merged)].
Qed.

Lemma merge_sound (left right : list string) :
  ascending left = true -> ascending right = true ->
  ascending (merge left right) = true /\
  forall w, In w (merge left right) <-> In w left \/ In w right.
Proof.
  intros Hl Hr. unfold merge.
  pose proof (merge_both_sound left right [] Hl Hr eq_refl
                (precedes_nil left) (precedes_nil right)) as H.
  pose proof (merge_both_uses_up left right []) as Hempty.
  destruct (merge_both left right []) as [[l' r'] m'].
  destruct H as (H1 & H2 & H3 & H4 & H5 & H6).
  destruct (merge_rest_sound l' m' H1 H3 H4) as [G1 G2].
  destruct (merge_rest_sound r' (merge_rest l' m') H2 G1) as [K1 K2].
  - intros m x Hm Hx. apply G2 in Hm as [Hm|Hm]; [apply H5; assumption|].
    destruct Hempty; subst; contradiction.
  - split; [exact K1|]. intros w. rewrite K2, G2.
    specialize (H6 w). simpl in H6. tauto.
Qed.

(** ** [mergesort_words] *)

Lemma halves (n : nat) :
  (2 <= n)%nat -> (1 <= n / 2 < n)%nat.
Proof.
  intros H. pose proof (Nat.div_mod_eq n 2) as E.
  pose proof (Nat.mod_upper_bound n 2 ltac:(lia)). lia.
Qed.

Lemma mergesort_fuel_sound (fuel : nat) (lst : list string) :
  (length lst < fuel)%nat ->
  exists out, mergesort_fuel fuel lst = Done out /\
    ascending out = true /\
    forall w, In w out <-> In w lst.
Proof.
  revert lst. induction fuel as [|fuel IH]; intros lst Hf; [lia|].
  cbn [mergesort_fuel]. destruct (Nat.leb_spec (length lst) 1) as [Hs|Hs].
  - exists lst. split; [reflexivity|].
    split; [apply ascending_short, Hs | tauto].
  - pose proof (halves (length lst) ltac:(lia)) as Hh.
    destruct (IH (firstn (length lst / 2) lst)) as (o1 & E1 & A1 & M1).
    { rewrite length_firstn. lia. }
    destruct (IH (skipn (length lst / 2) lst)) as (o2 & E2 & A2 & M2).
    { rewrite length_skipn. lia. }
    rewrite E1, E2. cbn [abind].
    destruct (merge_sound o1 o2 A1 A2) as [Ha Hm].
    exists (merge o1 o2). split; [reflexivity|]. split; [exact Ha|].
    intros w. rewrite Hm, M1, M2.
    rewrite <- in_app_iff, firstn_skipn. tauto.
Qed.

Lemma mergesort_words_sound (lst : list string) :
  exists out, mergesort_words lst = Done out /\
    ascending out = true /\
    forall w, In w out <-> In w lst.
Proof. apply mergesort_fuel_sound. lia. Qed.

(** ** The binary search *)

Lemma ascending_lookup (l : list string) (i j : nat) (a b : string) :
  ascending l = true -> l !! i = Some a -> l !! j = Some b ->
  (i < j)%nat -> (a <? b)%string = true.
Proof.
  revert i j. induction l as [|x l IH]; intros i j Hl Hi Hj Hij;
    [discriminate|].
  apply ascending_cons in Hl as [Hx Hl].
  destruct j as [|j]; [lia|]. simpl in Hj.
  destruct i as [|i]; simpl in Hi.
  - inversion Hi; subst. apply Hx. eapply lookup_In, Hj.
  - apply (IH i j); auto. lia.
Qed.

Lemma midpoint (s e : Z) : s <= e -> s <= (s + e) / 2 <= e.
Proof.
  intros H. pose proof (Z.div_mod (s + e) 2 ltac:(lia)) as E.
  pose proof (Z.mod_pos_bound (s + e) 2 ltac:(lia)). lia.
Qed.

Lemma search_loop_sound (words : list string) (key : string) (fuel : nat)
  (s e : Z) (mid : option Z) :
  ascending words = true ->
  0 <= s -> e < Z.of_nat (length words) ->
  (Z.to_nat (e - s + 1) < fuel)%nat ->
  (forall i w, 0 <= i < s -> words !! Z.to_nat i = Some w ->
               (w <? key)%string = true) ->
  (forall i w, e < i -> words !! Z.to_nat i = Some w ->
               (key <? w)%string = true) ->
  exists b mid', search_loop fuel words key s e mid = Done (b, mid') /\
    (b = true <-> In key words) /\
    (b = true -> exists m, mid' = Some m /\ getitem words m = Ret key) /\
    (mid' = mid \/
     exists m, mid' = Some m /\ 0 <= m < Z.of_nat (length words)) /\
    (s <= e ->
     exists m, mid' = Some m /\ 0 <= m < Z.of_nat (length words)).
Proof.
  intros Hasc. revert s e mid.
  induction fuel as [|fuel IH]; intros s e mid Hs He Hf Hlo Hhi; [lia|].
  cbn [search_loop]. destruct (Z.leb_spec s e) as [Hse|Hse].
  - pose proof (midpoint s e Hse) as Hm.
    set (m := (s + e) / 2) in *.
    destruct (getitem_in_range words m ltac:(lia)) as (word & Hg & Hl).
    rewrite Hg. cbn [lift abind].
    destruct (word =? key)%string eqn:Eq.
    + apply String.eqb_eq in Eq. subst word.
      exists true, (Some m). split; [reflexivity|].
      split; [split; [intros _; eapply lookup_In, Hl | reflexivity]|].
      split; [intros _; exists m; auto|].
      split; [right|intros _]; exists m; split; auto; lia.
    + destruct (word <? key)%string eqn:Elt.
      * destruct (IH (m + 1) e (Some m)) as (b & mid' & E & H1 & H2 & H3 & H4);
          try lia.
        { intros i w Hi Hw.
          destruct (Z.eq_dec i m) as [->|Hne]; [congruence|].
          apply (ltb_trans w word key); [|exact Elt].
          apply (ascending_lookup words (Z.to_nat i) (Z.to_nat m));
            auto; lia. }
        { exact Hhi. }
        exists b, mid'. split; [exact E|]. split; [exact H1|].
        split; [exact H2|].
        assert (Hr : exists m0, mid' = Some m0 /\
                       0 <= m0 < Z.of_nat (length words)).
        { destruct H3 as [-> | H3]; [exists m; split; auto; lia | exact H3]. }
        split; [right; exact Hr | intros _; exact Hr].
      * pose proof (ltb_total word key Eq Elt) as Hgt.
        destruct (IH s (m - 1) (Some m)) as (b & mid' & E & H1 & H2 & H3 & H4);
          try lia.
        { exact Hlo. }
        { intros i w Hi Hw.
          destruct (Z.eq_dec i m) as [->|Hne]; [congruence|].
          destruct (Z_lt_le_dec i m) as [Hlt|Hge]; [lia|].
          destruct (Z_lt_le_dec e i) as [Hei|Hie]; [apply (Hhi i w Hei Hw)|].
          apply (ltb_trans key word w Hgt).
          apply (ascending_lookup words (Z.to_nat m) (Z.to_nat i));
            auto; lia. }
        exists b, mid'. split; [exact E|]. split; [exact H1|].
        split; [exact H2|].
        assert (Hr : exists m0, mid' = Some m0 /\
                       0 <= m0 < Z.of_nat (length words)).
        { destruct H3 as [-> | H3]; [exists m; split; auto; lia | exact H3]. }
        split; [right; exact Hr | intros _; exact Hr].
  - exists false, mid. split; [reflexivity|]. split.
    + split; [discriminate|]. intros Hin. exfalso.
      apply list_elem_of_In, list_elem_of_lookup_1 in Hin as [i Hi].
      pose proof (lookup_lt_Some _ _ _ Hi) as Hlt.
      destruct (Z_lt_le_dec (Z.of_nat i) s) as [Hb|Hb].
      * pose proof (Hlo (Z.of_nat i) key ltac:(lia)) as H.
        rewrite Nat2Z.id in H. specialize (H Hi).
        rewrite ltb_irrefl in H. discriminate.
      * pose proof (Hhi (Z.of_nat i) key ltac:(lia)) as H.
        rewrite Nat2Z.id in H. specialize (H Hi).
        rewrite ltb_irrefl in H. discriminate.
    + split; [discriminate|]. split; [left; reflexivity | lia].
Qed.

Lemma binary_search_sound (words : list string) (key : string)
  (mid : option Z) :
  ascending words = true ->
  exists b mid', binary_search words key mid = Done (b, mid') /\
    (b = true <-> In key words) /\
    (b = true -> exists m, mid' = Some m /\ getitem words m = Ret key) /\
    (mid' = mid \/
     exists m, mid' = Some m /\ 0 <= m < Z.of_nat (length words)) /\
    (words <> [] ->
     exists m, mid' = Some m /\ 0 <= m < Z.of_nat (length words)).
Proof.
  intros Hasc. unfold binary_search.
  assert (Hlo : forall i w, 0 <= i < 0 -> words !! Z.to_nat i = Some w ->
                  (w <? key)%string = true) by (intros i w Hi; lia).
  assert (Hhi : forall i w, Z.of_nat (length words) - 1 < i ->
                  words !! Z.to_nat i = Some w ->
                  (key <? w)%string = true).
  { intros i w Hi Hw. apply lookup_lt_Some in Hw. lia. }
  destruct (search_loop_sound words key (S (length words)) 0
              (Z.of_nat (length words) - 1) mid Hasc
              ltac:(lia) ltac:(lia) ltac:(lia) Hlo Hhi)
    as (b & mid' & E & H1 & H2 & H3 & H4).
  exists b, mid'. split; [exact E|]. split; [exact H1|].
  split; [exact H2|]. split; [exact H3|].
  intros Hne. apply H4. destruct words; [congruence | simpl; lia].
Qed.

(** ** [MuskLibrary.__init__] *)

Lemma ascending_lookup_inj (l : list string) (i j : nat) (a : string) :
  ascending l = true -> l !! i = Some a -> l !! j = Some a -> i = j.
Proof.
  intros Hl Hi Hj. destruct (Nat.lt_trichotomy i j) as [H|[H|H]]; [|exact H|].
  - pose proof (ascending_lookup l i j a a Hl Hi Hj H) as E.
    rewrite ltb_irrefl in E. discriminate.
  - pose proof (ascending_lookup l j i a a Hl Hj Hi H) as E.
    rewrite ltb_irrefl in E. discriminate.
Qed.

Lemma ascending_NoDup (l : list string) : ascending l = true -> List.NoDup l.
Proof.
  induction l as [|a l IH]; intros H; [constructor|].
  apply ascending_cons in H as [Ha Hl]. constructor; [|apply IH, Hl].
  intros Hin. specialize (Ha a Hin). rewrite ltb_irrefl in Ha. discriminate.
Qed.

Lemma In_lookup {A : Type} (l : list A) (a : A) :
  In a l -> exists i, l !! i = Some a.
Proof. intros H. apply list_elem_of_In, list_elem_of_lookup_1 in H. exact H. Qed.

Lemma NoDup_lookup_inj {A : Type} (l : list A) (i j : nat) (a : A) :
  List.NoDup l -> l !! i = Some a -> l !! j = Some a -> i = j.
Proof.
  intros Hnd. revert i j. induction Hnd as [|x l Hx Hnd IH]; intros i j Hi Hj;
    [discriminate|].
  destruct i as [|i], j as [|j]; simpl in *; auto.
  - inversion Hi; subst. exfalso. apply Hx. eapply lookup_In, Hj.
  - inversion Hj; subst. exfalso. apply Hx. eapply lookup_In, Hi.
Qed.

Lemma getitem_at {A : Type} (l : list A) (i : nat) (a : A) :
  l !! i = Some a -> getitem l (Z.of_nat i) = Ret a.
Proof.
  intros H. pose proof (lookup_lt_Some _ _ _ H) as Hlt.
  destruct (getitem_in_range l (Z.of_nat i) ltac:(lia)) as (b & E & Hb).
  rewrite Nat2Z.id in Hb. congruence.
Qed.

(** A successful search of an ascending list stops at the position of the
    key. *)
Lemma binary_search_at (words : list string) (key : string) (mid : option Z)
  (pos : nat) :
  ascending words = true -> words !! pos = Some key ->
  binary_search words key mid = Done (true, Some (Z.of_nat pos)).
Proof.
  intros Hasc Hpos.
  destruct (binary_search_sound words key mid Hasc)
    as (b & mid' & E & H1 & H2 & _ & H4).
  assert (Hin : In key words) by (eapply lookup_In, Hpos).
  assert (b = true) as -> by (apply H1, Hin).
  destruct (H2 eq_refl) as (m & -> & Hm).
  destruct H4 as (m' & Em & Hr); [intros ->; inversion Hin|].
  inversion Em; subst m'.
  destruct (getitem_in_range words m Hr) as (a & Ea & Hl).
  assert (a = key) by congruence. subst a.
  rewrite (ascending_lookup_inj words _ _ key Hasc Hpos Hl) in *.
  rewrite Z2Nat.id by lia. exact E.
Qed.

Section Rounds.

Variable titles : list string.
Variable given : list (list string).
Variable sorted : list string.
Variable inv : nat -> MuskLibrary -> Prop.

Hypothesis given_length : length given = length titles.
Hypothesis sorted_ascending : ascending sorted = true.
Hypothesis sorted_short : (length sorted <= length titles)%nat.
Hypothesis inv_shape : forall k lib, inv k lib ->
  unsorted_books lib = titles /\ book_titles lib = sorted /\
  length (texts lib) = length titles /\
  length (distincts lib) = length titles.
Hypothesis inv_round : forall k lib title text,
  inv k lib -> titles !! k = Some title -> given !! k = Some text ->
  exists m sd,
    sorted !! m = Some title /\
    mergesort_words text = Done sd /\
    inv (S k)
      (mkMusk (unsorted_books lib)
         (<[ m := Some text ]> (texts lib))
         (<[ m := Some sd ]> (distincts lib))
         (book_titles lib)).

Lemma init_loop_keeps (rounds : nat) :
  forall (k : nat) (lib : MuskLibrary) (mid : option Z),
    (k + rounds = length titles)%nat ->
    inv k lib ->
    exists lib',
      init_loop rounds (Z.of_nat k) given lib mid = Done lib' /\
      inv (length titles) lib'.
Proof.
  induction rounds as [|rounds IH]; intros k lib mid Hk Hf.
  - exists lib. split; [reflexivity|]. replace (length titles) with k by lia.
    exact Hf.
  - destruct (lookup_lt_is_Some_2 titles k ltac:(lia)) as (title & Ht).
    destruct (lookup_lt_is_Some_2 given k ltac:(lia)) as (text & Hg).
    destruct (inv_round k lib title text Hf Ht Hg)
      as (m & sd & Hm & Esd & Hf').
    destruct (inv_shape k lib Hf) as (Hu & Hb & Hlt & Hld).
    pose proof (lookup_lt_Some _ _ _ Hm) as Hlt'.
    cbn [init_loop]. rewrite (getitem_at _ _ _ Hg). cbn [lift abind].
    rewrite Hu, (getitem_at _ _ _ Ht). cbn [lift abind].
    rewrite Hb, (binary_search_at sorted title mid m sorted_ascending Hm).
    cbn [abind snd bound].
    rewrite (setitem_in_range (texts lib)) by lia. cbn [lift abind].
    rewrite Esd. cbn [abind].
    rewrite (setitem_in_range (distincts lib)) by lia. cbn [lift abind].
    rewrite Nat2Z.id.
    replace (Z.of_nat k + 1) with (Z.of_nat (S k)) by lia.
    rewrite Hu, Hb in Hf'.
    apply IH; [lia | exact Hf'].
Qed.

End Rounds.

Section Init.

Variable titles : list string.
Variable given : list (list string).
Variable sorted : list string.

Hypothesis titles_distinct : List.NoDup titles.
Hypothesis given_length : length given = length titles.
Hypothesis sorted_ascending : ascending sorted = true.
Hypothesis sorted_same : forall w, In w sorted <-> In w titles.

Lemma sorted_length : length sorted = length titles.
Proof.
  apply Permutation_length, Stdlib.Sorting.Permutation.NoDup_Permutation;
    [apply ascending_NoDup, sorted_ascending | exact titles_distinct
    | exact sorted_same].
Qed.

Lemma init_round (k : nat) (lib : MuskLibrary) (title : string)
  (text : list string) :
  filled titles given sorted k lib ->
  titles !! k = Some title -> given !! k = Some text ->
  exists m sd,
    sorted !! m = Some title /\
    mergesort_words text = Done sd /\
    filled titles given sorted (S k)
      (mkMusk (unsorted_books lib)
         (<[ m := Some text ]> (texts lib))
         (<[ m := Some sd ]> (distincts lib))
         (book_titles lib)).
Proof.
  intros (Hu & Hb & Ht & Hd & Hf) Hk Hg.
  destruct (In_lookup sorted title) as (m & Hm);
    [apply sorted_same; eapply lookup_In, Hk|].
  destruct (mergesort_words_sound text) as (sd & Esd & Hasc & Hsame).
  exists m, sd. refine (conj Hm (conj Esd _)).
  pose proof (lookup_lt_Some _ _ _ Hm) as Hlt. rewrite sorted_length in Hlt.
  unfold filled. cbn [unsorted_books book_titles texts distincts].
  rewrite !length_insert.
  refine (conj Hu (conj Hb (conj Ht (conj Hd _)))).
  intros pos j title' Hpos Hj Hlt'.
  destruct (Nat.eq_dec j k) as [->|Hne].
  - assert (title' = title) by congruence. subst title'.
    rewrite (ascending_lookup_inj sorted pos m title sorted_ascending Hpos Hm).
    exists text, sd. rewrite !list_lookup_insert_eq by lia. auto.
  - destruct (Hf pos j title' Hpos Hj ltac:(lia))
      as (text' & sd' & G1 & G2 & G3 & G4).
    exists text', sd'.
    assert (pos <> m).
    { intros ->. assert (title' = title) by congruence. subst title'.
      apply Hne. eapply NoDup_lookup_inj; eauto. }
    rewrite !list_lookup_insert_ne by auto. auto.
Qed.

Lemma init_loop_filled (rounds : nat) :
  forall (k : nat) (lib : MuskLibrary) (mid : option Z),
    (k + rounds = length titles)%nat ->
    filled titles given sorted k lib ->
    exists lib',
      init_loop rounds (Z.of_nat k) given lib mid = Done lib' /\
      filled titles given sorted (length titles) lib'.
Proof.
  apply (init_loop_keeps titles given sorted (filled titles given sorted)).
  - exact given_length.
  - exact sorted_ascending.
  - rewrite sorted_length. lia.
  - intros k lib (Hu & Hb & Ht & Hd & _). auto.
  - exact init_round.
Qed.

End Init.

Lemma filled_built (titles : list string) (given : list (list string))
  (sorted : list string) (lib : MuskLibrary) :
  List.NoDup titles ->
  ascending sorted = true -> (forall w, In w sorted <-> In w titles) ->
  filled titles given sorted (length titles) lib ->
  built titles given lib.
Proof.
  intros Hnd Hasc Hsame (Hu & Hb & Ht & Hd & Hf).
  unfold built. rewrite Hb.
  refine (conj Hasc (conj Hsame (conj _ (conj Hd _)))).
  - apply sorted_length; assumption.
  - intros pos title Hpos.
    destruct (In_lookup titles title) as (j & Hj);
      [apply Hsame; eapply lookup_In, Hpos|].
    destruct (Hf pos j title Hpos Hj (lookup_lt_Some _ _ _ Hj))
      as (text & sd & G). exists j, text, sd. auto.
Qed.

Lemma musk_library_sound (titles : list string) (given : list (list string)) :
  List.NoDup titles -> length given = length titles ->
  exists lib,
    musk_library titles given = Done lib /\ built titles given lib.
Proof.
  intros Hnd Hlen.
  destruct (mergesort_words_sound titles) as (sorted & Es & Hasc & Hsame).
  unfold musk_library. rewrite Es. cbn [abind].
  destruct (init_loop_filled titles given sorted Hnd Hlen Hasc Hsame
              (length titles) 0%nat
              (mkMusk titles (replicate (length titles) None)
                 (replicate (length titles) None) sorted) None)
    as (lib & E & Hf).
  - lia.
  - unfold filled. cbn [unsorted_books book_titles texts distincts].
    rewrite !length_replicate.
    refine (conj eq_refl (conj eq_refl (conj eq_refl (conj eq_refl _)))).
    intros ? ? ? _ _ H. lia.
  - exists lib. split; [exact E|].
    eapply filled_built; eauto.
Qed.

(** ** Queries on a library built from distinct titles *)

Lemma same_elements_length (a b : list string) :
  List.NoDup a -> List.NoDup b -> (forall w, In w a <-> In w b) ->
  length a = length b.
Proof.
  intros Ha Hb H.
  apply Permutation_length, Stdlib.Sorting.Permutation.NoDup_Permutation;
    assumption.
Qed.

Lemma built_slot (titles : list string) (given : list (list string))
  (lib : MuskLibrary) (j : nat) (title : string) (text : list string) :
  List.NoDup titles -> built titles given lib ->
  titles !! j = Some title -> given !! j = Some text ->
  exists pos sd,
    book_titles lib !! pos = Some title /\
    texts lib !! pos = Some (Some text) /\
    distincts lib !! pos = Some (Some sd) /\
    ascending sd = true /\
    forall w, In w sd <-> In w text.
Proof.
  intros Hnd (Hasc & Hsame & Hlen & Hd & Hslots) Hj Hg.
  destruct (In_lookup (book_titles lib) title) as (pos & Hpos);
    [apply Hsame; eapply lookup_In, Hj|].
  destruct (Hslots pos title Hpos) as (j' & text' & sd & G1 & G2 & G3 & G4 & G5).
  assert (j' = j) by (eapply NoDup_lookup_inj; eauto). subst j'.
  assert (text' = text) by congruence. subst text'.
  exists pos, sd. auto.
Qed.

Lemma distinct_words_built (titles : list string) (given : list (list string))
  (lib : MuskLibrary) (j : nat) (title : string) (text : list string) :
  List.NoDup titles -> built titles given lib ->
  titles !! j = Some title -> given !! j = Some text ->
  exists sd,
    distinct_words lib title = Done (Some sd) /\
    ascending sd = true /\
    forall w, In w sd <-> In w text.
Proof.
  intros Hnd Hb Hj Hg.
  destruct (built_slot titles given lib j title text Hnd Hb Hj Hg)
    as (pos & sd & Hpos & _ & Hsd & Hasc & Hsame).
  exists sd. split; [|auto].
  unfold distinct_words.
  rewrite (binary_search_at _ _ None pos (proj1 Hb) Hpos).
  cbn [abind snd bound]. rewrite (getitem_at _ _ _ Hsd). reflexivity.
Qed.

Lemma existsb_eqb_In (keyword : string) (words : list string) :
  existsb (String.eqb keyword) words = true <-> In keyword words.
Proof.
  rewrite existsb_exists. split.
  - intros (x & Hx & E). apply String.eqb_eq in E. subst. exact Hx.
  - intros H. exists keyword. split; [exact H | apply String.eqb_refl].
Qed.

Lemma holders_In (keyword title : string) (titles : list string) :
  forall slots,
    In title (holders titles slots keyword) ->
    exists pos sd,
      titles !! pos = Some title /\ slots !! pos = Some (Some sd) /\
      In keyword sd.
Proof.
  induction titles as [|t titles IH]; intros slots H; [inversion H|].
  destruct slots as [|[words|] slots]; try (inversion H; fail).
  simpl in H. destruct (existsb _ words) eqn:E.
  - destruct H as [<-|H].
    + exists 0%nat, words. apply existsb_eqb_In in E. auto.
    + destruct (IH _ H) as (pos & sd & G). exists (S pos), sd. exact G.
  - destruct (IH _ H) as (pos & sd & G). exists (S pos), sd. exact G.
Qed.

Lemma holders_complete (keyword title : string) (titles : list string) :
  forall slots pos sd,
    Forall (fun slot => slot <> None) slots ->
    titles !! pos = Some title -> slots !! pos = Some (Some sd) ->
    In keyword sd ->
    In title (holders titles slots keyword).
Proof.
  induction titles as [|t titles IH]; intros slots pos sd Hall Ht Hs Hin;
    [discriminate|].
  destruct slots as [|slot slots]; [discriminate|].
  inversion Hall as [|? ? Hslot Hall']; subst.
  destruct slot as [words|]; [|congruence].
  simpl. destruct pos as [|pos]; simpl in Ht, Hs.
  - inversion Ht; inversion Hs; subst.
    apply existsb_eqb_In in Hin. rewrite Hin. left. reflexivity.
  - pose proof (IH slots pos sd Hall' Ht Hs Hin).
    destruct (existsb _ words); [right|]; assumption.
Qed.

Lemma holders_ascending (keyword : string) (titles : list string) :
  forall slots,
    ascending titles = true ->
    ascending (holders titles slots keyword) = true.
Proof.
  induction titles as [|t titles IH]; intros slots H; [reflexivity|].
  apply ascending_cons in H as [Ht Hl].
  destruct slots as [|[words|] slots]; try reflexivity.
  simpl. destruct (existsb _ words); [|apply IH, Hl].
  apply ascending_cons. split; [|apply IH, Hl].
  intros x Hx. apply holders_In in Hx as (pos & _ & Hx & _).
  apply Ht. eapply lookup_In, Hx.
Qed.

Lemma search_books_sound (keyword : string) (all : list string)
  (slots : list (option (list string))) :
  forall (i : nat) (ans : list string) (mid : option Z),
    Forall (fun slot => exists sd, slot = Some sd /\ ascending sd = true)
      slots ->
    (length slots <= length (drop i all))%nat ->
    search_books slots (Z.of_nat i) all keyword ans mid
    = Done (ans ++ holders (drop i all) slots keyword).
Proof.
  induction slots as [|slot slots IH]; intros i ans mid Hall Hlen.
  - simpl. destruct (drop i all); rewrite app_nil_r; reflexivity.
  - inversion Hall as [|? ? (words & -> & Hasc) Hall']; subst.
    destruct (all !! i) as [title|] eqn:Hi;
      [|apply lookup_ge_None in Hi; rewrite length_drop in Hlen;
        simpl in Hlen; lia].
    rewrite (drop_S _ _ _ Hi) in *. simpl in Hlen.
    destruct (binary_search_sound words keyword mid Hasc)
      as (b & mid' & E & Hb & _).
    cbn [search_books holders]. rewrite E. cbn [abind fst snd].
    replace (Z.of_nat i + 1) with (Z.of_nat (S i)) by lia.
    destruct b.
    + rewrite (proj2 (existsb_eqb_In keyword words) (proj1 Hb eq_refl)).
      rewrite (getitem_at _ _ _ Hi). cbn [lift abind].
      rewrite IH by (auto; lia). rewrite <- app_assoc. reflexivity.
    + destruct (existsb _ words) eqn:Ex.
      * apply existsb_eqb_In, Hb in Ex. discriminate.
      * apply IH; [auto | lia].
Qed.

Lemma built_slots (titles : list string) (given : list (list string))
  (lib : MuskLibrary) :
  built titles given lib ->
  Forall (fun slot => exists sd, slot = Some sd /\ ascending sd = true)
    (distincts lib).
Proof.
  intros (Hasc & Hsame & Hlen & Hd & Hslots).
  apply Forall_lookup. intros pos slot Hslot.
  pose proof (lookup_lt_Some _ _ _ Hslot) as Hlt.
  destruct (lookup_lt_is_Some_2 (book_titles lib) pos ltac:(lia))
    as (title & Hpos).
  destruct (Hslots pos title Hpos) as (j & text & sd & _ & _ & _ & G & Ha & _).
  exists sd. split; [congruence | exact Ha].
Qed.

Lemma search_keyword_built (titles : list string) (given : list (list string))
  (lib : MuskLibrary) (keyword : string) :
  List.NoDup titles -> built titles given lib ->
  exists ans,
    search_keyword lib keyword = Done ans /\
    ascending ans = true /\
    forall title,
      In title ans <->
      exists j text,
        titles !! j = Some title /\ given !! j = Some text /\
        In keyword text.
Proof.
  intros Hnd Hb.
  pose proof (built_slots titles given lib Hb) as Hall.
  pose proof Hb as (Hasc & Hsame & Hlen & Hd & Hslots).
  exists (holders (book_titles lib) (distincts lib) keyword).
  split; [|split].
  - unfold search_keyword.
    pose proof (search_books_sound keyword (book_titles lib) (distincts lib)
                  0%nat [] None Hall) as E.
    rewrite drop_0 in E. apply E. lia.
  - apply holders_ascending, Hasc.
  - intros title. split.
    + intros H. apply holders_In in H as (pos & sd & Hpos & Hsd & Hin).
      destruct (Hslots pos title Hpos)
        as (j & text & sd' & G1 & G2 & _ & G4 & _ & G6).
      exists j, text. refine (conj G1 (conj G2 _)).
      apply G6. congruence.
    + intros (j & text & Hj & Hg & Hin).
      destruct (built_slot titles given lib j title text Hnd Hb Hj Hg)
        as (pos & sd & Hpos & _ & Hsd & _ & Hw).
      apply (holders_complete keyword title _ _ pos sd); auto.
      * eapply Forall_impl; [exact Hall|].
        intros slot (sd' & -> & _). discriminate.
      * apply Hw, Hin.
Qed.

Lemma distinct_words_stray (titles : list string) (given : list (list string))
  (lib : MuskLibrary) (title : string) :
  built titles given lib -> titles <> [] ->
  exists j other text sd,
    titles !! j = Some other /\ given !! j = Some text /\
    distinct_words lib title = Done (Some sd) /\
    ascending sd = true /\
    forall w, In w sd <-> In w text.
Proof.
  intros (Hasc & Hsame & Hlen & Hd & Hslots) Hne.
  destruct (binary_search_sound (book_titles lib) title None Hasc)
    as (b & mid' & E & _ & _ & _ & H4).
  destruct H4 as (m & -> & Hm).
  { intros Hnil. rewrite Hnil in Hlen. destruct titles; [congruence|].
    discriminate. }
  destruct (getitem_in_range (book_titles lib) m Hm) as (other & _ & Ho).
  destruct (Hslots _ other Ho) as (j & text & sd & G1 & G2 & _ & G4 & G5 & G6).
  exists j, other, text, sd. refine (conj G1 (conj G2 (conj _ (conj G5 G6)))).
  unfold distinct_words. rewrite E. cbn [abind snd bound].
  destruct (getitem_in_range (distincts lib) m ltac:(lia)) as (a & Ea & Hl).
  rewrite Ea. cbn [lift]. congruence.
Qed.

(** ** Repeated titles *)

Lemma sorted_shorter (titles sorted : list string) :
  ascending sorted = true -> (forall w, In w sorted <-> In w titles) ->
  (length sorted <= length titles)%nat /\
  (~ List.NoDup titles -> (length sorted < length titles)%nat).
Proof.
  intros Hasc Hsame.
  pose proof (ascending_NoDup sorted Hasc) as Hnd.
  assert (Hincl : incl sorted titles) by (intros w; apply Hsame).
  pose proof (List.NoDup_incl_length Hnd Hincl) as Hle.
  split; [exact Hle|]. intros Hdup.
  destruct (Nat.eq_dec (length sorted) (length titles)) as [E|]; [|lia].
  exfalso. apply Hdup.
  apply (List.NoDup_incl_NoDup Hnd); [lia | exact Hincl].
Qed.

Lemma marked_round (titles : list string) (given : list (list string))
  (sorted : list string) (k : nat) (lib : MuskLibrary) (title : string)
  (text : list string) :
  (forall w, In w sorted <-> In w titles) ->
  (length sorted <= length titles)%nat ->
  marked titles sorted k lib ->
  titles !! k = Some title -> given !! k = Some text ->
  exists m sd,
    sorted !! m = Some title /\
    mergesort_words text = Done sd /\
    marked titles sorted (S k)
      (mkMusk (unsorted_books lib)
         (<[ m := Some text ]> (texts lib))
         (<[ m := Some sd ]> (distincts lib))
         (book_titles lib)).
Proof.
  intros Hsame Hshort (Hu & Hb & Ht & Hd & Hpast & Hasc & Hseen) Hk Hg.
  destruct (In_lookup sorted title) as (m & Hm);
    [apply Hsame; eapply lookup_In, Hk|].
  destruct (mergesort_words_sound text) as (sd & Esd & Hsd & _).
  exists m, sd. refine (conj Hm (conj Esd _)).
  pose proof (lookup_lt_Some _ _ _ Hm) as Hlt.
  unfold marked. cbn [unsorted_books book_titles texts distincts].
  rewrite !length_insert.
  refine (conj Hu (conj Hb (conj Ht (conj Hd (conj _ (conj _ _)))))).
  - intros pos Hpos. rewrite list_lookup_insert_ne by lia. apply Hpast, Hpos.
  - intros pos sd' Hpos. destruct (Nat.eq_dec pos m) as [->|Hne].
    + rewrite list_lookup_insert_eq in Hpos by lia. congruence.
    + rewrite list_lookup_insert_ne in Hpos by auto. eapply Hasc, Hpos.
  - intros j title' Hj Htj. destruct (Nat.eq_dec j k) as [->|Hne].
    + assert (title' = title) by congruence. subst title'.
      exists m, sd. rewrite list_lookup_insert_eq by lia. auto.
    + destruct (Hseen j title' ltac:(lia) Htj) as (pos & sd' & G1 & G2).
      destruct (Nat.eq_dec pos m) as [->|Hpm].
      * exists m, sd. rewrite list_lookup_insert_eq by lia. auto.
      * exists pos, sd'. rewrite list_lookup_insert_ne by auto. auto.
Qed.

Lemma search_books_stops (keyword : string) (all : list string) (p : nat) :
  forall (slots : list (option (list string))) (i : nat) (ans : list string)
    (mid : option Z),
    slots !! p = Some None ->
    (forall q, (q < p)%nat ->
       exists sd, slots !! q = Some (Some sd) /\ ascending sd = true) ->
    (p <= length (drop i all))%nat ->
    search_books slots (Z.of_nat i) all keyword ans mid = Failed TypeError.
Proof.
  induction p as [|p IH]; intros slots i ans mid Hp Hbefore Hlen.
  - destruct slots as [|[words|] slots]; try discriminate. reflexivity.
  - destruct (Hbefore 0%nat ltac:(lia)) as (words & H0 & Hasc).
    destruct slots as [|slot slots]; [discriminate|].
    simpl in H0. inversion H0; subst slot. simpl in Hp.
    destruct (all !! i) as [title|] eqn:Hi;
      [|apply lookup_ge_None in Hi; rewrite length_drop in Hlen; lia].
    rewrite (drop_S _ _ _ Hi) in Hlen. simpl in Hlen.
    assert (Hrest : forall q, (q < p)%nat ->
              exists sd, slots !! q = Some (Some sd) /\ ascending sd = true).
    { intros q Hq. apply (Hbefore (S q)). lia. }
    destruct (binary_search_sound words keyword mid Hasc)
      as (b & mid' & E & _).
    cbn [search_books]. rewrite E. cbn [abind fst snd].
    replace (Z.of_nat i + 1) with (Z.of_nat (S i)) by lia.
    destruct b.
    + rewrite (getitem_at _ _ _ Hi). cbn [lift abind].
      apply IH; [exact Hp | exact Hrest | lia].
    + apply IH; [exact Hp | exact Hrest | lia].
Qed.

Lemma repeated_titles_sound (titles : list string) (given : list (list string)) :
  ~ List.NoDup titles -> length given = length titles ->
  exists lib,
    musk_library titles given = Done lib /\
    forall keyword, search_keyword lib keyword = Failed TypeError.
Proof.
  intros Hdup Hlen.
  destruct (mergesort_words_sound titles) as (sorted & Es & Hasc & Hsame).
  destruct (sorted_shorter titles sorted Hasc Hsame) as (Hle & Hlt).
  specialize (Hlt Hdup).
  unfold musk_library. rewrite Es. cbn [abind].
  destruct (init_loop_keeps titles given sorted (marked titles sorted)
              Hlen Hasc Hle
              ltac:(intros k lib (Hu & Hb & Ht & Hd & _); auto)
              (fun k lib title text =>
                 marked_round titles given sorted k lib title text Hsame Hle)
              (length titles) 0%nat
              (mkMusk titles (replicate (length titles) None)
                 (replicate (length titles) None) sorted) None)
    as (lib & E & Hm).
  - lia.
  - unfold marked. cbn [unsorted_books book_titles texts distincts].
    rewrite !length_replicate.
    refine (conj eq_refl (conj eq_refl (conj eq_refl (conj eq_refl
              (conj _ (conj _ _)))))).
    + intros pos Hpos. apply lookup_replicate_2. lia.
    + intros pos sd H. apply lookup_replicate in H as [H _]. discriminate.
    + intros ? ? H. lia.
  - exists lib. split; [exact E|]. intros keyword.
    destruct Hm as (Hu & Hb & Ht & Hd & Hpast & Hsd & Hseen).
    unfold search_keyword. change 0 with (Z.of_nat 0).
    apply (search_books_stops keyword (book_titles lib) (length sorted)).
    + apply Hpast. lia.
    + intros q Hq.
      destruct (lookup_lt_is_Some_2 sorted q Hq) as (title & Hq').
      destruct (In_lookup titles title) as (j & Hj);
        [apply Hsame; eapply lookup_In, Hq'|].
      destruct (Hseen j title (lookup_lt_Some _ _ _ Hj) Hj)
        as (pos & sd & G1 & G2).
      rewrite (ascending_lookup_inj sorted q pos title Hasc Hq' G1).
      exists sd. split; [exact G2 | eapply Hsd, G2].
    + rewrite drop_0, Hb. lia.
Qed.

(** ** The library as its user sees it *)

(** [merge] of two lists that each ascend strictly gives a list that
    ascends strictly, hence without repeats, and holds exactly the words
    of the two. *)
Theorem merge_unites_sorted (left right : list string) :
  ascending left = true -> ascending right = true ->
  ascending (merge left right) = true /\
  forall w, In w (merge left right) <-> In w left \/ In w right.
Proof. intros Hl Hr. apply merge_sound; assumption. Qed.

Lemma merge_unites_sorted_witness :
  ascending (merge ["a"; "c"; "d"] ["b"; "c"])%string = true /\
  forall w, In w (merge ["a"; "c"; "d"] ["b"; "c"])%string <->
            In w ["a"; "c"; "d"]%string \/ In w ["b"; "c"]%string.
Proof.
  apply (merge_unites_sorted ["a"; "c"; "d"] ["b"; "c"])%string;
    reflexivity.
Defined.

(** [mergesort_words] returns for every list: the result ascends strictly,
    so no word comes twice, and it holds exactly the words of the list. *)
Theorem mergesort_words_sorts_distinct (lst : list string) :
  exists out,
    mergesort_words lst = Done out /\
    ascending out = true /\
    List.NoDup out /\
    forall w, In w out <-> In w lst.
Proof.
  destruct (mergesort_words_sound lst) as (out & E & Hasc & Hsame).
  exists out. split; [exact E|]. split; [exact Hasc|].
  split; [apply ascending_NoDup, Hasc | exact Hsame].
Qed.

(** [MuskLibrary(book_titles, texts)] for pairwise distinct titles and as
    many texts: the titles are kept ascending, and at the position of
    each title sit the text given with it and the ascending distinct
    words of that text. *)
Theorem library_is_built (titles : list string) (given : list (list string)) :
  List.NoDup titles -> length given = length titles ->
  exists lib,
    musk_library titles given = Done lib /\
    ascending (book_titles lib) = true /\
    (forall w, In w (book_titles lib) <-> In w titles) /\
    forall j title text,
      titles !! j = Some title -> given !! j = Some text ->
      exists pos sd,
        book_titles lib !! pos = Some title /\
        texts lib !! pos = Some (Some text) /\
        distincts lib !! pos = Some (Some sd) /\
        ascending sd = true /\
        forall w, In w sd <-> In w text.
Proof.
  intros Hnd Hlen.
  destruct (musk_library_sound titles given Hnd Hlen) as (lib & E & Hb).
  exists lib. split; [exact E|].
  split; [exact (proj1 Hb)|]. split; [exact (proj1 (proj2 Hb))|].
  intros j title text Hj Hg.
  exact (built_slot titles given lib j title text Hnd Hb Hj Hg).
Qed.

Lemma library_is_built_witness :
  exists lib,
    musk_library shelf_titles shelf_texts = Done lib /\
    ascending (book_titles lib) = true /\
    (forall w, In w (book_titles lib) <-> In w shelf_titles).
Proof.
  destruct (library_is_built shelf_titles shelf_texts)
    as (lib & E & Hasc & Hsame & _).
  - repeat constructor; simpl; intuition discriminate.
  - reflexivity.
  - exists lib. auto.
Defined.

(** [distinct_words] for a title of a library built from pairwise distinct
    titles returns the words of that title's text, ascending and each
    once. *)
Theorem distinct_words_of_title (titles : list string)
  (given : list (list string)) (j : nat) (title : string)
  (text : list string) :
  List.NoDup titles -> length given = length titles ->
  titles !! j = Some title -> given !! j = Some text ->
  exists lib sd,
    musk_library titles given = Done lib /\
    distinct_words lib title = Done (Some sd) /\
    ascending sd = true /\
    forall w, In w sd <-> In w text.
Proof.
  intros Hnd Hlen Hj Hg.
  destruct (musk_library_sound titles given Hnd Hlen) as (lib & E & Hb).
  destruct (distinct_words_built titles given lib j title text Hnd Hb Hj Hg)
    as (sd & Hd & Hasc & Hsame).
  exists lib, sd. auto.
Qed.

Lemma distinct_words_of_title_witness :
  exists lib sd,
    musk_library shelf_titles shelf_texts = Done lib /\
    distinct_words lib "Emma" = Done (Some sd) /\
    ascending sd = true /\
    forall w, In w sd <-> In w ["a"; "match"; "a"; "the"]%string.
Proof.
  apply (distinct_words_of_title shelf_titles shelf_texts 1 "Emma"
           ["a"; "match"; "a"; "the"])%string.
  - repeat constructor; simpl; intuition discriminate.
  - reflexivity.
  - reflexivity.
  - reflexivity.
Defined.

(** [count_distinct_words] for a title of a library built from pairwise
    distinct titles is the number of different words of that title's
    text. *)
Theorem count_distinct_words_counts (titles : list string)
  (given : list (list string)) (j : nat) (title : string)
  (text : list string) :
  List.NoDup titles -> length given = length titles ->
  titles !! j = Some title -> given !! j = Some text ->
  exists lib,
    musk_library titles given = Done lib /\
    count_distinct_words lib title
    = Done (Z.of_nat (length (nodup string_dec text))).
Proof.
  intros Hnd Hlen Hj Hg.
  destruct (musk_library_sound titles given Hnd Hlen) as (lib & E & Hb).
  destruct (distinct_words_built titles given lib j title text Hnd Hb Hj Hg)
    as (sd & Hd & Hasc & Hsame).
  exists lib. split; [exact E|].
  unfold count_distinct_words. rewrite Hd. cbn [abind len].
  do 2 f_equal. apply same_elements_length.
  - apply ascending_NoDup, Hasc.
  - apply List.NoDup_nodup.
  - intros w. rewrite Hsame. symmetry. apply nodup_In.
Qed.

Lemma count_distinct_words_counts_witness :
  exists lib,
    musk_library shelf_titles shelf_texts = Done lib /\
    count_distinct_words lib "Walden" = Done 3.
Proof.
  apply (count_distinct_words_counts shelf_titles shelf_texts 0 "Walden"
           ["the"; "pond"; "the"; "woods"])%string.
  - repeat constructor; simpl; intuition discriminate.
  - reflexivity.
  - reflexivity.
  - reflexivity.
Defined.

(** [search_keyword] on a library built from pairwise distinct titles
    returns, in ascending order and each once, exactly the titles whose
    text holds the keyword. *)
Theorem search_keyword_finds (titles : list string)
  (given : list (list string)) (keyword : string) :
  List.NoDup titles -> length given = length titles ->
  exists lib ans,
    musk_library titles given = Done lib /\
    search_keyword lib keyword = Done ans /\
    ascending ans = true /\
    forall title,
      In title ans <->
      exists j text,
        titles !! j = Some title /\ given !! j = Some text /\
        In keyword text.
Proof.
  intros Hnd Hlen.
  destruct (musk_library_sound titles given Hnd Hlen) as (lib & E & Hb).
  destruct (search_keyword_built titles given lib keyword Hnd Hb)
    as (ans & Hs & Hasc & Hin).
  exists lib, ans. auto.
Qed.

Lemma search_keyword_finds_witness :
  exists lib ans,
    musk_library shelf_titles shelf_texts = Done lib /\
    search_keyword lib "the" = Done ans /\
    ascending ans = true /\
    forall title,
      In title ans <->
      exists j text,
        shelf_titles !! j = Some title /\ shelf_texts !! j = Some text /\
        In "the"%string text.
Proof.
  apply (search_keyword_finds shelf_titles shelf_texts "the").
  - repeat constructor; simpl; intuition discriminate.
  - reflexivity.
Defined.

(** [distinct_words] for a title the library does not have: with no book
    at all the method fails on its unassigned [mid]; with books it raises
    nothing and hands back the distinct words of some other book. *)
Theorem distinct_words_of_missing_title (titles : list string)
  (given : list (list string)) (title : string) :
  List.NoDup titles -> length given = length titles ->
  ~ In title titles ->
  exists lib,
    musk_library titles given = Done lib /\
    (titles = [] -> distinct_words lib title = UnboundLocalError) /\
    (titles <> [] ->
     exists j other text sd,
       titles !! j = Some other /\ other <> title /\
       given !! j = Some text /\
       distinct_words lib title = Done (Some sd) /\
       forall w, In w sd <-> In w text).
Proof.
  intros Hnd Hlen Hout.
  destruct (musk_library_sound titles given Hnd Hlen) as (lib & E & Hb).
  exists lib. split; [exact E|]. split.
  - intros ->. destruct Hb as (_ & _ & Hl & _).
    unfold distinct_words. destruct (book_titles lib); [reflexivity|].
    discriminate.
  - intros Hne.
    destruct (distinct_words_stray titles given lib title Hb Hne)
      as (j & other & text & sd & G1 & G2 & G3 & _ & G5).
    exists j, other, text, sd.
    refine (conj G1 (conj _ (conj G2 (conj G3 G5)))).
    intros ->. apply Hout. eapply lookup_In, G1.
Qed.

Lemma distinct_words_of_missing_title_witness :
  exists lib,
    musk_library shelf_titles shelf_texts = Done lib /\
    exists j other text sd,
      shelf_titles !! j = Some other /\ other <> "Zorba"%string /\
      shelf_texts !! j = Some text /\
      distinct_words lib "Zorba" = Done (Some sd) /\
      forall w, In w sd <-> In w text.
Proof.
  destruct (distinct_words_of_missing_title shelf_titles shelf_texts "Zorba")
    as (lib & E & _ & H).
  - repeat constructor; simpl; intuition discriminate.
  - reflexivity.
  - simpl. intuition discriminate.
  - exists lib. split; [exact E|]. apply H. discriminate.
Defined.

(** When a title is given twice, [__init__] still returns, but slots past
    the distinct titles keep [None], and [search_keyword] then raises
    [TypeError] whatever the keyword. *)
Theorem repeated_titles_break_search (titles : list string)
  (given : list (list string)) :
  ~ List.NoDup titles -> length given = length titles ->
  exists lib,
    musk_library titles given = Done lib /\
    forall keyword, search_keyword lib keyword = Failed TypeError.
Proof. intros Hdup Hlen. apply repeated_titles_sound; assumption. Qed.

Lemma repeated_titles_break_search_witness :
  exists lib,
    musk_library ["Emma"; "Emma"]%string [["a"]; ["b"]]%string = Done lib /\
    forall keyword, search_keyword lib keyword = Failed TypeError.
Proof.
  apply (repeated_titles_break_search ["Emma"; "Emma"] [["a"]; ["b"]])%string.
  - intros H. inversion H as [|x l Hx _]; subst. apply Hx. left. reflexivity.
  - reflexivity.
Defined.
